(** * Minute-book section classifier: boundary reconciliation, transport
      retries, response extraction and strategy escalation

    A shallow embedding of [section_processor.py], [api_client.py], the
    batching, aggregation and structure-resolution parts of [classifier.py]
    and the grid layout of [image_utils.py], with the properties the
    natural-language specification states about them and further properties
    read off the code. *)

From Stdlib Require Import ZArith QArith Qabs List String Ascii Bool Lia.
From Stdlib Require Import DecimalString.
From stdpp Require Import base list.
From Equations Require Import Equations.

Set Warnings "-register-all".

Local Open Scope string_scope.
Local Open Scope list_scope.
Local Open Scope Z_scope.

(** ** Sections *)

(** A section dict [{'name': ..., 'startPage': ..., 'endPage': ...}]. Page
    numbers are Python integers, hence unbounded. *)
Record section := mkSection {
  name : string;
  startPage : Z;
  endPage : Z
}.

Definition section_eqb (a b : section) : bool :=
  String.eqb (name a) (name b)
  && (startPage a =? startPage b) && (endPage a =? endPage b).

(** The schema of a validated section: [startPage >= 1], [endPage >= startPage]. *)
Definition schema_valid (s : section) : Prop :=
  1 <= startPage s /\ startPage s <= endPage s.

Module SectionProcessor.

(** *** [sorted(sections, key=lambda s: s['startPage'])]

    Python's [sorted] is stable; a stable sort is determined by its key, so
    the insertion sort below computes the same list. *)
Fixpoint insert_by_start (s : section) (l : list section) : list section :=
  match l with
  | [] => [s]
  | x :: r =>
      if startPage s <=? startPage x then s :: x :: r
      else x :: insert_by_start s r
  end.

Fixpoint sorted (l : list section) : list section :=
  match l with
  | [] => []
  | s :: r => insert_by_start s (sorted r)
  end.

(** *** Phase A: the [while i < len(sorted_sections)] loop *)

Record loop_state := mkLoop {
  sorted_sections : list section;
  fixed_sections : list section;
  idx : nat
}.

Definition midpoint (current next_section : section) : Z :=
  (endPage current + startPage next_section) / 2.

Definition is_duplicate (current next_section : section) : bool :=
  (startPage current =? startPage next_section)
  && (endPage current =? endPage next_section).

(** One iteration of the loop body, for a state in which
    [idx < len(sorted_sections)]. *)
Definition loop_body (st : loop_state) : loop_state :=
  let i := idx st in
  match sorted_sections st !! i with
  | None => st
  | Some current =>
      let keep cur srt :=
        mkLoop srt (fixed_sections st ++ [cur]) (S i) in
      if (S i <? length (sorted_sections st))%nat then
        match sorted_sections st !! S i with
        | None => keep current (sorted_sections st)
        | Some next_section =>
            if endPage current >=? startPage next_section then
              if is_duplicate current next_section then
                (* i += 1; continue *)
                mkLoop (sorted_sections st) (fixed_sections st) (S i)
              else
                let m := midpoint current next_section in
                keep (mkSection (name current) (startPage current) m)
                     (<[S i := mkSection (name next_section) (m + 1)
                                         (endPage next_section)]>
                        (sorted_sections st))
            else keep current (sorted_sections st)
        end
      else keep current (sorted_sections st)
  end.

Equations? phaseA_loop (st : loop_state) : list section
  by wf (length (sorted_sections st) - idx st)%nat lt :=
  phaseA_loop st with decide (idx st < length (sorted_sections st))%nat := {
    | left Hlt => phaseA_loop (loop_body st)
    | right _ => fixed_sections st
  }.
Proof.
  assert (Hlen : length (sorted_sections (loop_body st))
                 = length (sorted_sections st)
                 /\ idx (loop_body st) = S (idx st)).
  { unfold loop_body.
    destruct (lookup_lt_is_Some_2 _ _ Hlt) as [c ->].
    destruct (S (idx st) <? length (sorted_sections st))%nat; [|done].
    destruct (sorted_sections st !! S (idx st)) as [n|]; [|done].
    destruct (endPage c >=? startPage n); [|done].
    destruct (is_duplicate c n); [done|].
    cbn. by rewrite length_insert. }
  destruct Hlen as [-> ->]. lia.
Defined.

(** *** Phase B: the [for i, section in enumerate(fixed_sections)] loop *)

Definition fill_gap (fixed : list section) (i : nat) (s : section) : section :=
  if (S i <? length fixed)%nat then
    match fixed !! S i with
    | None => s
    | Some next_section =>
        let gap := startPage next_section - endPage s - 1 in
        if (0 <? gap) && (gap <=? 5) then
          mkSection (name s) (startPage s) (startPage next_section - 1)
        else s
    end
  else s.

Definition phaseB (fixed : list section) : list section :=
  imap (fill_gap fixed) fixed.

Definition phaseA (sections : list section) : list section :=
  phaseA_loop (mkLoop (sorted sections) [] 0).

Definition fix_section_boundaries (sections : list section) : list section :=
  match sections with
  | [] => sections
  | _ => phaseB (phaseA sections)
  end.

(** *** The loop as a recursion on the remaining sections

    [resolve current rest] is what the loop appends from the moment
    [current] is the section under the index and [rest] is what follows it in
    [sorted_sections]. *)
Fixpoint resolve (current : section) (rest : list section) : list section :=
  match rest with
  | [] => [current]
  | next_section :: rest' =>
      if endPage current >=? startPage next_section then
        if is_duplicate current next_section then resolve next_section rest'
        else
          let m := midpoint current next_section in
          mkSection (name current) (startPage current) m
            :: resolve (mkSection (name next_section) (m + 1)
                                  (endPage next_section)) rest'
      else current :: resolve next_section rest'
  end.

Definition resolve_overlaps (l : list section) : list section :=
  match l with
  | [] => []
  | current :: rest => resolve current rest
  end.

End SectionProcessor.

(** ** Python strings and the [re] and [json] modules, as far as the client
       and the classifier use them

    A Python [str] is modelled by a [string] whose characters are the code
    points 0 to 255. *)

Module Py.

Definition code (c : ascii) : N := N_of_ascii c.

(** The double quote, code point 34. *)
Definition dquote : ascii := "034"%char.

(** [str.isspace] on one character, which is also the class [\s] of [re]:
    tab to carriage return, the separators 28 to 31, space, NEL and the
    no-break space. *)
Definition is_space (c : ascii) : bool :=
  let n := code c in
  ((9 <=? n) && (n <=? 13) || (28 <=? n) && (n <=? 32)
   || (n =? 133) || (n =? 160))%N.

Fixpoint lstrip (s : string) : string :=
  match s with
  | String c r => if is_space c then lstrip r else s
  | EmptyString => s
  end.

(** [s.strip()] is empty exactly when every character of [s] is a space. *)
Definition is_blank (s : string) : bool :=
  match lstrip s with EmptyString => true | _ => false end.

Fixpoint skip (n : nat) (s : string) : string :=
  match n, s with
  | S n', String _ r => skip n' r
  | _, _ => s
  end.

(** [s.find(c)], as the text from the first [c] on. *)
Fixpoint from_first (c : ascii) (s : string) : option string :=
  match s with
  | EmptyString => None
  | String x r => if Ascii.eqb x c then Some s else from_first c r
  end.

Definition lower (c : ascii) : ascii :=
  let n := code c in
  if ((65 <=? n) && (n <=? 90))%N then ascii_of_N (n + 32) else c.

(** The line boundaries of [str.splitlines] among the code points 0 to 255. *)
Definition is_linebreak (c : ascii) : bool :=
  let n := code c in
  ((10 <=? n) && (n <=? 13) || (28 <=? n) && (n <=? 30) || (n =? 133))%N.

(** [s.splitlines(keepends=True)]: [line] holds, reversed, the characters of
    the line being read. A carriage return followed by a line feed is one
    boundary. *)
Fixpoint splitlines_from (line : list ascii) (s : string) : list string :=
  let close l := string_of_list_ascii (rev l) in
  match s with
  | EmptyString =>
      match line with [] => [] | _ => [close line] end
  | String c r =>
      if is_linebreak c then
        if (code c =? 13)%N then
          match r with
          | String d r' =>
              if (code d =? 10)%N
              then close (d :: c :: line) :: splitlines_from [] r'
              else close (c :: line) :: splitlines_from [] r
          | EmptyString => [close (c :: line)]
          end
        else close (c :: line) :: splitlines_from [] r
      else splitlines_from (c :: line) r
  end.

Definition splitlines (s : string) : list string := splitlines_from [] s.

(** A text given with an apostrophe wherever it has a double quote, which
    keeps JSON examples readable. *)
Definition dq (s : string) : string :=
  string_of_list_ascii
    (map (fun c => if Ascii.eqb c "'" then dquote else c)
         (list_ascii_of_string s)).

Definition newline : string := String "010" EmptyString.

(** ["".join(parts)] *)
Definition join (parts : list string) : string :=
  fold_right String.append EmptyString parts.

(** [sep.join(parts)] *)
Fixpoint join_with (sep : string) (parts : list string) : string :=
  match parts with
  | [] => EmptyString
  | [p] => p
  | p :: rest => String.append p (String.append sep (join_with sep rest))
  end.

(** [str(n)] for a non-negative integer: its decimal digits. *)
Definition str_of_nat (n : nat) : string :=
  NilZero.string_of_uint (Nat.to_uint n).

(** [range(start, stop, step)] for a positive step; [stop] iterations are
    enough from a non-negative start. *)
Fixpoint range_from (fuel start stop step : nat) : list nat :=
  match fuel with
  | O => []
  | S fuel' =>
      if (start <? stop)%nat
      then start :: range_from fuel' (start + step) stop step
      else []
  end.

Definition range (start stop step : nat) : list nat :=
  range_from stop start stop step.

End Py.

(** *** Regular expressions

    The patterns of the client are sequences of single characters, starred
    character classes (greedy or not) and one capturing group; they are
    matched by backtracking, the first alternative of each star first, as
    [re] does. All of them are compiled with [re.DOTALL]. *)
Module Re.

Inductive atom :=
| Char (c : ascii)       (* the character itself *)
| Whitespace             (* \s *)
| Any                    (* . *)
| Except (c : ascii).    (* [^c] *)

Inductive item :=
| One (a : atom)
| Greedy (a : atom)      (* a* *)
| Lazy (a : atom)        (* a*? *)
| Open                   (* ( *)
| Close.                 (* ) *)

Definition pattern := list item.

Definition accepts (ignorecase : bool) (a : atom) (x : ascii) : bool :=
  match a with
  | Char c =>
      if ignorecase then Ascii.eqb (Py.lower x) (Py.lower c) else Ascii.eqb x c
  | Whitespace => Py.is_space x
  | Any => true
  | Except c => negb (Ascii.eqb x c)
  end.

(** A match: where it ends and where group 1 starts and ends, counted in
    characters from the start of the match. *)
Record span := mkSpan { stop : nat; group_start : nat; group_stop : nat }.

Fixpoint run (ic : bool) (p : pattern) (s : string) (pos : nat)
    (g : nat * nat) : option span :=
  match p with
  | [] => Some (mkSpan pos (fst g) (snd g))
  | One a :: p' =>
      match s with
      | String c r => if accepts ic a c then run ic p' r (S pos) g else None
      | EmptyString => None
      end
  | Greedy a :: p' =>
      (fix star (s : string) (pos : nat) : option span :=
         match s with
         | String c r =>
             if accepts ic a c then
               match star r (S pos) with
               | Some m => Some m
               | None => run ic p' s pos g
               end
             else run ic p' s pos g
         | EmptyString => run ic p' s pos g
         end) s pos
  | Lazy a :: p' =>
      (fix star (s : string) (pos : nat) : option span :=
         match run ic p' s pos g with
         | Some m => Some m
         | None =>
             match s with
             | String c r => if accepts ic a c then star r (S pos) else None
             | EmptyString => None
             end
         end) s pos
  | Open :: p' => run ic p' s pos (pos, snd g)
  | Close :: p' => run ic p' s pos (fst g, pos)
  end.

Definition match_at (ic : bool) (p : pattern) (s : string) : option span :=
  run ic p s 0 (0%nat, 0%nat).

Definition group (m : span) (s : string) : string :=
  substring (group_start m) (group_stop m - group_start m) s.

(** [re.findall(p, s)] for a pattern with one group: the text of the group
    in each match, the matches taken from left to right without overlap. *)
Fixpoint findall_from (fuel : nat) (ic : bool) (p : pattern) (s : string)
    : list string :=
  match fuel, s with
  | S fuel', String _ r =>
      match match_at ic p s with
      | Some m =>
          group m s :: findall_from fuel' ic p (Py.skip (Nat.max 1 (stop m)) s)
      | None => findall_from fuel' ic p r
      end
  | _, _ => []
  end.

Definition findall (ic : bool) (p : pattern) (s : string) : list string :=
  findall_from (String.length s) ic p s.

(** A replacement template: literal text and references to group 1. *)
Inductive piece := Text (t : string) | Group1.

Definition expand (repl : list piece) (m : span) (s : string) : string :=
  Py.join (map (fun x => match x with Text t => t | Group1 => group m s end) repl).

(** [re.sub(p, repl, s)]: every match, from left to right without overlap,
    is replaced by the expanded template. *)
Fixpoint sub_from (fuel : nat) (p : pattern) (repl : list piece) (s : string)
    : string :=
  match fuel, s with
  | S fuel', String c r =>
      match match_at false p s with
      | Some m =>
          match stop m with
          | O => String c (sub_from fuel' p repl r)
          | S _ =>
              String.append (expand repl m s)
                            (sub_from fuel' p repl (Py.skip (stop m) s))
          end
      | None => String c (sub_from fuel' p repl r)
      end
  | _, _ => s
  end.

Definition sub (p : pattern) (repl : list piece) (s : string) : string :=
  sub_from (String.length s) p repl s.

(** A literal piece of pattern, one [One (Char c)] per character. *)
Fixpoint lit (s : string) : pattern :=
  match s with
  | EmptyString => []
  | String c r => One (Char c) :: lit r
  end.

End Re.

(** *** JSON values, as Python objects *)

Module Json.

(** A Python [float]: the rational it stands for, an infinity, or NaN. *)
Inductive pyfloat :=
| Finite (q : Q)
| Infinity (negative : bool)
| NaN.

(** What [json.loads] returns. A [dict] is kept as the list of its entries,
    one per key, in insertion order. *)
Inductive value :=
| JNull
| JBool (b : bool)
| JInt (z : Z)
| JFloat (f : pyfloat)
| JString (s : string)
| JArray (l : list value)
| JObject (entries : list (string * value)).

(** [key in d] and [d[key]] *)
Fixpoint get (key : string) (entries : list (string * value)) : option value :=
  match entries with
  | [] => None
  | (k, v) :: r => if String.eqb k key then Some v else get key r
  end.

(** [d[key] = v]: an existing key keeps its place. *)
Fixpoint set (key : string) (v : value) (entries : list (string * value))
    : list (string * value) :=
  match entries with
  | [] => [(key, v)]
  | (k, x) :: r =>
      if String.eqb k key then (k, v) :: r else (k, x) :: set key v r
  end.

(** The truth value of an object, as tested by [if candidate:]. *)
Definition truthy (v : value) : bool :=
  match v with
  | JNull => false
  | JBool b => b
  | JInt z => negb (z =? 0)
  | JFloat (Finite q) => negb (Qeq_bool q 0)
  | JFloat _ => true
  | JString s => negb (String.eqb s "")
  | JArray l => match l with [] => false | _ => true end
  | JObject m => match m with [] => false | _ => true end
  end.

(** The built-ins whose text-level behaviour is left to the interpreter:
    [json.loads] (with [None] for [JSONDecodeError]), [str] on a value that
    is not a string, and [int] on a string (with [None] for [ValueError]). *)
Class Runtime := {
  loads : string -> option value;
  repr : value -> string;
  int_of_str : string -> option Z
}.

(** *** A reference [json.loads]

    A decoder for the JSON grammar with Python's extensions ([NaN],
    [Infinity], [-Infinity]), strict about control characters in strings. A
    number with a fraction or an exponent denotes its decimal value, not
    rounded to binary64, or an infinity from 2^1024 on. *)
Definition is_ws (c : ascii) : bool :=
  let n := Py.code c in ((n =? 32) || (n =? 9) || (n =? 10) || (n =? 13))%N.

Fixpoint skip_ws (s : string) : string :=
  match s with
  | String c r => if is_ws c then skip_ws r else s
  | EmptyString => s
  end.

Definition digit (c : ascii) : option Z :=
  let n := Py.code c in
  if ((48 <=? n) && (n <=? 57))%N then Some (Z.of_N n - 48) else None.

Definition hex_digit (c : ascii) : option N :=
  let n := Py.code c in
  if ((48 <=? n) && (n <=? 57))%N then Some (n - 48)%N
  else if ((65 <=? n) && (n <=? 70))%N then Some (n - 55)%N
  else if ((97 <=? n) && (n <=? 102))%N then Some (n - 87)%N
  else None.

(** The longest run of digits at the head of [s]: its value, its length and
    what follows. *)
Fixpoint digits (acc : Z) (len : nat) (s : string) : Z * nat * string :=
  match s with
  | String c r =>
      match digit c with
      | Some d => digits (10 * acc + d) (S len) r
      | None => (acc, len, s)
      end
  | EmptyString => (acc, len, s)
  end.

Fixpoint strip_prefix (p s : string) : option string :=
  match p, s with
  | EmptyString, _ => Some s
  | String a p', String b s' => if Ascii.eqb a b then strip_prefix p' s' else None
  | _, _ => None
  end.

(** The body of a string, after the opening quote. *)
Fixpoint scan_string (fuel : nat) (s : string) : option (string * string) :=
  match fuel, s with
  | S fuel', String c r =>
      if Ascii.eqb c Py.dquote then Some (EmptyString, r)
      else if Ascii.eqb c "\" then
        match r with
        | String e r' =>
            let simple x :=
              match scan_string fuel' r' with
              | Some (t, rest) => Some (String x t, rest)
              | None => None
              end in
            if Ascii.eqb e Py.dquote then simple Py.dquote
            else if Ascii.eqb e "\" then simple "\"%char
            else if Ascii.eqb e "/" then simple "/"%char
            else if Ascii.eqb e "b" then simple "008"%char
            else if Ascii.eqb e "f" then simple "012"%char
            else if Ascii.eqb e "n" then simple "010"%char
            else if Ascii.eqb e "r" then simple "013"%char
            else if Ascii.eqb e "t" then simple "009"%char
            else if Ascii.eqb e "u" then
              match r' with
              | String h1 (String h2 (String h3 (String h4 r''))) =>
                  match hex_digit h1, hex_digit h2, hex_digit h3, hex_digit h4 with
                  | Some a, Some b, Some c', Some d =>
                      let n := (((a * 16 + b) * 16 + c') * 16 + d)%N in
                      if (n <? 256)%N then
                        match scan_string fuel' r'' with
                        | Some (t, rest) => Some (String (ascii_of_N n) t, rest)
                        | None => None
                        end
                      else None
                  | _, _, _, _ => None
                  end
              | _ => None
              end
            else None
        | EmptyString => None
        end
      else if (Py.code c <? 32)%N then None
      else
        match scan_string fuel' r with
        | Some (t, rest) => Some (String c t, rest)
        | None => None
        end
  | _, _ => None
  end.

Definition float_of (q : Q) : pyfloat :=
  if Qle_bool (inject_Z (2 ^ 1024)) (Qabs q)
  then Infinity (Qle_bool q 0) else Finite q.

(** A number at the head of [s]: an optional minus sign, then 0 or a run of
    digits that does not start with 0, then an optional fraction and an
    optional exponent, each with at least one digit. *)
Definition scan_number (s : string) : option (value * string) :=
  let '(neg, s1) :=
    match s with
    | String "-" r => (true, r)
    | _ => (false, s)
    end in
  let sign z := if neg then - z else z in
  match s1 with
  | String c _ =>
      match digit c with
      | None => None
      | Some d0 =>
          let '(int_part, s2) :=
            if d0 =? 0 then (0, Py.skip 1 s1)
            else let '(n, _, r) := digits 0 0 s1 in (n, r) in
          let '(frac, frac_len, s3) :=
            match s2 with
            | String "." r =>
                let '(f, len, r') := digits 0 0 r in
                match len with
                | O => (0, O, s2)
                | _ => (f, len, r')
                end
            | _ => (0, O, s2)
            end in
          let '(has_exp, exponent, s4) :=
            match s3 with
            | String e r =>
                if Ascii.eqb e "e" || Ascii.eqb e "E" then
                  let '(eneg, r1) :=
                    match r with
                    | String "-" r1 => (true, r1)
                    | String "+" r1 => (false, r1)
                    | _ => (false, r)
                    end in
                  let '(x, len, r2) := digits 0 0 r1 in
                  match len with
                  | O => (false, 0, s3)
                  | _ => (true, if eneg then - x else x, r2)
                  end
                else (false, 0, s3)
            | EmptyString => (false, 0, s3)
            end in
          match frac_len, has_exp with
          | O, false => Some (JInt (sign int_part), s4)
          | _, _ =>
              let mantissa :=
                (inject_Z (int_part * 10 ^ Z.of_nat frac_len + frac)
                 / inject_Z (10 ^ Z.of_nat frac_len))%Q in
              let scaled :=
                if exponent <? 0
                then (mantissa / inject_Z (10 ^ (- exponent)))%Q
                else (mantissa * inject_Z (10 ^ exponent))%Q in
              Some (JFloat (float_of (if neg then - scaled else scaled)%Q), s4)
          end
      end
  | EmptyString => None
  end.

(** [decode_value fuel s] decodes one value at the head of [s]; [elements] and
    [members] continue an array or an object after its opening bracket. *)
Definition orelse {A} (x y : option A) : option A :=
  match x with Some _ => x | None => y end.

Definition constant (word : string) (v : value) (s : string)
    : option (value * string) :=
  match strip_prefix word s with
  | Some r => Some (v, r)
  | None => None
  end.

Fixpoint decode_value (fuel : nat) (s : string) : option (value * string) :=
  match fuel with
  | O => None
  | S fuel' =>
      match s with
      | EmptyString => None
      | String c r =>
          if Ascii.eqb c Py.dquote then
            match scan_string (String.length r) r with
            | Some (t, rest) => Some (JString t, rest)
            | None => None
            end
          else if Ascii.eqb c "{" then
            match skip_ws r with
            | String "}" rest => Some (JObject [], rest)
            | r' => decode_members fuel' [] r'
            end
          else if Ascii.eqb c "[" then
            match skip_ws r with
            | String "]" rest => Some (JArray [], rest)
            | r' => decode_elements fuel' [] r'
            end
          else
            orelse (constant "null" JNull s)
            (orelse (constant "true" (JBool true) s)
            (orelse (constant "false" (JBool false) s)
            (orelse (scan_number s)
            (orelse (constant "NaN" (JFloat NaN) s)
            (orelse (constant "Infinity" (JFloat (Infinity false)) s)
                    (constant "-Infinity" (JFloat (Infinity true)) s))))))
      end
  end
with decode_elements (fuel : nat) (acc : list value) (s : string)
    : option (value * string) :=
  match fuel with
  | O => None
  | S fuel' =>
      match decode_value fuel' s with
      | Some (v, r) =>
          match skip_ws r with
          | String "," r' => decode_elements fuel' (acc ++ [v]) (skip_ws r')
          | String "]" rest => Some (JArray (acc ++ [v]), rest)
          | _ => None
          end
      | None => None
      end
  end
with decode_members (fuel : nat) (acc : list (string * value)) (s : string)
    : option (value * string) :=
  match fuel with
  | O => None
  | S fuel' =>
      match s with
      | EmptyString => None
      | String c r =>
          if Ascii.eqb c Py.dquote then
            match scan_string (String.length r) r with
            | Some (key, r1) =>
                match skip_ws r1 with
                | String ":" r2 =>
                    match decode_value fuel' (skip_ws r2) with
                    | Some (v, r3) =>
                        match skip_ws r3 with
                        | String "," r4 =>
                            decode_members fuel' (set key v acc) (skip_ws r4)
                        | String "}" rest =>
                            Some (JObject (set key v acc), rest)
                        | _ => None
                        end
                    | None => None
                    end
                | _ => None
                end
            | None => None
            end
          else None
      end
  end.

(** [json.loads(s)]: leading and trailing white space is allowed, anything
    else after the value is an error. *)
Definition decode (s : string) : option value :=
  match decode_value (2 * String.length s + 2) (skip_ws s) with
  | Some (v, r) =>
      match skip_ws r with
      | EmptyString => Some v
      | _ => None
      end
  | None => None
  end.

(** [repr] of integers, booleans and [None]; other values are only named. *)
Definition reference_repr (v : value) : string :=
  match v with
  | JNull => "None"
  | JBool true => "True"
  | JBool false => "False"
  | JInt z => NilZero.string_of_int (Z.to_int z)
  | JFloat _ => "<float>"
  | JString s => s
  | JArray _ => "<list>"
  | JObject _ => "<dict>"
  end.

(** [int] on a string of decimal digits with an optional sign. *)
Definition reference_int_of_str (s : string) : option Z :=
  match NilZero.int_of_string s with
  | Some i => Some (Z.of_int i)
  | None => None
  end.

#[global] Instance reference : Runtime := {
  loads := decode;
  repr := reference_repr;
  int_of_str := reference_int_of_str
}.

End Json.

(** ** The API client *)

Module APIClient.

(** *** The network, as seen by [_make_request]

    [requests.post] either raises or returns a response. The three handlers
    of the [try] distinguish a timeout, any other [RequestException], and any
    other exception. *)
Inductive failure :=
| Timeout
| RequestException (msg : string)
| OtherException (msg : string).

(** What [response.json()] followed by [result.get("result", "")] gives: the
    [result] entry of the decoded object when it has one, or an exception. *)
Inductive decoded :=
| ResultField (r : option string)
| DecodeRaises (f : failure).

Record response := mkResponse {
  status_code : Z;
  text : string;
  json : decoded
}.

Inductive post_outcome :=
| Raised (f : failure)
| Responded (r : response).

(** [last_error], before it is formatted into the final message. *)
Inductive error :=
| ServerError (status : Z)        (* f"Erreur serveur {status_code}" *)
| TimedOut                        (* "Délai d'attente dépassé" *)
| RequestFailed (msg : string)    (* f"Requête échouée: {e}" *)
| Unexpected (msg : string).      (* f"Erreur inattendue: {e}" *)

(** The returned text, by the [return] statement that produced it. *)
Inductive reply :=
| Result (payload : string)
    (* return result.get("result", "") *)
| ApiError (status : Z) (body : string)
    (* return f"Erreur API: {status_code} - {text[:100]}" *)
| GaveUp (retries : Z) (last_error : option error).
    (* return f"Requête échouée après {max_retries} tentatives: {last_error}" *)

(** The client's counter, with the calls to [time.sleep] (in seconds) and the
    outcomes of the calls to [requests.post] recorded in order. *)
Record client := mkClient {
  max_retries : Z;
  request_count : nat;
  slept : list Q;
  posted : list post_outcome
}.

Definition _exponential_backoff (attempt : Z) : Q :=
  let base_delay := 1.5%Q in
  (base_delay * inject_Z (2 ^ attempt))%Q.

Definition sleep (delay : Q) (c : client) : client :=
  mkClient (max_retries c) (request_count c) (slept c ++ [delay]) (posted c).

Definition count_request (c : client) : client :=
  mkClient (max_retries c) (S (request_count c)) (slept c) (posted c).

Definition record_post (o : post_outcome) (c : client) : client :=
  mkClient (max_retries c) (request_count c) (slept c) (posted c ++ [o]).

(** How one pass through the body of the [for] loop ends. *)
Inductive flow :=
| Return (r : reply)
| Next (last_error : option error)     (* [continue], or the end of the body *)
| Break (last_error : option error).

(** [if attempt < self.max_retries - 1: sleep(backoff(attempt)); continue];
    otherwise control leaves the handler and reaches the end of the body. *)
Definition retry_after (attempt : Z) (e : error) (c : client) : flow * client :=
  if attempt <? max_retries c - 1
  then (Next (Some e), sleep (_exponential_backoff attempt) c)
  else (Next (Some e), c).

Definition handle (attempt : Z) (f : failure) (c : client) : flow * client :=
  match f with
  | Timeout => retry_after attempt TimedOut c
  | RequestException msg => retry_after attempt (RequestFailed msg) c
  | OtherException msg => (Break (Some (Unexpected msg)), c)
  end.

Definition is_server_error (status : Z) : bool :=
  (status =? 500) || (status =? 502) || (status =? 503) || (status =? 504).

Definition attempt_body (outcome : post_outcome) (attempt : Z) (c : client)
    : flow * client :=
  let c := record_post outcome c in
  match outcome with
  | Raised f => handle attempt f c
  | Responded r =>
      let c := count_request c in
      if status_code r =? 200 then
        match json r with
        | ResultField (Some x) => (Return (Result x), c)
        | ResultField None => (Return (Result ""), c)
        | DecodeRaises f => handle attempt f c
        end
      else
        let api_error := ApiError (status_code r) (substring 0 100 (text r)) in
        if is_server_error (status_code r) then
          if attempt <? max_retries c - 1 then
            (Next (Some (ServerError (status_code r))),
             sleep (_exponential_backoff attempt) c)
          else (Return api_error, c)
        else (Return api_error, c)
  end.

(** [for attempt in range(self.max_retries)], with [remaining] iterations
    left; [network attempt] is what [requests.post] does on that attempt. *)
Fixpoint attempts (network : nat -> post_outcome) (remaining : nat)
    (attempt : nat) (last_error : option error) (c : client) : reply * client :=
  match remaining with
  | O => (GaveUp (max_retries c) last_error, c)
  | S remaining' =>
      match attempt_body (network attempt) (Z.of_nat attempt) c with
      | (Return r, c') => (r, c')
      | (Next e, c') => attempts network remaining' (S attempt) e c'
      | (Break e, c') => (GaveUp (max_retries c') e, c')
      end
  end.

Definition _make_request (network : nat -> post_outcome) (c : client)
    : reply * client :=
  attempts network (Z.to_nat (max_retries c)) 0 None c.

(** *** The response extractor *)

(** A value returned, or an exception that no handler of the extractor
    catches. *)
Inductive outcome (A : Type) :=
| Ret (a : A)
| Raise (exn : string).
Arguments Ret {A} a.
Arguments Raise {A} exn.

(** [int(x)] on a decoded value. *)
Inductive int_result :=
| IntOk (z : Z)
| IntCaught            (* ValueError or TypeError: the element is skipped *)
| IntOverflow.         (* OverflowError: not caught *)

(** What the body of the validation loop does with one element. *)
Inductive element_result :=
| Keep (s : section)
| Skip
| Overflow.

Section Extractor.
Context `{Json.Runtime}.

Definition _attempt_direct_parse (text : string) : option Json.value :=
  Json.loads text.

(** The three patterns of [_extract_from_code_blocks], compiled with
    [re.DOTALL | re.IGNORECASE]: a fence tagged [json], an untagged fence,
    and a single pair of backquotes, each around a group that starts with an
    opening brace, runs as short as possible, and ends with a closing brace. *)
Definition braces : Re.pattern :=
  [Re.Open; Re.One (Re.Char "{"); Re.Lazy Re.Any; Re.One (Re.Char "}"); Re.Close].

Definition fence_patterns : list Re.pattern :=
  [ Re.lit "```json" ++ [Re.Greedy Re.Whitespace] ++ braces
      ++ [Re.Greedy Re.Whitespace] ++ Re.lit "```";
    Re.lit "```" ++ [Re.Greedy Re.Whitespace] ++ braces
      ++ [Re.Greedy Re.Whitespace] ++ Re.lit "```";
    Re.lit "`" ++ braces ++ Re.lit "`" ].

(** [for match in matches: try: return json.loads(match) except: continue] *)
Fixpoint first_loadable (matches : list string) : option Json.value :=
  match matches with
  | [] => None
  | m :: rest =>
      match Json.loads m with
      | Some v => Some v
      | None => first_loadable rest
      end
  end.

Fixpoint first_in_patterns (patterns : list Re.pattern) (text : string)
    : option Json.value :=
  match patterns with
  | [] => None
  | p :: rest =>
      match first_loadable (Re.findall true p text) with
      | Some v => Some v
      | None => first_in_patterns rest text
      end
  end.

Definition _extract_from_code_blocks (text : string) : option Json.value :=
  first_in_patterns fence_patterns text.

(** The scan of [_extract_by_brackets] from [start_idx] on: [taken] holds,
    reversed, the characters read so far. *)
Fixpoint bracket_scan (s : string) (taken : list ascii) (bracket_count : Z)
    (in_string escape_next : bool) : option string :=
  match s with
  | EmptyString => None
  | String char r =>
      let taken' := char :: taken in
      if escape_next then bracket_scan r taken' bracket_count in_string false
      else if Ascii.eqb char "\" then
        bracket_scan r taken' bracket_count in_string true
      else if Ascii.eqb char Py.dquote then
        bracket_scan r taken' bracket_count (negb in_string) false
      else if negb in_string then
        if Ascii.eqb char "{" then
          bracket_scan r taken' (bracket_count + 1) in_string false
        else if Ascii.eqb char "}" then
          if bracket_count - 1 =? 0
          then Some (string_of_list_ascii (rev taken'))
          else bracket_scan r taken' (bracket_count - 1) in_string false
        else bracket_scan r taken' bracket_count in_string false
      else bracket_scan r taken' bracket_count in_string false
  end.

Definition _extract_by_brackets (text : string) : option Json.value :=
  match Py.from_first "{" text with
  | None => None
  | Some from_start =>
      match bracket_scan from_start [] 0 false false with
      | Some json_str => Json.loads json_str
      | None => None
      end
  end.

(** The five substitutions of [_attempt_recovery], in order: a comma before
    a closing brace, a comma before a closing bracket, a key in single
    quotes, a comment from two slashes to the end of the line, and a block comment. *)
Definition fixes : list (Re.pattern * list Re.piece) :=
  [ (Re.lit "," ++ [Re.Greedy Re.Whitespace] ++ Re.lit "}", [Re.Text "}"]);
    (Re.lit "," ++ [Re.Greedy Re.Whitespace] ++ Re.lit "]", [Re.Text "]"]);
    (Re.lit "'" ++ [Re.Open; Re.Greedy (Re.Except "'"); Re.Close] ++ Re.lit "':",
     [Re.Text (String Py.dquote EmptyString); Re.Group1;
      Re.Text (String Py.dquote ":")]);
    (Re.lit "//" ++ [Re.Lazy Re.Any] ++ Re.lit Py.newline, [Re.Text Py.newline]);
    (Re.lit "/*" ++ [Re.Lazy Re.Any] ++ Re.lit "*/", [Re.Text ""]) ].

Definition apply_fixes (text : string) : string :=
  fold_left (fun cleaned f => Re.sub (fst f) (snd f) cleaned) fixes text.

Definition _attempt_recovery (text : string) : option Json.value :=
  let cleaned := apply_fixes text in
  match Json.loads cleaned with
  | Some v => Some v
  | None => _extract_by_brackets cleaned
  end.

(** The integer part of a rational, rounded towards zero. *)
Definition truncate (q : Q) : Z := Z.quot (Qnum q) (Z.pos (Qden q)).

Definition py_int (v : Json.value) : int_result :=
  match v with
  | Json.JInt z => IntOk z
  | Json.JBool b => IntOk (if b then 1 else 0)
  | Json.JFloat (Json.Finite q) => IntOk (truncate q)
  | Json.JFloat (Json.Infinity _) => IntOverflow
  | Json.JFloat Json.NaN => IntCaught
  | Json.JString s =>
      match Json.int_of_str s with
      | Some z => IntOk z
      | None => IntCaught
      end
  | Json.JNull | Json.JArray _ | Json.JObject _ => IntCaught
  end.

(** [str(x)] on a decoded value. *)
Definition py_str (v : Json.value) : string :=
  match v with
  | Json.JString s => s
  | _ => Json.repr v
  end.

Definition validate_element (element : Json.value) : element_result :=
  match element with
  | Json.JObject entries =>
      match Json.get "name" entries, Json.get "startPage" entries,
            Json.get "endPage" entries with
      | Some n, Some sp, Some ep =>
          let name := py_str n in
          match py_int sp with
          | IntOverflow => Overflow
          | IntCaught => Skip
          | IntOk start_page =>
              match py_int ep with
              | IntOverflow => Overflow
              | IntCaught => Skip
              | IntOk end_page =>
                  if start_page <? 1 then Skip
                  else if end_page <? start_page then Skip
                  else Keep (mkSection name start_page end_page)
              end
          end
      | _, _, _ => Skip
      end
  | _ => Skip
  end.

Fixpoint validate_elements (elements : list Json.value)
    (validated_sections : list section) : outcome (list section) :=
  match elements with
  | [] => Ret validated_sections
  | element :: rest =>
      match validate_element element with
      | Keep s => validate_elements rest (validated_sections ++ [s])
      | Skip => validate_elements rest validated_sections
      | Overflow => Raise "OverflowError"
      end
  end.

(** [_validate_schema]: the list under ["sections"] of the returned dict, or
    [None]. *)
Definition _validate_schema (data : Json.value)
    : outcome (option (list section)) :=
  match data with
  | Json.JObject entries =>
      match Json.get "sections" entries with
      | Some (Json.JArray sections) =>
          match validate_elements sections [] with
          | Ret [] => Ret None
          | Ret validated_sections => Ret (Some validated_sections)
          | Raise e => Raise e
          end
      | _ => Ret None
      end
  | _ => Ret None
  end.

(** One stage of [parse_json_response]: [if candidate:] validate it, and
    [if validated:] return it; otherwise go on with [next]. *)
Definition stage (candidate : option Json.value)
    (next : outcome (option (list section)))
    : outcome (option (list section)) :=
  match candidate with
  | Some c =>
      if Json.truthy c then
        match _validate_schema c with
        | Ret (Some validated) => Ret (Some validated)
        | Ret None => next
        | Raise e => Raise e
        end
      else next
  | None => next
  end.

Definition parse_json_response (response_text : string)
    : outcome (option (list section)) :=
  if Py.is_blank response_text then Ret None
  else
    stage (_attempt_direct_parse response_text)
   (stage (_extract_from_code_blocks response_text)
   (stage (_extract_by_brackets response_text)
   (stage (_attempt_recovery response_text)
          (Ret None)))).

End Extractor.

End APIClient.

(** ** The structure resolver of the classifier *)

Module TextBasedClassifier.
Import APIClient.

(** The arguments of [_build_structure_prompt]: the text of the prompt is a
    function of them, of the prompt templates and of [SECTION_NAMES]. *)
Record prompt := mkPrompt {
  chunk_text : string;
  context_sections : list section;
  part_idx : nat;
  total_parts : nat;
  total_pages : Z
}.

Section Resolver.
Context `{Json.Runtime}.

(** [self.api_client.call_text_api(prompt, model)]: the text that comes
    back, which may depend on the prompts sent before. The call does not
    raise, see [_make_request]. *)
Variable call_text_api : list prompt -> prompt -> string.

(** [lines[start:end]] *)
Definition slice (lines : list string) (start stop : nat) : list string :=
  take (stop - start) (drop start lines).

(** The body of [for i in range(num_chunks)], over the indices still to be
    visited; [sent] lists the prompts sent so far. *)
Fixpoint chunk_loop (indices : list nat) (lines : list string)
    (chunk_size num_chunks : nat) (pages : Z)
    (current_sections : list section) (sent : list prompt)
    : outcome (option (list section)) * list prompt :=
  match indices with
  | [] =>
      let sections := SectionProcessor.fix_section_boundaries current_sections in
      (Ret (match sections with [] => None | _ => Some sections end), sent)
  | i :: rest =>
      let start := (i * chunk_size)%nat in
      let stop := Nat.min ((i + 1) * chunk_size) (length lines) in
      let chunk := Py.join (slice lines start stop) in
      if Py.is_blank chunk then
        chunk_loop rest lines chunk_size num_chunks pages current_sections sent
      else
        let p := mkPrompt chunk current_sections (i + 1) num_chunks pages in
        let response := call_text_api sent p in
        match parse_json_response response with
        | Ret (Some sections) =>
            chunk_loop rest lines chunk_size num_chunks pages sections
                       (sent ++ [p])
        | Ret None => (Ret None, sent ++ [p])
        | Raise e => (Raise e, sent ++ [p])
        end
  end.

Definition _extract_with_chunks (text : string) (num_chunks : nat) (pages : Z)
    (sent : list prompt) : outcome (option (list section)) * list prompt :=
  let lines := Py.splitlines text in
  let total_lines := length lines in
  let chunk_size := ((total_lines + num_chunks - 1) / num_chunks)%nat in
  chunk_loop (seq 0 num_chunks) lines chunk_size num_chunks pages [] sent.

Definition chunk_strategies : list nat := [1; 3; 5]%nat.

(** [for chunk_count in chunk_strategies], over the counts still to be
    tried. *)
Fixpoint strategy_loop (strategies : list nat) (aggregated_text : string)
    (pages : Z) (sent : list prompt) : outcome (list section) * list prompt :=
  match strategies with
  | [] => (Ret [], sent)
  | chunk_count :: rest =>
      match _extract_with_chunks aggregated_text chunk_count pages sent with
      | (Ret (Some identified_sections), sent') =>
          match identified_sections with
          | [] => strategy_loop rest aggregated_text pages sent'
          | _ => (Ret identified_sections, sent')
          end
      | (Ret None, sent') => strategy_loop rest aggregated_text pages sent'
      | (Raise e, sent') => (Raise e, sent')
      end
  end.

(** [_identify_structure], from the aggregated text on. *)
Definition _identify_structure (aggregated_text : string) (pages : Z)
    (sent : list prompt) : outcome (list section) * list prompt :=
  strategy_loop chunk_strategies aggregated_text pages sent.

End Resolver.

(** *** Batches of pages and the aggregated text *)

(** A batch dict. Page numbers count from 1. [text_result] is [None] until
    the batch has been processed. *)
Record batch := mkBatch {
  batch_num : nat;
  start_page : nat;
  end_page : nat;
  page_nums : list nat;
  grid_image_b64 : string;
  text_result : option string
}.

Section Batches.

(** [create_page_grid_b64(doc, page_indices)] of [image_utils]: the encoded
    grid image, or [None]. *)
Variable create_page_grid_b64 : list nat -> option string.

(** [list(range(i, min(i + self.batch_size, total_pages)))] *)
Definition batch_indices (i batch_size total_pages : nat) : list nat :=
  seq i (Nat.min (i + batch_size) total_pages - i).

(** The body of [for i in range(0, total_pages, self.batch_size)], over the
    values of [i] still to come. A grid that is [None] or the empty string
    is not true, and its batch is left out. *)
Fixpoint batch_loop (starts : list nat) (batch_size total_pages : nat)
    (batches : list batch) : list batch :=
  match starts with
  | [] => batches
  | i :: rest =>
      let indices := batch_indices i batch_size total_pages in
      match create_page_grid_b64 indices with
      | Some grid_b64 =>
          if String.eqb grid_b64 "" then
            batch_loop rest batch_size total_pages batches
          else
            batch_loop rest batch_size total_pages
              (batches ++ [mkBatch (length batches + 1)
                                   (hd 0%nat indices + 1)
                                   (List.last indices 0%nat + 1)
                                   (map (fun p => (p + 1)%nat) indices)
                                   grid_b64 None])
      | None => batch_loop rest batch_size total_pages batches
      end
  end.

(** [_create_batches]: [range] raises [ValueError] for a step of zero and is
    empty for a negative one. *)
Definition _create_batches (batch_size : Z) (total_pages : nat)
    : outcome (list batch) :=
  if batch_size =? 0 then Raise "ValueError"
  else if batch_size <? 0 then Ret []
  else
    let step := Z.to_nat batch_size in
    Ret (batch_loop (Py.range 0 total_pages step) step total_pages []).

End Batches.

(** ["=" * 50] *)
Definition separator : string := string_of_list_ascii (repeat "="%char 50).

(** [f"\n[Batch {batch_num}: Pages {start_page}-{end_page}]"] *)
Definition header (b : batch) : string :=
  Py.join [Py.newline; "[Batch "; Py.str_of_nat (batch_num b); ": Pages ";
           Py.str_of_nat (start_page b); "-"; Py.str_of_nat (end_page b); "]"].

(** The list [text_parts]; an item may be [None]. *)
Definition text_parts (batches : list batch) : list (option string) :=
  concat (map (fun b => [Some (header b); text_result b; Some separator])
              batches).

(** [_aggregate_batch_results]: [str.join] raises [TypeError] on an item that
    is not a string. *)
Definition _aggregate_batch_results (batches : list batch) : outcome string :=
  match mapM (fun x : option string => x) (text_parts batches) with
  | Some parts => Ret (Py.join_with Py.newline parts)
  | None => Raise "TypeError"
  end.

Section ResolverOfBatches.
Context `{Json.Runtime}.
Variable call_text_api : list prompt -> prompt -> string.

(** [_identify_structure], from the batches on. *)
Definition _identify_structure_of_batches (batches : list batch) (pages : Z)
    (sent : list prompt) : outcome (list section) * list prompt :=
  match _aggregate_batch_results batches with
  | Ret aggregated_text =>
      _identify_structure call_text_api aggregated_text pages sent
  | Raise e => (Raise e, sent)
  end.

End ResolverOfBatches.

End TextBasedClassifier.

(** ** The layout of the page grid *)

Module ImageUtils.

Definition grid_columns : Z := 2.
Definition thumbnail_dimensions : Z * Z := (600, 800).

(** [(len(page_thumbnails) + grid_columns - 1) // grid_columns] *)
Definition grid_rows (thumbnails : Z) : Z :=
  (thumbnails + grid_columns - 1) / grid_columns.

(** The size [(grid_width, grid_height)] of the composite image. *)
Definition grid_size (thumbnails : Z) : Z * Z :=
  (fst thumbnail_dimensions * grid_columns,
   snd thumbnail_dimensions * grid_rows thumbnails).

(** [(pos_x, pos_y)], where the thumbnail of index [idx] is pasted. *)
Definition cell_position (idx : Z) : Z * Z :=
  let col := idx mod grid_columns in
  let row := idx / grid_columns in
  (col * fst thumbnail_dimensions, row * snd thumbnail_dimensions).

(** The number written in the cell of index [idx]. *)
Definition page_label (idx : Z) : Z := idx + 1.

(** The corners [(label_x, label_y)] and
    [(label_x + label_size, label_y + label_size)] of the white box under
    the label. *)
Definition label_box (idx : Z) : (Z * Z) * (Z * Z) :=
  let '(pos_x, pos_y) := cell_position idx in
  let label_size := 85 in
  let label_margin := 10 in
  let label_x := pos_x + fst thumbnail_dimensions - label_size - label_margin in
  let label_y := pos_y + snd thumbnail_dimensions - label_size - label_margin in
  ((label_x, label_y), (label_x + label_size, label_y + label_size)).

End ImageUtils.

(** * Properties of the boundary reconciler *)

Section ReconcilerFacts.
Import SectionProcessor.

Lemma loop_body_length st :
  length (sorted_sections (loop_body st)) = length (sorted_sections st).
Proof.
  unfold loop_body.
  destruct (sorted_sections st !! idx st); [|done].
  destruct (S (idx st) <? length (sorted_sections st))%nat; [|done].
  destruct (sorted_sections st !! S (idx st)); [|done].
  destruct (endPage s >=? startPage s0); [|done].
  destruct (is_duplicate s s0); [done|].
  cbn. by rewrite length_insert.
Qed.

Lemma loop_body_idx st :
  (idx st < length (sorted_sections st))%nat ->
  idx (loop_body st) = S (idx st).
Proof.
  intros Hlt. unfold loop_body.
  destruct (lookup_lt_is_Some_2 _ _ Hlt) as [c ->].
  destruct (S (idx st) <? length (sorted_sections st))%nat; [|done].
  destruct (sorted_sections st !! S (idx st)); [|done].
  destruct (endPage c >=? startPage s); [|done].
  by destruct (is_duplicate c s).
Qed.

Lemma phaseA_loop_eq st :
  phaseA_loop st =
    if decide (idx st < length (sorted_sections st))%nat
    then phaseA_loop (loop_body st) else fixed_sections st.
Proof. rewrite phaseA_loop_equation_1. by destruct (decide _). Qed.

Lemma phaseA_loop_resolve n : forall st,
  (length (sorted_sections st) - idx st = n)%nat ->
  phaseA_loop st =
    fixed_sections st ++ resolve_overlaps (drop (idx st) (sorted_sections st)).
Proof.
  induction n as [|n IH]; intros [srt fixed i] Hn; cbn in Hn;
    rewrite phaseA_loop_eq; cbn [idx sorted_sections fixed_sections].
  - destruct (decide _) as [Hlt|_]; [lia|].
    rewrite drop_ge by lia. cbn. by rewrite app_nil_r.
  - destruct (decide _) as [Hlt|Hge]; [|lia].
    destruct (lookup_lt_is_Some_2 _ _ Hlt) as [current Hcur].
    rewrite (drop_S _ _ _ Hcur). cbn [resolve_overlaps].
    unfold loop_body; cbn [idx sorted_sections fixed_sections]. rewrite Hcur.
    destruct (S i <? length srt)%nat eqn:Hnext.
    + apply Nat.ltb_lt in Hnext.
      destruct (lookup_lt_is_Some_2 _ _ Hnext) as [next_section Hnxt].
      rewrite Hnxt, (drop_S _ _ _ Hnxt). cbn [resolve].
      destruct (endPage current >=? startPage next_section).
      * destruct (is_duplicate current next_section).
        -- rewrite IH by (cbn; lia). cbn [idx sorted_sections fixed_sections].
           by rewrite (drop_S _ _ _ Hnxt).
        -- rewrite IH by (cbn; rewrite length_insert; lia).
           cbn [idx sorted_sections fixed_sections].
           rewrite drop_insert_ge by lia. rewrite Nat.sub_diag.
           rewrite (drop_S _ _ _ Hnxt). cbn. by rewrite <- app_assoc.
      * rewrite IH by (cbn; lia). cbn [idx sorted_sections fixed_sections].
        rewrite (drop_S _ _ _ Hnxt). cbn. by rewrite <- app_assoc.
    + apply Nat.ltb_ge in Hnext.
      rewrite IH by (cbn; lia). cbn [idx sorted_sections fixed_sections].
      rewrite !drop_ge by lia. cbn. by rewrite <- app_assoc.
Qed.

Lemma phaseA_resolve sections :
  phaseA sections = resolve_overlaps (sorted sections).
Proof.
  unfold phaseA. by rewrite (phaseA_loop_resolve _ _ eq_refl).
Qed.

Lemma fix_section_boundaries_resolve sections :
  fix_section_boundaries sections
  = match sections with
    | [] => []
    | _ => phaseB (resolve_overlaps (sorted sections))
    end.
Proof. destruct sections; [done|]. unfold fix_section_boundaries. by rewrite phaseA_resolve. Qed.

(** The loop is evaluated through this equation, never by unfolding its
    well-founded recursion. *)
Opaque phaseA_loop.

Ltac run_fix := rewrite !fix_section_boundaries_resolve; vm_compute; reflexivity.

(** *** The sort: a stable permutation ordered by [startPage] *)

Definition ordered_by_start (l : list section) : Prop :=
  forall i a b, l !! i = Some a -> l !! S i = Some b -> startPage a <= startPage b.

Lemma insert_by_start_perm s l : insert_by_start s l ≡ₚ s :: l.
Proof.
  induction l as [|x r IH]; cbn; [done|].
  destruct (startPage s <=? startPage x); [done|].
  rewrite IH. apply Permutation_swap.
Qed.

Lemma sorted_perm l : sorted l ≡ₚ l.
Proof.
  induction l as [|s r IH]; cbn; [done|].
  by rewrite insert_by_start_perm, IH.
Qed.

Lemma sorted_length l : length (sorted l) = length l.
Proof. by rewrite sorted_perm. Qed.

Lemma ordered_cons a l :
  ordered_by_start (a :: l) <->
  (forall b, head l = Some b -> startPage a <= startPage b) /\ ordered_by_start l.
Proof.
  split.
  - intros H; split.
    + intros b Hb. apply (H 0%nat a b); [done|]. by destruct l; simplify_eq/=.
    + intros i x y Hx Hy. by apply (H (S i) x y).
  - intros [Hh Ht] [|i] x y Hx Hy; simplify_eq/=.
    + apply Hh. by destruct l; simplify_eq/=.
    + by apply (Ht i).
Qed.

Lemma insert_by_start_head s l b :
  head (insert_by_start s l) = Some b ->
  b = s \/ (head l = Some b /\ startPage b < startPage s).
Proof.
  destruct l as [|x r]; cbn; [naive_solver|].
  destruct (startPage s <=? startPage x) eqn:E; cbn; [naive_solver|].
  apply Z.leb_gt in E. naive_solver.
Qed.

Lemma insert_by_start_ordered s l :
  ordered_by_start l -> ordered_by_start (insert_by_start s l).
Proof.
  induction l as [|x r IH]; intros Hl; cbn.
  - by intros [|[|i]] a b.
  - destruct (startPage s <=? startPage x) eqn:E.
    + apply ordered_cons; split; [|done].
      intros b [= <-]. by apply Z.leb_le.
    + apply Z.leb_gt in E. apply ordered_cons in Hl as [Hh Ht].
      apply ordered_cons; split; [|by apply IH].
      intros b Hb. apply insert_by_start_head in Hb as [->|[Hb _]]; [lia|by apply Hh].
Qed.

Lemma sorted_ordered l : ordered_by_start (sorted l).
Proof.
  induction l as [|s r IH]; cbn.
  - by intros [|i] a b.
  - by apply insert_by_start_ordered.
Qed.

(** Stability: sections with the same [startPage] keep their input order. *)
Lemma insert_by_start_stable k s l :
  filter (fun x => startPage x = k) (insert_by_start s l)
  = filter (fun x => startPage x = k) (s :: l).
Proof.
  induction l as [|x r IH]; cbn; [done|].
  destruct (startPage s <=? startPage x) eqn:E; [done|].
  apply Z.leb_gt in E.
  rewrite filter_cons, IH, !filter_cons.
  repeat case_decide; try done; lia.
Qed.

Lemma sorted_stable k l :
  filter (fun x => startPage x = k) (sorted l)
  = filter (fun x => startPage x = k) l.
Proof.
  induction l as [|s r IH]; cbn; [done|].
  by rewrite insert_by_start_stable, !filter_cons, IH.
Qed.

(** An input that is already in order is left as it is by the sort. *)
Lemma sorted_id l : ordered_by_start l -> sorted l = l.
Proof.
  induction l as [|s r IH]; intros Hl; cbn; [done|].
  apply ordered_cons in Hl as [Hh Ht]. rewrite IH by done.
  destruct r as [|x r]; cbn; [done|].
  specialize (Hh x eq_refl). by apply Z.leb_le in Hh as ->.
Qed.

(** *** Phase A *)

Definition no_adjacent_overlap (l : list section) : Prop :=
  forall i current next_section,
    l !! i = Some current -> l !! S i = Some next_section ->
    ~ (endPage current >= startPage next_section).

Lemma resolve_head current rest :
  exists x l, resolve current rest = x :: l /\ startPage x = startPage current.
Proof.
  revert current; induction rest as [|n rest IH]; intros current; cbn.
  - by eexists _, _.
  - destruct (endPage current >=? startPage n); [|by eexists _, _].
    destruct (is_duplicate current n) eqn:D; [|by eexists _, _].
    destruct (IH n) as (x & l & -> & Hx). exists x, l. split; [done|].
    apply andb_prop in D as [D _]. apply Z.eqb_eq in D. lia.
Qed.

Lemma no_adjacent_overlap_cons a l :
  (forall b, head l = Some b -> endPage a < startPage b) ->
  no_adjacent_overlap l -> no_adjacent_overlap (a :: l).
Proof.
  intros Hh Ht [|i] x y Hx Hy; simplify_eq/=.
  - assert (endPage x < startPage y); [|lia].
    apply Hh. by destruct l; simplify_eq/=.
  - by apply (Ht i).
Qed.

Lemma resolve_no_adjacent_overlap rest : forall current,
  no_adjacent_overlap (resolve current rest).
Proof.
  induction rest as [|n rest IH]; intros current; cbn.
  - by intros [|i] a b.
  - destruct (endPage current >=? startPage n) eqn:E.
    + destruct (is_duplicate current n); [apply IH|].
      apply no_adjacent_overlap_cons; [|apply IH].
      intros b Hb.
      destruct (resolve_head (mkSection (name n) (midpoint current n + 1)
                                        (endPage n)) rest)
        as (x & l & Hr & Hx).
      rewrite Hr in Hb. cbn in Hb, Hx. injection Hb as <-. cbn. lia.
    + rewrite Z.geb_leb in E. apply Z.leb_gt in E.
      apply no_adjacent_overlap_cons; [|apply IH].
      intros b Hb. destruct (resolve_head n rest) as (x & l & Hr & Hx).
      rewrite Hr in Hb. cbn in Hb. injection Hb as <-. lia.
Qed.

(** C4. For every input list, whatever its page numbers, the list phase A
    hands to phase B has no section followed by one that starts at or before
    the page where it ends. *)
Theorem C4_phaseA_no_adjacent_overlap (sections : list section) :
  no_adjacent_overlap (phaseA sections).
Proof.
  rewrite phaseA_resolve.
  destruct (sorted sections) as [|current rest]; cbn.
  - by intros [|i] a b.
  - apply resolve_no_adjacent_overlap.
Qed.

(** The duplicate branch advances the index without appending: the section
    under the index is the one that disappears, and the following one is
    examined next. *)
Lemma loop_body_duplicate st current next_section :
  sorted_sections st !! idx st = Some current ->
  sorted_sections st !! S (idx st) = Some next_section ->
  endPage current >= startPage next_section ->
  startPage current = startPage next_section ->
  endPage current = endPage next_section ->
  loop_body st = mkLoop (sorted_sections st) (fixed_sections st) (S (idx st)).
Proof.
  intros Hc Hn Hov Hs He. unfold loop_body. rewrite Hc, Hn.
  apply lookup_lt_Some in Hn. apply Nat.ltb_lt in Hn as ->.
  assert ((endPage current >=? startPage next_section) = true) as ->
    by (rewrite Z.geb_leb; apply Z.leb_le; lia).
  unfold is_duplicate. by rewrite Hs, He, !Z.eqb_refl.
Qed.

(** C1. On the two sections A 1-10 and B 1-10 the reconciler returns one
    section spanning 1-10, and it is the later one, B: the duplicate branch
    skips the append of the earlier section. *)
Theorem C1_duplicate_pair_keeps_later :
  fix_section_boundaries [mkSection "A" 1 10; mkSection "B" 1 10]
  = [mkSection "B" 1 10].
Proof. run_fix. Qed.

(** *** The final output *)

(** Two sections overlap when some page lies in both inclusive intervals. *)
Definition pages_overlap (a b : section) : Prop :=
  exists p, (startPage a <= p <= endPage a) /\ (startPage b <= p <= endPage b).

Definition pairwise_disjoint (l : list section) : Prop :=
  forall i j a b, (i < j)%nat -> l !! i = Some a -> l !! j = Some b ->
    ~ pages_overlap a b.

(** C2. On the schema-valid input A 1-10, B 2-3, C 3-20, where B lies inside
    A, the reconciler returns A 1-6, B 7-3, C 4-20: the start pages 1, 7, 4
    are out of order, and A and C share the pages 4 to 6. *)
Theorem C2_nested_input_unsorted_and_overlapping :
  let input := [mkSection "A" 1 10; mkSection "B" 2 3; mkSection "C" 3 20] in
  let output := [mkSection "A" 1 6; mkSection "B" 7 3; mkSection "C" 4 20] in
  Forall schema_valid input
  /\ fix_section_boundaries input = output
  /\ ~ ordered_by_start output
  /\ ~ pairwise_disjoint output.
Proof.
  cbv zeta. split; [|split; [|split]].
  - repeat constructor; cbn; lia.
  - run_fix.
  - intros H. specialize (H 1%nat _ _ eq_refl eq_refl). cbn in H. lia.
  - intros H. apply (H 0%nat 2%nat _ _ ltac:(lia) eq_refl eq_refl).
    exists 4. cbn. lia.
Qed.

(** C3. On the same input a second application changes the list again: the
    first result A 1-6, B 7-3, C 4-20 is turned into A 1-5, C 6-13, B 14-3. *)
Theorem C3_second_application_changes_nested_input :
  let input := [mkSection "A" 1 10; mkSection "B" 2 3; mkSection "C" 3 20] in
  Forall schema_valid input
  /\ fix_section_boundaries (fix_section_boundaries input)
     = [mkSection "A" 1 5; mkSection "C" 6 13; mkSection "B" 14 3]
  /\ fix_section_boundaries (fix_section_boundaries input)
     <> fix_section_boundaries input.
Proof.
  cbv zeta. split; [|split].
  - repeat constructor; cbn; lia.
  - run_fix.
  - rewrite !fix_section_boundaries_resolve. vm_compute. discriminate.
Qed.

(** C5. When the section under the index ends at or after the start of the
    following one and the two do not have identical bounds, one iteration
    appends the current section with its end moved to the midpoint
    floor((current.endPage + next.startPage) / 2) and rewrites the following
    one to start one page later, both names kept; the overlapping pair
    A 1-10, B 8-20 becomes A 1-9, B 10-20. *)
Theorem C5_overlap_split_at_midpoint st current next_section :
  sorted_sections st !! idx st = Some current ->
  sorted_sections st !! S (idx st) = Some next_section ->
  endPage current >= startPage next_section ->
  ~ (startPage current = startPage next_section
     /\ endPage current = endPage next_section) ->
  exists m,
    (2 * m <= endPage current + startPage next_section < 2 * m + 2)
    /\ loop_body st =
         mkLoop (<[S (idx st) := mkSection (name next_section) (m + 1)
                                           (endPage next_section)]>
                   (sorted_sections st))
                (fixed_sections st
                   ++ [mkSection (name current) (startPage current) m])
                (S (idx st))
    /\ fix_section_boundaries [mkSection "A" 1 10; mkSection "B" 8 20]
       = [mkSection "A" 1 9; mkSection "B" 10 20].
Proof.
  intros Hc Hn Hov Hdup. exists (midpoint current next_section).
  split; [|split; [|run_fix]].
  - unfold midpoint.
    pose proof (Z.div_mod (endPage current + startPage next_section) 2).
    pose proof (Z.mod_pos_bound (endPage current + startPage next_section) 2).
    lia.
  - unfold loop_body. rewrite Hc, Hn.
    apply lookup_lt_Some in Hn. apply Nat.ltb_lt in Hn as ->.
    assert ((endPage current >=? startPage next_section) = true) as ->
      by (rewrite Z.geb_leb; apply Z.leb_le; lia).
    assert (is_duplicate current next_section = false) as ->; [|done].
    unfold is_duplicate. apply andb_false_iff.
    destruct (Z.eqb_spec (startPage current) (startPage next_section));
      destruct (Z.eqb_spec (endPage current) (endPage next_section)); tauto.
Qed.

Lemma C5_overlap_split_at_midpoint_witness :
  exists m,
    (2 * m <= 10 + 8 < 2 * m + 2)
    /\ loop_body (mkLoop [mkSection "A" 1 10; mkSection "B" 8 20] [] 0) =
         mkLoop [mkSection "A" 1 10; mkSection "B" (m + 1) 20]
                [mkSection "A" 1 m] 1
    /\ fix_section_boundaries [mkSection "A" 1 10; mkSection "B" 8 20]
       = [mkSection "A" 1 9; mkSection "B" 10 20].
Proof.
  exact (C5_overlap_split_at_midpoint
           (mkLoop [mkSection "A" 1 10; mkSection "B" 8 20] [] 0)
           (mkSection "A" 1 10) (mkSection "B" 8 20)
           eq_refl eq_refl ltac:(cbn; lia) ltac:(cbn; lia)).
Defined.

(** *** Phase B *)

Lemma phaseB_length fixed : length (phaseB fixed) = length fixed.
Proof. unfold phaseB. apply length_imap. Qed.

Lemma phaseB_lookup fixed i s :
  fixed !! i = Some s -> phaseB fixed !! i = Some (fill_gap fixed i s).
Proof. intros H. unfold phaseB. by rewrite list_lookup_imap, H. Qed.

(** The last section is never extended. *)
Lemma phaseB_last fixed i s :
  fixed !! i = Some s -> S i = length fixed -> phaseB fixed !! i = Some s.
Proof.
  intros H Hl. rewrite (phaseB_lookup _ _ _ H). unfold fill_gap.
  by rewrite <- Hl, Nat.ltb_irrefl.
Qed.

(** C6. In phase B a section followed by a gap of 1 to 5 pages is extended
    to the page before the following section; with any other gap, in
    particular one of more than 5 pages, it is left as it is. A 1-10 before
    B 16-30 becomes A 1-15, and before B 17-30 nothing changes. *)
Theorem C6_gap_fill fixed i current next_section :
  fixed !! i = Some current ->
  fixed !! S i = Some next_section ->
  let gap := startPage next_section - endPage current - 1 in
  (0 < gap <= 5 ->
     phaseB fixed !! i
     = Some (mkSection (name current) (startPage current)
                       (startPage next_section - 1)))
  /\ (gap > 5 -> phaseB fixed !! i = Some current)
  /\ (gap <= 0 -> phaseB fixed !! i = Some current)
  /\ fix_section_boundaries [mkSection "A" 1 10; mkSection "B" 16 30]
     = [mkSection "A" 1 15; mkSection "B" 16 30]
  /\ fix_section_boundaries [mkSection "A" 1 10; mkSection "B" 17 30]
     = [mkSection "A" 1 10; mkSection "B" 17 30].
Proof.
  intros Hc Hn. cbv zeta. rewrite (phaseB_lookup _ _ _ Hc). unfold fill_gap.
  rewrite Hn. apply lookup_lt_Some in Hn. apply Nat.ltb_lt in Hn as ->.
  set (gap := startPage next_section - endPage current - 1).
  repeat split; try run_fix; intros Hg.
  - assert ((0 <? gap) = true) as -> by (apply Z.ltb_lt; lia).
    by assert ((gap <=? 5) = true) as -> by (apply Z.leb_le; lia).
  - assert ((gap <=? 5) = false) as -> by (apply Z.leb_gt; lia).
    by rewrite andb_false_r.
  - by assert ((0 <? gap) = false) as -> by (apply Z.ltb_ge; lia).
Qed.

Lemma C6_gap_fill_witness :
  phaseB [mkSection "A" 1 10; mkSection "B" 16 30] !! 0%nat
  = Some (mkSection "A" 1 15)
  /\ phaseB [mkSection "A" 1 10; mkSection "B" 17 30] !! 0%nat
     = Some (mkSection "A" 1 10).
Proof.
  split.
  - exact (proj1 (C6_gap_fill [mkSection "A" 1 10; mkSection "B" 16 30] 0
                    (mkSection "A" 1 10) (mkSection "B" 16 30)
                    eq_refl eq_refl)
                 ltac:(cbn; lia)).
  - exact (proj1 (proj2 (C6_gap_fill
                           [mkSection "A" 1 10; mkSection "B" 17 30] 0
                           (mkSection "A" 1 10) (mkSection "B" 17 30)
                           eq_refl eq_refl))
                 ltac:(cbn; lia)).
Defined.

End ReconcilerFacts.
(** * Further properties of the boundary reconciler *)

Section ReconcilerInvariants.
Import SectionProcessor.

(** [adjacent R l]: every section of [l] is related by [R] to the one that
    follows it. *)
Definition adjacent (R : section -> section -> Prop) (l : list section) : Prop :=
  forall i a b, l !! i = Some a -> l !! S i = Some b -> R a b.

(** The following section starts on the very next page, or more than five
    pages are left between the two. *)
Definition settled (a b : section) : Prop :=
  startPage b = endPage a + 1 \/ startPage b > endPage a + 6.

Definition ends_before (a b : section) : Prop := endPage a < startPage b.

Lemma adjacent_nil R : adjacent R [].
Proof. by intros [|i] a b. Qed.

Lemma adjacent_singleton R x : adjacent R [x].
Proof. by intros [|[|i]] a b. Qed.

Lemma adjacent_cons R a l :
  adjacent R (a :: l) <->
  (forall b, head l = Some b -> R a b) /\ adjacent R l.
Proof.
  split.
  - intros H; split.
    + intros b Hb. apply (H 0%nat a b); [done|]. by destruct l; simplify_eq/=.
    + intros i x y Hx Hy. by apply (H (S i) x y).
  - intros [Hh Ht] [|i] x y Hx Hy; simplify_eq/=.
    + apply Hh. by destruct l; simplify_eq/=.
    + by apply (Ht i).
Qed.

Lemma adjacent_impl (R R' : section -> section -> Prop) l :
  (forall a b, R a b -> R' a b) -> adjacent R l -> adjacent R' l.
Proof. intros HR H i a b Ha Hb. apply HR. by apply (H i). Qed.

Lemma no_adjacent_overlap_ends_before l :
  no_adjacent_overlap l <-> adjacent ends_before l.
Proof.
  split; intros H i a b Ha Hb; specialize (H i a b Ha Hb);
    unfold ends_before in *; lia.
Qed.

(** *** Phase B touches end pages only *)

Lemma fill_gap_name fixed i s : name (fill_gap fixed i s) = name s.
Proof.
  unfold fill_gap. destruct (S i <? length fixed)%nat; [|done].
  destruct (fixed !! S i); [|done]. by destruct (_ && _).
Qed.

Lemma fill_gap_start fixed i s : startPage (fill_gap fixed i s) = startPage s.
Proof.
  unfold fill_gap. destruct (S i <? length fixed)%nat; [|done].
  destruct (fixed !! S i); [|done]. by destruct (_ && _).
Qed.

Lemma fill_gap_end fixed i s :
  endPage s <= endPage (fill_gap fixed i s) <= endPage s + 5.
Proof.
  unfold fill_gap. destruct (S i <? length fixed)%nat; [|lia].
  destruct (fixed !! S i) as [n|]; [|lia].
  destruct (0 <? startPage n - endPage s - 1) eqn:E1;
    destruct (startPage n - endPage s - 1 <=? 5) eqn:E2; cbn; lia.
Qed.

Lemma fill_gap_next fixed i s n :
  fixed !! S i = Some n ->
  endPage s < startPage n ->
  settled (fill_gap fixed i s) n /\ endPage (fill_gap fixed i s) < startPage n.
Proof.
  intros Hn Hlt. unfold fill_gap, settled. rewrite Hn.
  apply lookup_lt_Some in Hn. apply Nat.ltb_lt in Hn as ->.
  destruct (0 <? startPage n - endPage s - 1) eqn:E1;
    destruct (startPage n - endPage s - 1 <=? 5) eqn:E2; cbn;
    try apply Z.ltb_lt in E1; try apply Z.ltb_ge in E1;
    try apply Z.leb_le in E2; try apply Z.leb_gt in E2; lia.
Qed.

Lemma phaseB_lookup_inv fixed i s' :
  phaseB fixed !! i = Some s' ->
  exists s, fixed !! i = Some s /\ s' = fill_gap fixed i s.
Proof.
  unfold phaseB. rewrite list_lookup_imap.
  destruct (fixed !! i) as [s|]; [|done]. intros [= <-]. by exists s.
Qed.

Lemma phaseB_settled fixed :
  adjacent ends_before fixed ->
  adjacent (fun a b => ends_before a b /\ settled a b) (phaseB fixed).
Proof.
  intros H i a b Ha Hb.
  apply phaseB_lookup_inv in Ha as (a0 & Ha0 & ->).
  apply phaseB_lookup_inv in Hb as (b0 & Hb0 & ->).
  specialize (H i a0 b0 Ha0 Hb0). unfold ends_before in *.
  destruct (fill_gap_next fixed i a0 b0 Hb0 H) as [Hs Hlt].
  unfold settled in *. rewrite fill_gap_start. lia.
Qed.

Lemma phaseB_id fixed :
  adjacent settled fixed -> phaseB fixed = fixed.
Proof.
  intros H. apply list_eq. intros i. unfold phaseB. rewrite list_lookup_imap.
  destruct (fixed !! i) as [s|] eqn:Hs; [|done]. cbn. f_equal.
  unfold fill_gap. destruct (S i <? length fixed)%nat; [|done].
  destruct (fixed !! S i) as [n|] eqn:Hn; [|done].
  specialize (H i s n Hs Hn). unfold settled in H.
  destruct (0 <? startPage n - endPage s - 1) eqn:E1;
    destruct (startPage n - endPage s - 1 <=? 5) eqn:E2; cbn; try done.
  apply Z.ltb_lt in E1. apply Z.leb_le in E2. lia.
Qed.

(** *** Phase A on a list without overlap *)

Lemma resolve_id rest : forall current,
  adjacent ends_before (current :: rest) -> resolve current rest = current :: rest.
Proof.
  induction rest as [|n rest IH]; intros current H; cbn; [done|].
  apply adjacent_cons in H as [Hh Ht]. specialize (Hh n eq_refl).
  unfold ends_before in Hh.
  assert ((endPage current >=? startPage n) = false) as ->.
  { rewrite Z.geb_leb. apply Z.leb_gt. lia. }
  by rewrite IH.
Qed.

Lemma resolve_adjacent current rest :
  adjacent ends_before (resolve current rest).
Proof. apply no_adjacent_overlap_ends_before, resolve_no_adjacent_overlap. Qed.

Lemma resolve_overlaps_adjacent l : adjacent ends_before (resolve_overlaps l).
Proof. destruct l; [apply adjacent_nil|apply resolve_adjacent]. Qed.

Lemma fix_adjacent sections :
  adjacent (fun a b => ends_before a b /\ settled a b)
           (fix_section_boundaries sections).
Proof.
  rewrite fix_section_boundaries_resolve.
  destruct sections; [apply adjacent_nil|].
  apply phaseB_settled, resolve_overlaps_adjacent.
Qed.

Lemma fix_clean sections :
  ordered_by_start sections ->
  adjacent (fun a b => ends_before a b /\ settled a b) sections ->
  fix_section_boundaries sections = sections.
Proof.
  intros Ho Ha. rewrite fix_section_boundaries_resolve.
  destruct sections as [|s r]; [done|].
  rewrite sorted_id by done. cbn [resolve_overlaps].
  rewrite resolve_id by (eapply adjacent_impl; [|done]; by intros a b []).
  apply phaseB_id. eapply adjacent_impl; [|done]. by intros a b [].
Qed.

(** *** Names *)

Lemma resolve_names rest : forall current,
  sublist (map name (resolve current rest)) (map name (current :: rest)).
Proof.
  induction rest as [|n rest IH]; intros current; cbn; [done|].
  destruct (endPage current >=? startPage n).
  - destruct (is_duplicate current n).
    + apply sublist_cons, IH.
    + cbn. apply sublist_skip.
      apply (IH (mkSection (name n) (midpoint current n + 1) (endPage n))).
  - cbn. apply sublist_skip, IH.
Qed.

Lemma resolve_nonempty current rest : resolve current rest <> [].
Proof. destruct (resolve_head current rest) as (x & l & -> & _). done. Qed.

Lemma phaseB_names fixed : map name (phaseB fixed) = map name fixed.
Proof.
  apply list_eq. intros i. unfold phaseB.
  rewrite !list_lookup_fmap, list_lookup_imap.
  destruct (fixed !! i); cbn; [|done]. by rewrite fill_gap_name.
Qed.

(** The last section appended by the loop is the last of the sorted list,
    with its end page. *)
Lemma resolve_last rest : forall current,
  exists x,
    last (resolve current rest) = Some x
    /\ name <$> last (current :: rest) = Some (name x)
    /\ endPage <$> last (current :: rest) = Some (endPage x).
Proof.
  induction rest as [|n rest IH]; intros current; cbn [resolve].
  - by exists current.
  - destruct (endPage current >=? startPage n).
    + destruct (is_duplicate current n).
      * destruct (IH n) as (x & Hx & Hn & He). exists x. by rewrite last_cons_cons.
      * destruct (IH (mkSection (name n) (midpoint current n + 1) (endPage n)))
          as (x & Hx & Hn & He).
        pose proof (resolve_nonempty
                      (mkSection (name n) (midpoint current n + 1) (endPage n))
                      rest) as Hne.
        destruct (resolve _ rest) as [|y l] eqn:Hr; [done|].
        exists x. rewrite !last_cons_cons. split; [done|].
        destruct rest as [|r0 rest']; [|by rewrite !last_cons_cons in Hn, He |- *].
        cbn in Hn, He |- *. by rewrite <- Hn, <- He.
    + destruct (IH n) as (x & Hx & Hn & He).
      pose proof (resolve_nonempty n rest) as Hne.
      destruct (resolve n rest) as [|y l] eqn:Hr; [done|].
      exists x. by rewrite !last_cons_cons.
Qed.

Lemma phaseB_last_section fixed : last (phaseB fixed) = last fixed.
Proof.
  rewrite !last_lookup, phaseB_length.
  destruct fixed as [|s r] eqn:E; [done|]. rewrite <- E.
  assert (Hl : (S (pred (length fixed)) = length fixed)%nat) by (subst; cbn; lia).
  destruct (lookup_lt_is_Some_2 fixed (pred (length fixed)) ltac:(lia)) as [x Hx].
  rewrite Hx. by apply phaseB_last.
Qed.

(** *** Inputs in which a section overlaps its successor only *)

(** Each section starts no later than the next one, ends before the next one
    ends, and ends before the one after the next starts. *)
Fixpoint chained (l : list section) : Prop :=
  match l with
  | a :: r =>
      match r with
      | b :: r' =>
          startPage a <= startPage b /\ endPage a < endPage b
          /\ match r' with c :: _ => endPage a < startPage c | [] => True end
      | [] => True
      end /\ chained r
  | [] => True
  end.

Lemma midpoint_bounds current n :
  endPage current >= startPage n ->
  startPage n <= midpoint current n <= endPage current.
Proof.
  intros Hov. unfold midpoint.
  pose proof (Z.div_mod (endPage current + startPage n) 2).
  pose proof (Z.mod_pos_bound (endPage current + startPage n) 2).
  lia.
Qed.

Lemma resolve_chained_valid rest : forall current,
  schema_valid current -> Forall schema_valid rest ->
  chained (current :: rest) ->
  Forall schema_valid (resolve current rest).
Proof.
  induction rest as [|n rest IH]; intros current Hc Hr Hch; cbn [resolve].
  - by constructor.
  - apply Forall_cons in Hr as [Hn Hr].
    destruct Hch as [(Hs & He & H2) Hch'].
    unfold schema_valid in Hc, Hn.
    destruct (endPage current >=? startPage n) eqn:E.
    + rewrite Z.geb_leb in E. apply Z.leb_le in E.
      assert (is_duplicate current n = false) as ->.
      { unfold is_duplicate. apply andb_false_iff. right. apply Z.eqb_neq. lia. }
      pose proof (midpoint_bounds current n ltac:(lia)) as Hm.
      constructor; [unfold schema_valid; cbn; lia|].
      apply IH; [unfold schema_valid; cbn; lia|done|].
      destruct rest as [|b rest']; [done|].
      destruct Hch' as [(Hs' & He' & H2') Hch''].
      cbn in H2. split; [|done].
      split; [cbn; lia|]. split; [cbn; lia|].
      destruct rest' as [|c rest'']; [done|]. cbn. cbn in H2'. lia.
    + constructor; [done|]. by apply IH.
Qed.

Lemma phaseB_valid fixed :
  Forall schema_valid fixed -> Forall schema_valid (phaseB fixed).
Proof.
  rewrite !Forall_lookup. intros H i s' Hs'.
  apply phaseB_lookup_inv in Hs' as (s & Hs & ->).
  specialize (H i s Hs). unfold schema_valid in *.
  rewrite fill_gap_start. pose proof (fill_gap_end fixed i s). lia.
Qed.

Lemma ends_before_later a l :
  Forall (fun s => startPage s <= endPage s) l ->
  adjacent ends_before (a :: l) ->
  forall j b, l !! j = Some b -> endPage a < startPage b.
Proof.
  revert a. induction l as [|x l IH]; intros a Hv Ha j b Hb; [done|].
  apply Forall_cons in Hv as [Hx Hv].
  apply adjacent_cons in Ha as [Hh Ha]. specialize (Hh x eq_refl).
  unfold ends_before in Hh.
  destruct j as [|j]; cbn in Hb; [by injection Hb as <-|].
  specialize (IH x Hv Ha j b Hb). cbn in Hx. lia.
Qed.

Lemma valid_adjacent_ordered l :
  Forall (fun s => startPage s <= endPage s) l ->
  adjacent ends_before l -> ordered_by_start l.
Proof.
  intros Hv Ha i a b Hi Hj. specialize (Ha i a b Hi Hj).
  rewrite Forall_lookup in Hv. specialize (Hv i a Hi). cbn in Hv.
  unfold ends_before in Ha. lia.
Qed.

Lemma valid_adjacent_disjoint l :
  Forall (fun s => startPage s <= endPage s) l ->
  adjacent ends_before l -> pairwise_disjoint l.
Proof.
  induction l as [|x l IH]; intros Hv Ha i j a b Hij Hi Hj; [done|].
  pose proof Hv as Hv'. apply Forall_cons in Hv' as [Hx Hvl].
  destruct j as [|j]; [lia|]. cbn in Hj.
  destruct i as [|i]; cbn in Hi.
  - injection Hi as <-.
    pose proof (ends_before_later x l Hvl Ha j b Hj).
    intros (p & Hp1 & Hp2). lia.
  - apply adjacent_cons in Ha as [_ Ha].
    apply (IH Hvl Ha i j a b); [lia|done|done].
Qed.

Lemma schema_valid_interval l :
  Forall schema_valid l -> Forall (fun s => startPage s <= endPage s) l.
Proof. intros H. eapply Forall_impl; [done|]. by intros s []. Qed.

End ReconcilerInvariants.

Section ReconcilerProperties.
Import SectionProcessor.

(** X1. For every input list, each section of the result ends before the
    next one starts, and the next one starts either on the following page or
    more than five pages after a gap: no overlap and no gap of one to five
    pages is left between consecutive sections of the result. *)
Theorem fix_section_boundaries_adjacent_pages (sections : list section) :
  adjacent (fun a b => ends_before a b /\ settled a b)
           (fix_section_boundaries sections).
Proof.
  rewrite fix_section_boundaries_resolve.
  destruct sections; [apply adjacent_nil|].
  apply phaseB_settled, resolve_overlaps_adjacent.
Qed.

(** X2. A list that is in start-page order, in which every section ends
    before the next one starts and no gap of one to five pages separates two
    consecutive sections, is returned unchanged. *)
Theorem fix_section_boundaries_clean_input (sections : list section) :
  ordered_by_start sections ->
  adjacent (fun a b => ends_before a b /\ settled a b) sections ->
  fix_section_boundaries sections = sections.
Proof. apply fix_clean. Qed.

Lemma fix_section_boundaries_clean_input_witness :
  fix_section_boundaries
    [mkSection "A" 1 10; mkSection "B" 11 20; mkSection "C" 30 40]
  = [mkSection "A" 1 10; mkSection "B" 11 20; mkSection "C" 30 40].
Proof.
  apply fix_section_boundaries_clean_input.
  - intros [|[|[|i]]] a b Ha Hb; cbn in Ha, Hb; try discriminate;
      injection Ha as <-; injection Hb as <-; cbn; lia.
  - intros [|[|[|i]]] a b Ha Hb; cbn in Ha, Hb; try discriminate;
      injection Ha as <-; injection Hb as <-;
      unfold ends_before, settled; cbn; lia.
Defined.

(** X3. Whenever the result of a first application is in start-page order,
    a second application returns it unchanged. *)
Theorem fix_section_boundaries_twice (sections : list section) :
  ordered_by_start (fix_section_boundaries sections) ->
  fix_section_boundaries (fix_section_boundaries sections)
  = fix_section_boundaries sections.
Proof. intros Ho. apply fix_clean; [done|apply fix_adjacent]. Qed.

Lemma fix_section_boundaries_twice_witness :
  fix_section_boundaries
    (fix_section_boundaries [mkSection "A" 1 10; mkSection "B" 8 20])
  = fix_section_boundaries [mkSection "A" 1 10; mkSection "B" 8 20].
Proof.
  apply fix_section_boundaries_twice.
  rewrite fix_section_boundaries_resolve.
  intros [|[|i]] a b Ha Hb; vm_compute in Ha, Hb; try discriminate.
  injection Ha as <-; injection Hb as <-. cbn. lia.
Defined.

(** X4. When the schema-valid input, put in start-page order, is a chain in
    which every section ends before the next one ends and before the one
    after the next starts, every section of the result is schema-valid, the
    result is in start-page order, no two of its sections share a page, and
    a second application leaves it unchanged. *)
Theorem fix_section_boundaries_chained (sections : list section) :
  Forall schema_valid sections ->
  chained (sorted sections) ->
  let out := fix_section_boundaries sections in
  Forall schema_valid out
  /\ ordered_by_start out
  /\ pairwise_disjoint out
  /\ fix_section_boundaries out = out.
Proof.
  intros Hv Hch out.
  assert (Hout : Forall schema_valid out).
  { unfold out. rewrite fix_section_boundaries_resolve.
    destruct sections as [|s0 r0]; [done|].
    apply phaseB_valid.
    assert (Hvs : Forall schema_valid (sorted (s0 :: r0))).
    { by rewrite sorted_perm. }
    destruct (sorted (s0 :: r0)) as [|current rest]; [done|].
    apply Forall_cons in Hvs as [Hc Hr]. by apply resolve_chained_valid. }
  pose proof (fix_adjacent sections) as Hadj. fold out in Hadj.
  assert (Hends : adjacent ends_before out).
  { eapply adjacent_impl; [|done]. by intros a b []. }
  pose proof (valid_adjacent_ordered out (schema_valid_interval _ Hout) Hends)
    as Hord.
  split; [done|]. split; [done|]. split.
  - by apply valid_adjacent_disjoint; [apply schema_valid_interval|].
  - by apply fix_clean.
Qed.

Lemma fix_section_boundaries_chained_witness :
  let out :=
    fix_section_boundaries
      [mkSection "B" 8 20; mkSection "A" 1 10; mkSection "C" 18 30] in
  Forall schema_valid out
  /\ ordered_by_start out
  /\ pairwise_disjoint out
  /\ fix_section_boundaries out = out.
Proof.
  apply fix_section_boundaries_chained.
  - repeat constructor; cbn; lia.
  - cbn. lia.
Defined.

(** X5. The names of the result are names of the input, each used at most as
    often as it occurs there, so the result has no more sections than the
    input; and the result is empty only for the empty input. *)
Theorem fix_section_boundaries_names (sections : list section) :
  map name (fix_section_boundaries sections) ⊆+ map name sections
  /\ (length (fix_section_boundaries sections) <= length sections)%nat
  /\ (fix_section_boundaries sections = [] <-> sections = []).
Proof.
  assert (Hsub : map name (fix_section_boundaries sections)
                 ⊆+ map name sections).
  { rewrite fix_section_boundaries_resolve.
    destruct sections as [|s0 r0]; [done|].
    rewrite phaseB_names.
    rewrite <- (sorted_perm (s0 :: r0)) at 2.
    apply sublist_submseteq.
    destruct (sorted (s0 :: r0)) as [|current rest]; [done|].
    apply resolve_names. }
  split; [done|]. split.
  - apply submseteq_length in Hsub. by rewrite !length_map in Hsub.
  - split; [|by intros ->].
    rewrite fix_section_boundaries_resolve.
    destruct sections as [|s0 r0]; [done|]. intros Hnil.
    apply (f_equal length) in Hnil. rewrite phaseB_length in Hnil.
    pose proof (sorted_length (s0 :: r0)) as Hlen.
    destruct (sorted (s0 :: r0)) as [|current rest]; [done|].
    pose proof (resolve_nonempty current rest) as Hne.
    cbn [resolve_overlaps] in Hnil.
    destruct (resolve current rest); [done|discriminate].
Qed.

(** X6. The last section of the result has the name and the end page of the
    last section of the input in start-page order: the end of the last
    section is never moved. *)
Theorem fix_section_boundaries_last (sections : list section) :
  name <$> last (fix_section_boundaries sections)
  = name <$> last (sorted sections)
  /\ endPage <$> last (fix_section_boundaries sections)
     = endPage <$> last (sorted sections).
Proof.
  rewrite fix_section_boundaries_resolve.
  destruct sections as [|s0 r0]; [done|].
  rewrite phaseB_last_section.
  destruct (sorted (s0 :: r0)) as [|current rest]; [done|].
  cbn [resolve_overlaps].
  destruct (resolve_last rest current) as (x & -> & -> & ->). done.
Qed.

(** X7. Gap filling keeps every name and start page, never lowers an end
    page and raises it by at most five pages. *)
Theorem phaseB_extends_ends (fixed : list section) :
  Forall2 (fun s s' => name s' = name s
                       /\ startPage s' = startPage s
                       /\ endPage s <= endPage s' <= endPage s + 5)
          fixed (phaseB fixed).
Proof.
  apply Forall2_same_length_lookup_2; [by rewrite phaseB_length|].
  intros i s s' Hs Hs'.
  rewrite (phaseB_lookup _ _ _ Hs) in Hs'. injection Hs' as <-.
  split; [apply fill_gap_name|]. split; [apply fill_gap_start|].
  apply fill_gap_end.
Qed.

End ReconcilerProperties.
(** * Facts about strings *)

Section StringFacts.

Lemma append_nil_r s : String.append s EmptyString = s.
Proof. induction s as [|c s IH]; cbn; [done|]. by rewrite IH. Qed.

Lemma append_assoc s1 s2 s3 :
  String.append (String.append s1 s2) s3
  = String.append s1 (String.append s2 s3).
Proof. induction s1 as [|c s1 IH]; cbn; [done|]. by rewrite IH. Qed.

Lemma string_of_list_ascii_app l1 l2 :
  string_of_list_ascii (l1 ++ l2)
  = String.append (string_of_list_ascii l1) (string_of_list_ascii l2).
Proof. induction l1 as [|c l1 IH]; cbn; [done|]. by rewrite IH. Qed.

Lemma join_app l1 l2 :
  Py.join (l1 ++ l2) = String.append (Py.join l1) (Py.join l2).
Proof.
  induction l1 as [|s l1 IH]; cbn; [done|].
  fold (Py.join (l1 ++ l2)) (Py.join l1). by rewrite IH, append_assoc.
Qed.

Lemma lstrip_append s1 s2 :
  Py.is_blank s1 = true -> Py.lstrip (String.append s1 s2) = Py.lstrip s2.
Proof.
  unfold Py.is_blank. induction s1 as [|c s1 IH]; cbn; [done|].
  destruct (Py.is_space c); [done|discriminate].
Qed.

Lemma is_blank_append s1 s2 :
  Py.is_blank s1 = true -> Py.is_blank s2 = true ->
  Py.is_blank (String.append s1 s2) = true.
Proof.
  intros H1 H2. unfold Py.is_blank in *. by rewrite lstrip_append.
Qed.

Lemma is_blank_join parts :
  Forall (fun s => Py.is_blank s = true) parts ->
  Py.is_blank (Py.join parts) = true.
Proof.
  induction 1 as [|s parts Hs _ IH]; cbn; [done|]. by apply is_blank_append.
Qed.

Lemma close_cons l x :
  string_of_list_ascii (rev (x :: l))
  = String.append (string_of_list_ascii (rev l)) (String x EmptyString).
Proof. cbn [rev]. by rewrite string_of_list_ascii_app. Qed.

(** Joining the lines of a text gives the text back. *)
Lemma join_splitlines_from n : forall s line,
  (String.length s <= n)%nat ->
  Py.join (Py.splitlines_from line s)
  = String.append (string_of_list_ascii (rev line)) s.
Proof.
  assert (Hjoin : forall x l, Py.join (x :: l) = String.append x (Py.join l))
    by done.
  induction n as [|n IH]; intros [|c r] line Hn; cbn in Hn; try lia.
  - destruct line; reflexivity.
  - destruct line; reflexivity.
  - cbn [Py.splitlines_from]. cbv zeta.
    destruct (Py.is_linebreak c).
    + destruct (Py.code c =? 13)%N.
      * destruct r as [|d r'].
        -- rewrite Hjoin, close_cons. apply append_nil_r.
        -- destruct (Py.code d =? 10)%N; rewrite Hjoin, IH by (cbn in Hn |- *; lia).
           ++ rewrite ?close_cons, ?append_assoc. reflexivity.
           ++ rewrite ?close_cons, ?append_assoc. reflexivity.
      * rewrite Hjoin, IH by lia. rewrite ?close_cons, ?append_assoc. reflexivity.
    + rewrite IH by lia. rewrite ?close_cons, ?append_assoc. reflexivity.
Qed.

Lemma join_splitlines s : Py.join (Py.splitlines s) = s.
Proof. unfold Py.splitlines. by rewrite (join_splitlines_from _ s [] (le_n _)). Qed.

End StringFacts.

(** * Properties of the transport client *)

Section TransportFacts.
Import APIClient.

Definition responded (o : post_outcome) : bool :=
  match o with Responded _ => true | Raised _ => false end.

(** The attempts, among those made, on which [requests.post] returned a
    response. *)
Definition count_responses (made : list post_outcome) : nat :=
  length (List.filter responded made).

Lemma count_responses_app l1 l2 :
  count_responses (l1 ++ l2) = (count_responses l1 + count_responses l2)%nat.
Proof. unfold count_responses. by rewrite List.filter_app, length_app. Qed.

(** One pass through the loop body makes one call to [requests.post] and
    adds one to the counter exactly when that call returned a response,
    whatever its status. *)
Lemma attempt_body_effect outcome attempt c :
  let c' := snd (attempt_body outcome attempt c) in
  max_retries c' = max_retries c
  /\ posted c' = posted c ++ [outcome]
  /\ request_count c' = (request_count c + count_responses [outcome])%nat.
Proof.
  unfold attempt_body, handle, retry_after.
  destruct outcome as [[]|[status body [[]|[]]]]; cbn;
    repeat match goal with |- context [if ?b then _ else _] => destruct b end;
    cbn; repeat split; lia.
Qed.

Lemma attempts_effect network remaining : forall attempt last_error c,
  let c' := snd (attempts network remaining attempt last_error c) in
  exists made,
    made = map network (seq attempt (length made))
    /\ (length made <= remaining)%nat
    /\ max_retries c' = max_retries c
    /\ posted c' = posted c ++ made
    /\ request_count c' = (request_count c + count_responses made)%nat.
Proof.
  induction remaining as [|remaining IH]; intros attempt last_error c; cbn.
  - exists []. cbn. rewrite app_nil_r. repeat split; lia.
  - pose proof (attempt_body_effect (network attempt) (Z.of_nat attempt) c)
      as (Hm & Hp & Hc).
    destruct (attempt_body (network attempt) (Z.of_nat attempt) c)
      as [[r|e|e] c1]; cbn [snd] in Hm, Hp, Hc |- *.
    + exists [network attempt]. cbn [length seq map]. repeat split; auto; lia.
    + destruct (IH (S attempt) e c1) as (made & Hmade & Hlen & Hm' & Hp' & Hc').
      exists (network attempt :: made).
      pose proof (count_responses_app [network attempt] made) as Happ.
      cbn [app] in Happ.
      rewrite Hm', Hp', Hc', Hm, Hp, Hc, <- app_assoc, Happ.
      cbn [length seq map app]. rewrite <- Hmade.
      repeat split; auto; lia.
    + exists [network attempt]. cbn [length seq map]. repeat split; auto; lia.
Qed.

(** C10. A send operation makes some attempts, at most [max_retries], each
    one call to [requests.post]; afterwards the counter has grown by the
    number of those attempts that received a response, of whatever status,
    and not by those that ended in a timeout or a connection failure. With
    one timeout followed by a 200 response, two attempts raise the counter
    by one. *)
Theorem C10_counter_counts_responses :
  (forall network c,
     let c' := snd (_make_request network c) in
     exists made,
       made = map network (seq 0 (length made))
       /\ (length made <= Z.to_nat (max_retries c))%nat
       /\ posted c' = posted c ++ made
       /\ request_count c' = (request_count c + count_responses made)%nat)
  /\ (forall attempt c r,
        request_count (snd (attempt_body (Responded r) attempt c))
        = S (request_count c))
  /\ (forall attempt c msg,
        request_count (snd (attempt_body (Raised Timeout) attempt c))
        = request_count c
        /\ request_count
             (snd (attempt_body (Raised (RequestException msg)) attempt c))
           = request_count c)
  /\ (let network := fun attempt =>
        match attempt with
        | O => Raised Timeout
        | _ => Responded (mkResponse 200 "" (ResultField (Some "ok")))
        end in
      let c' := snd (_make_request network (mkClient 3 0 [] [])) in
      length (posted c') = 2%nat /\ request_count c' = 1%nat).
Proof.
  split; [|split; [|split]].
  - intros network c. unfold _make_request.
    destruct (attempts_effect network (Z.to_nat (max_retries c)) 0%nat None c)
      as (made & Hmade & Hlen & _ & Hp & Hc).
    by exists made.
  - intros attempt c r.
    pose proof (attempt_body_effect (Responded r) attempt c) as (_ & _ & Hc).
    change (count_responses [Responded r]) with 1%nat in Hc. lia.
  - intros attempt c msg. split.
    + pose proof (attempt_body_effect (Raised Timeout) attempt c) as (_ & _ & Hc).
      change (count_responses [Raised Timeout]) with 0%nat in Hc. lia.
    + pose proof (attempt_body_effect (Raised (RequestException msg)) attempt c)
        as (_ & _ & Hc).
      change (count_responses [Raised (RequestException msg)]) with 0%nat in Hc.
      lia.
  - vm_compute. done.
Qed.

(** The delay doubles with each attempt, starting from a second and a half. *)
Lemma exponential_backoff_values :
  (_exponential_backoff 0 == 3 # 2)%Q
  /\ (_exponential_backoff 1 == 3)%Q
  /\ (_exponential_backoff 2 == 6)%Q.
Proof. by vm_compute. Qed.

Lemma exponential_backoff_double k :
  0 <= k -> (_exponential_backoff (k + 1) == 2 * _exponential_backoff k)%Q.
Proof.
  intros Hk. unfold _exponential_backoff. cbv zeta.
  rewrite Z.pow_add_r, Z.pow_1_r by lia.
  rewrite inject_Z_mult. ring.
Qed.

(** A 500, 502, 503 or 504 response before the last attempt: count it, sleep,
    and go round again. *)
Lemma attempt_body_server_error status t j attempt c :
  is_server_error status = true ->
  attempt < max_retries c - 1 ->
  attempt_body (Responded (mkResponse status t j)) attempt c
  = (Next (Some (ServerError status)),
     sleep (_exponential_backoff attempt)
       (count_request
          (record_post (Responded (mkResponse status t j)) c))).
Proof.
  intros Hs Ha. unfold attempt_body. cbn [status_code json text].
  assert ((status =? 200) = false) as ->.
  { apply Z.eqb_neq. intros ->. discriminate. }
  rewrite Hs. cbn [count_request record_post max_retries].
  by apply Z.ltb_lt in Ha as ->.
Qed.

(** A 200 response ends the loop with the [result] entry of its body. *)
Lemma attempt_body_success t r attempt c :
  attempt_body (Responded (mkResponse 200 t (ResultField r))) attempt c
  = (Return (Result (default "" r)),
     count_request
       (record_post (Responded (mkResponse 200 t (ResultField r))) c)).
Proof. unfold attempt_body. cbn [status_code json]. by destruct r. Qed.

(** C7. With [max_retries = 3], two 503 responses followed by a 200 response
    end the send operation on the third attempt: it returns the [result]
    entry of the decoded body (the empty string when there is none), the
    counter has grown by 3, and the client has slept twice, for
    [_exponential_backoff 0] = 1.5 s after the first attempt and
    [_exponential_backoff 1] = 3 s after the second, and not after the third. *)
Theorem C7_two_503_then_200 network c t0 j0 t1 j1 t2 r :
  max_retries c = 3 ->
  network 0%nat = Responded (mkResponse 503 t0 j0) ->
  network 1%nat = Responded (mkResponse 503 t1 j1) ->
  network 2%nat = Responded (mkResponse 200 t2 (ResultField r)) ->
  let (answer, c') := _make_request network c in
  answer = Result (default "" r)
  /\ posted c' = posted c ++ [network 0%nat; network 1%nat; network 2%nat]
  /\ request_count c' = (request_count c + 3)%nat
  /\ slept c' = slept c ++ [_exponential_backoff 0; _exponential_backoff 1]
  /\ (_exponential_backoff 0 == 3 # 2)%Q
  /\ (_exponential_backoff 1 == 3)%Q.
Proof.
  intros Hmax H0 H1 H2. unfold _make_request. rewrite Hmax.
  change (Z.to_nat 3) with 3%nat. cbn [attempts].
  rewrite H0, attempt_body_server_error by (done || lia).
  rewrite H1, attempt_body_server_error by (done || (cbn; lia)).
  rewrite H2, attempt_body_success.
  cbn [sleep count_request record_post max_retries request_count slept posted].
  rewrite <- !app_assoc. cbn [app].
  split; [done|]. split; [done|]. split; [lia|]. split; [done|].
  split; by vm_compute.
Qed.

Lemma C7_two_503_then_200_witness :
  let network := fun attempt =>
    match attempt with
    | 2%nat => Responded (mkResponse 200 "{}" (ResultField (Some "done")))
    | _ => Responded (mkResponse 503 "busy" (DecodeRaises Timeout))
    end in
  let (answer, c') := _make_request network (mkClient 3 0 [] []) in
  answer = Result "done"
  /\ posted c' = [network 0%nat; network 1%nat; network 2%nat]
  /\ request_count c' = 3%nat
  /\ slept c' = [_exponential_backoff 0; _exponential_backoff 1]
  /\ (_exponential_backoff 0 == 3 # 2)%Q
  /\ (_exponential_backoff 1 == 3)%Q.
Proof.
  exact (C7_two_503_then_200
           (fun attempt =>
              match attempt with
              | 2%nat => Responded (mkResponse 200 "{}" (ResultField (Some "done")))
              | _ => Responded (mkResponse 503 "busy" (DecodeRaises Timeout))
              end)
           (mkClient 3 0 [] []) "busy" (DecodeRaises Timeout)
           "busy" (DecodeRaises Timeout) "{}" (Some "done")
           eq_refl eq_refl eq_refl eq_refl).
Defined.

End TransportFacts.
(** * Further properties of the transport client *)

Section TransportInvariants.
Import APIClient.

(** A failure after which the loop goes round again: a timeout or another
    [RequestException]. *)
Definition transient (f : failure) : bool :=
  match f with
  | Timeout | RequestException _ => true
  | OtherException _ => false
  end.

Definition error_of (f : failure) : error :=
  match f with
  | Timeout => TimedOut
  | RequestException msg => RequestFailed msg
  | OtherException msg => Unexpected msg
  end.

(** An attempt after which another one is made when one is left: the call or
    the decoding of a 200 response raised a transient failure, or the
    response has one of the statuses 500, 502, 503 and 504. *)
Definition retryable (o : post_outcome) : bool :=
  match o with
  | Raised f => transient f
  | Responded r =>
      if status_code r =? 200 then
        match json r with
        | DecodeRaises f => transient f
        | ResultField _ => false
        end
      else is_server_error (status_code r)
  end.

(** The delays after the attempts [attempt], [attempt + 1], ... *)
Definition backoffs (attempt j : nat) : list Q :=
  map (fun k => _exponential_backoff (Z.of_nat k)) (seq attempt j).

Definition total (delays : list Q) : Q := fold_right Qplus 0%Q delays.

(** The client after the attempts [attempt], ..., [attempt + j - 1], each
    followed by its delay. *)
Definition after_retries (network : nat -> post_outcome) (attempt j : nat)
    (c : client) : client :=
  mkClient (max_retries c)
           (request_count c + count_responses (map network (seq attempt j)))
           (slept c ++ backoffs attempt j)
           (posted c ++ map network (seq attempt j)).

Lemma after_retries_0 network attempt c : after_retries network attempt 0 c = c.
Proof.
  destruct c. unfold after_retries, backoffs, count_responses. cbn.
  by rewrite !app_nil_r, Nat.add_0_r.
Qed.

Lemma after_retries_S network attempt j c :
  after_retries network (S attempt) j
    (after_retries network attempt 1 c)
  = after_retries network attempt (S j) c.
Proof.
  unfold after_retries, backoffs. cbn [max_retries request_count slept posted].
  cbn [seq map]. rewrite <- !app_assoc. cbn [app].
  pose proof (count_responses_app [network attempt]
                (map network (seq (S attempt) j))) as Happ.
  cbn [app] in Happ. rewrite Happ. f_equal. lia.
Qed.

Lemma handle_transient f attempt c :
  transient f = true ->
  handle attempt f c
  = (Next (Some (error_of f)),
     if attempt <? max_retries c - 1
     then sleep (_exponential_backoff attempt) c else c).
Proof.
  intros Ht. destruct f; try discriminate; cbn; unfold retry_after;
    by destruct (attempt <? max_retries c - 1).
Qed.

(** A retryable attempt that is not the last one: record it, count it when a
    response came back, sleep, and go round again. *)
Lemma attempt_body_retryable network attempt c :
  retryable (network attempt) = true ->
  Z.of_nat attempt < max_retries c - 1 ->
  exists e,
    attempt_body (network attempt) (Z.of_nat attempt) c
    = (Next (Some e), after_retries network attempt 1 c).
Proof.
  intros Hr Hlt. apply Z.ltb_lt in Hlt.
  unfold after_retries, backoffs, attempt_body. cbn [seq map].
  destruct (network attempt) as [f|r]; cbn [retryable] in Hr.
  - rewrite handle_transient by done. cbn [record_post max_retries].
    rewrite Hlt. exists (error_of f). unfold sleep, count_responses. cbn.
    by rewrite Nat.add_0_r.
  - destruct (status_code r =? 200) eqn:E200.
    + destruct (json r) as [x|f]; [discriminate|].
      rewrite handle_transient by done.
      cbn [count_request record_post max_retries].
      rewrite Hlt. exists (error_of f). unfold sleep, count_responses. cbn.
      do 2 f_equal. lia.
    + rewrite Hr. cbn [count_request record_post max_retries]. rewrite Hlt.
      exists (ServerError (status_code r)). unfold sleep, count_responses. cbn.
      do 2 f_equal. lia.
Qed.

(** After [j] retryable attempts, with more than [j] attempts allowed, the
    loop is at attempt [j] with the [j] delays slept. *)
Lemma attempts_retryable_prefix network j :
  forall remaining attempt last_error c,
  (j < remaining)%nat ->
  Z.of_nat (attempt + remaining) = max_retries c ->
  (forall k, (k < j)%nat -> retryable (network (attempt + k)%nat) = true) ->
  exists e,
    attempts network remaining attempt last_error c
    = attempts network (remaining - j) (attempt + j) e
               (after_retries network attempt j c).
Proof.
  induction j as [|j IH]; intros remaining attempt last_error c Hj Hmax Hre.
  - exists last_error. by rewrite after_retries_0, Nat.sub_0_r, Nat.add_0_r.
  - destruct remaining as [|remaining]; [lia|]. cbn [attempts].
    destruct (attempt_body_retryable network attempt c) as (e & ->).
    { rewrite <- (Nat.add_0_r attempt). apply Hre. lia. }
    { lia. }
    destruct (IH remaining (S attempt) (Some e)
                 (after_retries network attempt 1 c)) as (e' & ->).
    { lia. }
    { cbn [after_retries max_retries]. lia. }
    { intros k Hk. replace (S attempt + k)%nat with (attempt + S k)%nat by lia.
      apply Hre. lia. }
    exists e'. rewrite after_retries_S.
    by replace (S attempt + j)%nat with (attempt + S j)%nat by lia.
Qed.

Lemma make_request_retryable_prefix network j c :
  (Z.of_nat j < max_retries c) ->
  (forall k, (k < j)%nat -> retryable (network k) = true) ->
  exists e,
    _make_request network c
    = attempts network (Z.to_nat (max_retries c) - j) j e
               (after_retries network 0 j c).
Proof.
  intros Hj Hre. unfold _make_request.
  destruct (attempts_retryable_prefix network j (Z.to_nat (max_retries c))
              0%nat None c) as (e & He); [lia|lia|done|].
  by exists e.
Qed.

(** Only a pass that goes round again sleeps, and only when it is not the
    last one. *)
Lemma attempt_body_slept o attempt c :
  match attempt_body o attempt c with
  | (Next _, c1) =>
      slept c1 = if attempt <? max_retries c - 1
                 then slept c ++ [_exponential_backoff attempt] else slept c
  | (_, c1) => slept c1 = slept c
  end.
Proof.
  unfold attempt_body, handle, retry_after.
  destruct o as [[]|[status body [[]|[]]]]; cbn;
    repeat match goal with |- context [if ?b then _ else _] => destruct b end;
    cbn; done.
Qed.

(** The delays slept by one send operation, by the number of attempts it
    makes. *)
Lemma attempts_sleeps network remaining : forall attempt last_error c,
  Z.of_nat (attempt + remaining) = max_retries c ->
  let c' := snd (attempts network remaining attempt last_error c) in
  exists made,
    (made <= remaining)%nat
    /\ (0 < remaining -> 0 < made)%nat
    /\ posted c' = posted c ++ map network (seq attempt made)
    /\ slept c' = slept c ++ backoffs attempt (made - 1).
Proof.
  induction remaining as [|remaining IH]; intros attempt last_error c Hmax;
    cbn [attempts].
  - exists 0%nat. cbn. rewrite !app_nil_r. repeat split; lia.
  - pose proof (attempt_body_effect (network attempt) (Z.of_nat attempt) c)
      as (Hm & Hp & _).
    pose proof (attempt_body_slept (network attempt) (Z.of_nat attempt) c) as Hs.
    destruct (attempt_body (network attempt) (Z.of_nat attempt) c)
      as [[r|e|e] c1]; cbn [snd] in Hm, Hp, Hs |- *.
    + exists 1%nat. cbn. rewrite app_nil_r. repeat split; try done; lia.
    + destruct (IH (S attempt) e c1) as (made & Hle & Hpos & Hp' & Hs').
      { rewrite Hm. lia. }
      exists (S made). rewrite Hp', Hs', Hp, <- app_assoc.
      split; [lia|]. split; [lia|]. split; [done|].
      destruct remaining as [|remaining].
      * assert (made = 0)%nat as -> by lia.
        assert ((Z.of_nat attempt <? max_retries c - 1) = false) as E
          by (apply Z.ltb_ge; lia).
        rewrite E in Hs. rewrite Hs. cbn. by rewrite !app_nil_r.
      * assert ((Z.of_nat attempt <? max_retries c - 1) = true) as E
          by (apply Z.ltb_lt; lia).
        rewrite E in Hs. rewrite Hs, <- app_assoc.
        destruct made as [|made]; [lia|].
        cbn [Nat.sub]. rewrite Nat.sub_0_r. by cbn.
    + exists 1%nat. cbn. rewrite app_nil_r. repeat split; try done; lia.
Qed.

Lemma total_snoc l x : (total (l ++ [x]) == total l + x)%Q.
Proof.
  unfold total. induction l as [|y l IHl]; cbn [app fold_right]; [ring|].
  rewrite IHl. ring.
Qed.

(** The delays add up to a second and a half times [2 ^ j - 1]. *)
Lemma total_backoffs j :
  (total (backoffs 0 j) == (3 # 2) * (inject_Z (2 ^ Z.of_nat j) - 1))%Q.
Proof.
  induction j as [|j IH]; [by vm_compute|].
  unfold backoffs in *. rewrite seq_S, map_app. cbn [map Nat.add].
  rewrite total_snoc, IH. unfold _exponential_backoff. cbv zeta.
  rewrite Nat2Z.inj_succ, Z.pow_succ_r by lia.
  rewrite inject_Z_mult.
  change (inject_Z 2) with 2%Q.
  ring.
Qed.

(** Where a reply other than the failure message comes from. *)
Definition origin (answer : reply) (o : post_outcome) : Prop :=
  match answer with
  | Result payload =>
      exists r x, o = Responded r /\ status_code r = 200
                  /\ json r = ResultField x /\ payload = default "" x
  | ApiError status body =>
      exists r, o = Responded r /\ status_code r = status /\ status <> 200
                /\ body = substring 0 100 (text r)
  | GaveUp _ _ => False
  end.

Lemma attempt_body_return o attempt c answer c1 :
  attempt_body o attempt c = (Return answer, c1) -> origin answer o.
Proof.
  unfold attempt_body, handle, retry_after.
  destruct o as [[]|[status body [[x|]|[]]]]; cbn;
    repeat match goal with
           | |- context [if ?b then _ else _] => destruct b eqn:?
           end;
    intros Heq; try discriminate; injection Heq as <- <-; cbn;
    try (eexists _, _; repeat split; try done; by apply Z.eqb_eq);
    try (eexists; repeat split; try done; by apply Z.eqb_neq).
Qed.

Lemma attempts_origin network remaining : forall attempt last_error c,
  let (answer, c') := attempts network remaining attempt last_error c in
  match answer with
  | GaveUp retries _ => retries = max_retries c
  | _ => exists o, last (posted c') = Some o /\ origin answer o
  end.
Proof.
  induction remaining as [|remaining IH]; intros attempt last_error c;
    cbn [attempts]; [done|].
  pose proof (attempt_body_effect (network attempt) (Z.of_nat attempt) c)
    as (Hm & Hp & _).
  pose proof (attempt_body_return (network attempt) (Z.of_nat attempt) c) as Hr.
  destruct (attempt_body (network attempt) (Z.of_nat attempt) c)
    as [[answer|e|e] c1]; cbn [snd] in Hm, Hp.
  - specialize (Hr answer c1 eq_refl).
    destruct answer; [| |done];
      exists (network attempt); by rewrite Hp, last_snoc.
  - specialize (IH (S attempt) e c1). rewrite Hm in IH. exact IH.
  - done.
Qed.

End TransportInvariants.

Section TransportProperties.
Import APIClient.

(** The client after a send operation that made [made] attempts: every
    attempt recorded, those with a response counted, and a delay slept after
    each attempt but the last. *)
Definition after_attempts (network : nat -> post_outcome) (made : nat)
    (c : client) : client :=
  mkClient (max_retries c)
           (request_count c + count_responses (map network (seq 0 made)))
           (slept c ++ backoffs 0 (made - 1))
           (posted c ++ map network (seq 0 made)).

Lemma after_last_attempt network j c o :
  network j = o ->
  mkClient (max_retries c)
           (request_count (after_retries network 0 j c) + count_responses [o])
           (slept (after_retries network 0 j c))
           (posted (after_retries network 0 j c) ++ [o])
  = after_attempts network (S j) c.
Proof.
  intros <-. unfold after_attempts, after_retries.
  cbn [max_retries request_count slept posted].
  rewrite seq_S, map_app, count_responses_app, <- app_assoc. cbn [map Nat.add].
  f_equal; [lia|]. cbn [Nat.sub]. by rewrite Nat.sub_0_r.
Qed.

Lemma attempts_step network remaining attempt last_error c :
  attempts network (S remaining) attempt last_error c
  = match attempt_body (network attempt) (Z.of_nat attempt) c with
    | (Return r, c') => (r, c')
    | (Next e, c') => attempts network remaining (S attempt) e c'
    | (Break e, c') => (GaveUp (max_retries c') e, c')
    end.
Proof. done. Qed.

(** The state in which attempt [j] is made after [j] retryable attempts. *)
Lemma make_request_at network j c :
  Z.of_nat j < max_retries c ->
  (forall k, (k < j)%nat -> retryable (network k) = true) ->
  exists e remaining,
    Z.of_nat (j + S remaining) = max_retries c
    /\ _make_request network c
       = attempts network (S remaining) j e (after_retries network 0 j c).
Proof.
  intros Hj Hre.
  destruct (make_request_retryable_prefix network j c Hj Hre) as (e & ->).
  exists e, (Z.to_nat (max_retries c) - j - 1)%nat. split; [lia|].
  f_equal. lia.
Qed.

(** X8. In one send operation the client sleeps after each attempt but the
    last one it makes, for [_exponential_backoff 0], [_exponential_backoff 1],
    ... in this order: after [made] attempts, at most [max_retries], the
    delays add up to 1.5 * (2 ^ (made - 1) - 1) seconds. *)
Theorem make_request_sleep_schedule (network : nat -> post_outcome) (c : client) :
  let c' := snd (_make_request network c) in
  exists made,
    (made <= Z.to_nat (max_retries c))%nat
    /\ posted c' = posted c ++ map network (seq 0 made)
    /\ slept c' = slept c ++ backoffs 0 (made - 1)
    /\ (total (backoffs 0 (made - 1))
        == (3 # 2) * (inject_Z (2 ^ Z.of_nat (made - 1)) - 1))%Q.
Proof.
  cbv zeta. unfold _make_request.
  destruct (Z.le_gt_cases 0 (max_retries c)) as [Hpos|Hneg].
  - destruct (attempts_sleeps network (Z.to_nat (max_retries c)) 0%nat None c)
      as (made & Hle & _ & Hp & Hs); [lia|].
    exists made. repeat split; try done. apply total_backoffs.
  - assert (Z.to_nat (max_retries c) = 0%nat) as -> by lia.
    exists 0%nat. cbn. rewrite !app_nil_r. repeat split; done.
Qed.

(** X9. After [j] retryable attempts (timeouts, other request errors, or
    responses with status 500, 502, 503 or 504), with [j] less than
    [max_retries], a 200 response ends the send operation with the [result]
    entry of its body, or the empty string when the body has none; [j + 1]
    attempts were made and [j] delays slept. *)
Theorem make_request_success_after_retries
    (network : nat -> post_outcome) (c : client) (j : nat) t x :
  Z.of_nat j < max_retries c ->
  (forall k, (k < j)%nat -> retryable (network k) = true) ->
  network j = Responded (mkResponse 200 t (ResultField x)) ->
  _make_request network c
  = (Result (default "" x), after_attempts network (S j) c).
Proof.
  intros Hj Hre Hnet.
  destruct (make_request_at network j c Hj Hre) as (e & remaining & _ & ->).
  rewrite attempts_step, Hnet, attempt_body_success, <- Hnet.
  f_equal. unfold count_request, record_post.
  cbn [max_retries request_count slept posted].
  rewrite <- (after_last_attempt network j c (network j) eq_refl).
  rewrite Hnet. unfold count_responses. cbn. f_equal. lia.
Qed.

Lemma make_request_success_after_retries_witness :
  let network := fun attempt =>
    match attempt with
    | O => Raised Timeout
    | 1%nat => Responded (mkResponse 502 "bad gateway" (ResultField None))
    | _ => Responded (mkResponse 200 "{}" (ResultField (Some "done")))
    end in
  _make_request network (mkClient 3 0 [] [])
  = (Result "done", after_attempts network 3 (mkClient 3 0 [] [])).
Proof.
  intros network.
  apply (make_request_success_after_retries network (mkClient 3 0 [] [])
           2%nat "{}" (Some "done")).
  - cbn. lia.
  - intros [|[|k]] Hk; [reflexivity|reflexivity|lia].
  - reflexivity.
Defined.

(** X10. After [j] retryable attempts, a response whose status is neither
    200 nor one of 500, 502, 503 and 504 ends the send operation at once:
    the reply carries the status and the first 100 characters of the body,
    and no further attempt or delay follows. *)
Theorem make_request_client_error
    (network : nat -> post_outcome) (c : client) (j : nat) (r : response) :
  Z.of_nat j < max_retries c ->
  (forall k, (k < j)%nat -> retryable (network k) = true) ->
  network j = Responded r ->
  status_code r <> 200 ->
  is_server_error (status_code r) = false ->
  _make_request network c
  = (ApiError (status_code r) (substring 0 100 (text r)),
     after_attempts network (S j) c).
Proof.
  intros Hj Hre Hnet H200 Hserver.
  destruct (make_request_at network j c Hj Hre) as (e & remaining & _ & ->).
  rewrite attempts_step, Hnet. unfold attempt_body.
  apply Z.eqb_neq in H200. rewrite H200, Hserver.
  f_equal. unfold count_request, record_post.
  cbn [max_retries request_count slept posted].
  rewrite <- (after_last_attempt network j c (Responded r) Hnet).
  unfold count_responses. cbn. f_equal. lia.
Qed.

Lemma make_request_client_error_witness :
  let network := fun attempt =>
    match attempt with
    | O => Responded (mkResponse 503 "busy" (ResultField None))
    | _ => Responded (mkResponse 404 "not found" (ResultField None))
    end in
  _make_request network (mkClient 3 0 [] [])
  = (ApiError 404 "not found", after_attempts network 2 (mkClient 3 0 [] [])).
Proof.
  intros network.
  apply (make_request_client_error network (mkClient 3 0 [] []) 1%nat
           (mkResponse 404 "not found" (ResultField None))).
  - cbn. lia.
  - intros [|k] Hk; [reflexivity|lia].
  - reflexivity.
  - cbn. lia.
  - reflexivity.
Defined.

(** X11. An exception of [requests.post] that is neither a timeout nor
    another [RequestException] breaks the loop: even with attempts left, no
    further attempt is made and no delay slept, and the reply is the failure
    message with that exception as the last error. *)
Theorem make_request_unexpected_exception
    (network : nat -> post_outcome) (c : client) (j : nat) (msg : string) :
  Z.of_nat j < max_retries c ->
  (forall k, (k < j)%nat -> retryable (network k) = true) ->
  network j = Raised (OtherException msg) ->
  _make_request network c
  = (GaveUp (max_retries c) (Some (Unexpected msg)),
     after_attempts network (S j) c).
Proof.
  intros Hj Hre Hnet.
  destruct (make_request_at network j c Hj Hre) as (e & remaining & _ & ->).
  rewrite attempts_step, Hnet. unfold attempt_body, handle.
  cbn [record_post max_retries after_retries].
  f_equal.
  rewrite <- (after_last_attempt network j c (Raised (OtherException msg)) Hnet).
  unfold record_post, after_retries, count_responses. cbn. f_equal. lia.
Qed.

Lemma make_request_unexpected_exception_witness :
  let network := fun _ : nat => Raised (OtherException "boom") in
  _make_request network (mkClient 3 0 [] [])
  = (GaveUp 3 (Some (Unexpected "boom")),
     after_attempts network 1 (mkClient 3 0 [] [])).
Proof.
  intros network.
  apply (make_request_unexpected_exception network (mkClient 3 0 [] []) 0%nat
           "boom").
  - cbn. lia.
  - intros k Hk. lia.
  - reflexivity.
Defined.

(** X12. When every one of the [max_retries] attempts ends in a timeout or
    another request error, the reply is the failure message with the error
    of the last attempt; all attempts were made, a delay was slept after each
    but the last, and the request counter has not moved. *)
Theorem make_request_all_attempts_raise
    (network : nat -> post_outcome) (c : client) (n : nat) (f : failure) :
  max_retries c = Z.of_nat (S n) ->
  (forall k, (k <= n)%nat ->
     exists g, network k = Raised g /\ transient g = true) ->
  network n = Raised f ->
  _make_request network c
  = (GaveUp (max_retries c) (Some (error_of f)),
     after_attempts network (S n) c)
  /\ request_count (after_attempts network (S n) c) = request_count c.
Proof.
  intros Hmax Hall Hnet.
  assert (Hre : forall k, (k < n)%nat -> retryable (network k) = true).
  { intros k Hk. destruct (Hall k ltac:(lia)) as (g & -> & Hg). done. }
  destruct (Hall n ltac:(lia)) as (g & Hg & Ht).
  assert (g = f) as -> by congruence.
  split.
  - destruct (make_request_at network n c ltac:(lia) Hre)
      as (e & remaining & Hrem & ->).
    assert (remaining = 0)%nat as -> by lia.
    rewrite attempts_step, Hnet. unfold attempt_body.
    rewrite handle_transient by done.
    cbn [record_post max_retries after_retries].
    assert ((Z.of_nat n <? max_retries c - 1) = false) as ->
      by (apply Z.ltb_ge; lia).
    cbn [attempts max_retries]. f_equal.
    rewrite <- (after_last_attempt network n c (Raised f) Hnet).
    unfold record_post, after_retries, count_responses. cbn. f_equal. lia.
  - unfold after_attempts. cbn [request_count].
    assert (count_responses (map network (seq 0 (S n))) = 0%nat) as ->; [|lia].
    unfold count_responses.
    assert (Hnone : forall l, (forall k, In k l -> (k <= n)%nat) ->
              List.filter responded (map network l) = []).
    { induction l as [|k l IH]; intros Hl; [done|]. cbn [map List.filter].
      destruct (Hall k (Hl k (or_introl eq_refl))) as (g & -> & _). cbn.
      apply IH. intros k' Hk'. apply Hl. by right. }
    rewrite Hnone; [done|]. intros k Hk. apply in_seq in Hk. lia.
Qed.

Lemma make_request_all_attempts_raise_witness :
  let network := fun _ : nat => Raised Timeout in
  _make_request network (mkClient 3 7 [] [])
  = (GaveUp 3 (Some TimedOut), after_attempts network 3 (mkClient 3 7 [] []))
  /\ request_count (after_attempts network 3 (mkClient 3 7 [] [])) = 7%nat.
Proof.
  intros network.
  apply (make_request_all_attempts_raise network (mkClient 3 7 [] []) 2%nat
           Timeout).
  - reflexivity.
  - intros k Hk. by exists Timeout.
  - reflexivity.
Defined.

(** X13. When every one of the [max_retries] attempts is retryable and the
    last one is a response with status 500, 502, 503 or 504, the reply is
    the API error of that last response, not the failure message; the
    counter has grown by the number of responses. *)
Theorem make_request_server_error_on_last_attempt
    (network : nat -> post_outcome) (c : client) (n : nat) (r : response) :
  max_retries c = Z.of_nat (S n) ->
  (forall k, (k < n)%nat -> retryable (network k) = true) ->
  network n = Responded r ->
  is_server_error (status_code r) = true ->
  _make_request network c
  = (ApiError (status_code r) (substring 0 100 (text r)),
     after_attempts network (S n) c).
Proof.
  intros Hmax Hre Hnet Hserver.
  destruct (make_request_at network n c ltac:(lia) Hre)
    as (e & remaining & Hrem & ->).
  rewrite attempts_step, Hnet. unfold attempt_body.
  assert ((status_code r =? 200) = false) as ->.
  { apply Z.eqb_neq. intros E. rewrite E in Hserver. discriminate. }
  rewrite Hserver.
  cbn [count_request record_post max_retries after_retries].
  assert ((Z.of_nat n <? max_retries c - 1) = false) as ->
    by (apply Z.ltb_ge; lia).
  f_equal.
  rewrite <- (after_last_attempt network n c (Responded r) Hnet).
  unfold count_request, record_post, after_retries, count_responses. cbn.
  f_equal. lia.
Qed.

Lemma make_request_server_error_on_last_attempt_witness :
  let network := fun _ : nat =>
    Responded (mkResponse 503 "busy" (ResultField None)) in
  _make_request network (mkClient 3 0 [] [])
  = (ApiError 503 "busy", after_attempts network 3 (mkClient 3 0 [] [])).
Proof.
  intros network.
  apply (make_request_server_error_on_last_attempt network
           (mkClient 3 0 [] []) 2%nat
           (mkResponse 503 "busy" (ResultField None))).
  - reflexivity.
  - intros k Hk. reflexivity.
  - reflexivity.
  - reflexivity.
Defined.

(** X14. With [max_retries] zero or negative no request is made: the client
    is left as it was and the reply is the failure message with no error. *)
Theorem make_request_no_attempts (network : nat -> post_outcome) (c : client) :
  max_retries c <= 0 ->
  _make_request network c = (GaveUp (max_retries c) None, c).
Proof.
  intros Hmax. unfold _make_request.
  by assert (Z.to_nat (max_retries c) = 0%nat) as -> by lia.
Qed.

Lemma make_request_no_attempts_witness :
  _make_request (fun _ => Raised Timeout) (mkClient 0 0 [] [])
  = (GaveUp 0 None, mkClient 0 0 [] []).
Proof.
  apply (make_request_no_attempts (fun _ => Raised Timeout) (mkClient 0 0 [] [])).
  cbn. lia.
Defined.

(** X15. A reply that carries a result comes from a response with status
    200, the last one received, and is the [result] entry of its body or the
    empty string; an API error reply carries the status, other than 200, and
    the first 100 characters of the last response received; any other reply
    is the failure message, which names [max_retries]. *)
Theorem make_request_reply_origin (network : nat -> post_outcome) (c : client) :
  let (answer, c') := _make_request network c in
  match answer with
  | GaveUp retries _ => retries = max_retries c
  | _ => exists o, last (posted c') = Some o /\ origin answer o
  end.
Proof. apply attempts_origin. Qed.

End TransportProperties.
(** * Properties of the response extractor *)

Section RegexFacts.

Fixpoint all_chars (P : ascii -> bool) (s : string) : bool :=
  match s with
  | EmptyString => true
  | String c r => P c && all_chars P r
  end.

Definition not_backquote (c : ascii) : bool := negb (Ascii.eqb c "`").

(** The first character of [s] that is not a space, if there is one, is not
    a backquote. *)
Fixpoint no_fence_ahead (s : string) : bool :=
  match s with
  | EmptyString => true
  | String c r => if Py.is_space c then no_fence_ahead r else not_backquote c
  end.

Definition starts_without_space (s : string) : bool :=
  match s with
  | EmptyString => true
  | String c _ => negb (Py.is_space c)
  end.

Lemma all_chars_app P s1 s2 :
  all_chars P (String.append s1 s2) = all_chars P s1 && all_chars P s2.
Proof.
  induction s1 as [|c s1 IH]; cbn; [done|]. by rewrite IH, andb_assoc.
Qed.

Lemma length_append s1 s2 :
  String.length (String.append s1 s2)
  = (String.length s1 + String.length s2)%nat.
Proof. induction s1 as [|c s1 IH]; cbn; [done|]. by rewrite IH. Qed.

Lemma accepts_self ic c : Re.accepts ic (Re.Char c) c = true.
Proof. cbn. destruct ic; apply Ascii.eqb_refl. Qed.

(** Under [re.IGNORECASE] too, only a backquote matches a backquote. *)
Lemma accepts_backquote ic c :
  Re.accepts ic (Re.Char "`") c = true -> c = "`"%char.
Proof.
  destruct ic; cbn.
  - destruct c as [[] [] [] [] [] [] [] []]; vm_compute; congruence.
  - apply Ascii.eqb_eq.
Qed.

Lemma space_not_backquote c : Py.is_space c = true -> not_backquote c = true.
Proof. destruct c as [[] [] [] [] [] [] [] []]; vm_compute; congruence. Qed.

Lemma run_lit ic t : forall p s pos g,
  Re.run ic (Re.lit t ++ p) (String.append t s) pos g
  = Re.run ic p s (pos + String.length t) g.
Proof.
  induction t as [|c t IH]; intros p s pos g; cbn [Re.lit app String.append].
  - cbn. by rewrite Nat.add_0_r.
  - cbn [Re.run]. rewrite accepts_self, IH. cbn [String.length]. f_equal. lia.
Qed.

Lemma run_one ic a p c r pos g :
  Re.run ic (Re.One a :: p) (String c r) pos g
  = if Re.accepts ic a c then Re.run ic p r (S pos) g else None.
Proof. done. Qed.

Lemma run_open ic p s pos g :
  Re.run ic (Re.Open :: p) s pos g = Re.run ic p s pos (pos, snd g).
Proof. done. Qed.

Lemma run_close ic p s pos g :
  Re.run ic (Re.Close :: p) s pos g = Re.run ic p s pos (fst g, pos).
Proof. done. Qed.

Lemma run_greedy_unfold ic a p s pos g :
  Re.run ic (Re.Greedy a :: p) s pos g
  = match s with
    | String c r =>
        if Re.accepts ic a c then
          match Re.run ic (Re.Greedy a :: p) r (S pos) g with
          | Some m => Some m
          | None => Re.run ic p s pos g
          end
        else Re.run ic p s pos g
    | EmptyString => Re.run ic p s pos g
    end.
Proof. by destruct s. Qed.

Lemma run_lazy_unfold ic a p s pos g :
  Re.run ic (Re.Lazy a :: p) s pos g
  = match Re.run ic p s pos g with
    | Some m => Some m
    | None =>
        match s with
        | String c r =>
            if Re.accepts ic a c
            then Re.run ic (Re.Lazy a :: p) r (S pos) g else None
        | EmptyString => None
        end
    end.
Proof. by destruct s. Qed.

(** A greedy run of spaces in front of something that is not a space takes
    all of them, when the rest of the pattern matches from there. *)
Lemma run_greedy_space ic p w : forall s pos g m,
  all_chars Py.is_space w = true ->
  starts_without_space s = true ->
  Re.run ic p s (pos + String.length w) g = Some m ->
  Re.run ic (Re.Greedy Re.Whitespace :: p) (String.append w s) pos g = Some m.
Proof.
  induction w as [|x w IH]; intros s pos g m Hw Hs Hm;
    rewrite run_greedy_unfold.
  - cbn [String.append String.length] in *. rewrite Nat.add_0_r in Hm.
    destruct s as [|c r]; [done|].
    cbn in Hs. apply negb_true_iff in Hs. cbn [Re.accepts]. by rewrite Hs.
  - cbn in Hw. apply andb_prop in Hw as [Hx Hw].
    cbn [String.append Re.accepts]. rewrite Hx.
    rewrite (IH s (S pos) g m); [done|done|done|].
    rewrite <- Hm. f_equal. cbn. lia.
Qed.

(** A greedy run of spaces followed by a backquote fails when the first
    character after the spaces is not a backquote. *)
Lemma run_greedy_space_fail ic q s : forall pos g,
  no_fence_ahead s = true ->
  Re.run ic (Re.Greedy Re.Whitespace :: Re.One (Re.Char "`") :: q) s pos g
  = None.
Proof.
  induction s as [|c r IH]; intros pos g Hs; rewrite run_greedy_unfold.
  - done.
  - cbn [no_fence_ahead] in Hs. cbn [Re.accepts].
    assert (Hc : Re.run ic (Re.One (Re.Char "`") :: q) (String c r) pos g = None).
    { cbn [Re.run]. destruct (Re.accepts ic (Re.Char "`") c) eqn:E; [|done].
      apply accepts_backquote in E as ->. by vm_compute in Hs. }
    destruct (Py.is_space c); [|done]. by rewrite IH.
Qed.

(** A lazy run of arbitrary characters stops at the first place from which
    the rest of the pattern matches. *)
Lemma run_lazy_any ic K u : forall s pos g m,
  (forall u1 x u2, u = String.append u1 (String x u2) ->
     Re.run ic K (String x (String.append u2 s)) (pos + String.length u1) g
     = None) ->
  Re.run ic K s (pos + String.length u) g = Some m ->
  Re.run ic (Re.Lazy Re.Any :: K) (String.append u s) pos g = Some m.
Proof.
  induction u as [|x u IH]; intros s pos g m Hfail Hm;
    rewrite run_lazy_unfold; cbn [String.append String.length] in *.
  - rewrite Nat.add_0_r in Hm. by rewrite Hm.
  - pose proof (Hfail EmptyString x u eq_refl) as H0.
    cbn [String.length] in H0. rewrite Nat.add_0_r in H0. rewrite H0.
    cbn [Re.accepts]. apply IH.
    + intros u1 y u2 ->.
      pose proof (Hfail (String x u1) y u2 eq_refl) as H1.
      cbn [String.length] in H1. rewrite <- H1. f_equal. lia.
    + rewrite <- Hm. f_equal. lia.
Qed.

End RegexFacts.

(** What a stage contributes: its candidate, when there is one and it is
    true, goes through validation. *)
Definition yields `{Json.Runtime} (candidate : option Json.value)
    : APIClient.outcome (option (list section)) :=
  match candidate with
  | Some c =>
      if Json.truthy c then APIClient._validate_schema c else APIClient.Ret None
  | None => APIClient.Ret None
  end.

Section ExtractorFacts.
Import APIClient.
Context `{Json.Runtime}.

Lemma stage_yields candidate next :
  stage candidate next
  = match yields candidate with
    | Ret (Some validated) => Ret (Some validated)
    | Ret None => next
    | Raise e => Raise e
    end.
Proof.
  unfold stage, yields. destruct candidate as [c|]; [|done].
  by destruct (Json.truthy c).
Qed.

(** Only a non-empty dict passes validation. *)
Lemma validate_schema_truthy c validated :
  _validate_schema c = Ret (Some validated) -> Json.truthy c = true.
Proof.
  destruct c as [| | | | | |entries]; try done.
  destruct entries; [done|]. done.
Qed.

(** A text in which a fence tagged [json] follows a stretch without
    backquotes; the fence holds, between optional spaces, a pair of braces
    around a stretch without backquotes. *)
Definition braced (inner : string) : string :=
  String "{" (String.append inner "}").

Definition fenced (w1 inner w2 suffix : string) : string :=
  String.append "```json"
    (String.append w1
       (String.append (braced inner)
          (String.append w2 (String.append "```" suffix)))).

Lemma no_fence_ahead_inner u t :
  all_chars not_backquote u = true ->
  no_fence_ahead (String.append u (String "}" t)) = true.
Proof.
  induction u as [|c u IH]; intros Hu; cbn [String.append no_fence_ahead].
  - done.
  - cbn in Hu. apply andb_prop in Hu as [Hc Hu].
    destruct (Py.is_space c); [by apply IH|done].
Qed.

Lemma substring_append_l a s n :
  substring (String.length a) n (String.append a s) = substring 0 n s.
Proof. induction a as [|c a IH]; [done|]. cbn. apply IH. Qed.

Lemma substring_prefix b t :
  substring 0 (String.length b) (String.append b t) = b.
Proof. induction b as [|c b IH]; cbn; [by destruct t|]. by rewrite IH. Qed.

Lemma braced_append inner rest :
  String.append (braced inner) rest
  = String "{" (String.append inner (String "}" rest)).
Proof. unfold braced. cbn [String.append]. by rewrite append_assoc. Qed.

Lemma match_fence w1 inner w2 suffix :
  all_chars Py.is_space w1 = true ->
  all_chars Py.is_space w2 = true ->
  all_chars not_backquote inner = true ->
  exists m,
    Re.match_at true (nth 0 fence_patterns []) (fenced w1 inner w2 suffix)
    = Some m
    /\ Re.group m (fenced w1 inner w2 suffix) = braced inner.
Proof.
  intros Hw1 Hw2 Hin.
  set (gs := (7 + String.length w1)%nat).
  set (ge := (gs + String.length (braced inner))%nat).
  exists (Re.mkSpan (ge + String.length w2 + 3) gs ge). split.
  - unfold Re.match_at, fenced. cbn [nth fence_patterns].
    rewrite run_lit. cbn [app].
    apply run_greedy_space; [done|done|].
    unfold braces. cbn [app]. rewrite braced_append.
    rewrite run_open, run_one, accepts_self. cbn [fst snd].
    apply run_lazy_any.
    + intros u1 x u2 ->. rewrite run_one.
      destruct (Re.accepts true (Re.Char "}") x); [|done].
      rewrite run_close. apply run_greedy_space_fail.
      rewrite all_chars_app in Hin. apply andb_prop in Hin as [_ Hin].
      cbn in Hin. apply andb_prop in Hin as [_ Hin].
      by apply no_fence_ahead_inner.
    + rewrite run_one, accepts_self, run_close. cbn [fst snd].
      apply run_greedy_space; [done|done|].
      rewrite <- (app_nil_r (Re.lit "```")), run_lit. cbn [Re.run fst snd].
      f_equal. subst ge gs. unfold braced. cbn [String.length].
      rewrite length_append. cbn [String.length]. f_equal; lia.
  - unfold Re.group, fenced. cbn [Re.group_start Re.group_stop].
    replace (ge - gs)%nat with (String.length (braced inner)) by lia.
    subst gs.
    change (7 + String.length w1)%nat
      with (String.length "```json" + String.length w1)%nat.
    rewrite <- length_append, <- append_assoc, substring_append_l.
    apply substring_prefix.
Qed.

Lemma findall_skip_prefix p prefix : forall fuel s,
  all_chars not_backquote prefix = true ->
  Re.findall_from (String.length prefix + fuel) true
                  (Re.One (Re.Char "`") :: p) (String.append prefix s)
  = Re.findall_from fuel true (Re.One (Re.Char "`") :: p) s.
Proof.
  induction prefix as [|x prefix IH]; intros fuel s Hp; [done|].
  cbn in Hp. apply andb_prop in Hp as [Hx Hp].
  cbn [String.length String.append plus Re.findall_from].
  unfold Re.match_at. rewrite run_one.
  destruct (Re.accepts true (Re.Char "`") x) eqn:E.
  - apply accepts_backquote in E as ->. done.
  - by apply IH.
Qed.

(** The first match of the tagged pattern is the body of the first fence. *)
Lemma findall_first_fence prefix w1 inner w2 suffix :
  all_chars not_backquote prefix = true ->
  all_chars Py.is_space w1 = true ->
  all_chars Py.is_space w2 = true ->
  all_chars not_backquote inner = true ->
  exists rest,
    Re.findall true (nth 0 fence_patterns [])
               (String.append prefix (fenced w1 inner w2 suffix))
    = braced inner :: rest.
Proof.
  intros Hp Hw1 Hw2 Hin.
  destruct (match_fence w1 inner w2 suffix Hw1 Hw2 Hin) as (m & Hm & Hg).
  unfold Re.findall. rewrite length_append.
  change (nth 0 fence_patterns [])
    with (Re.One (Re.Char "`")
            :: Re.lit "``json" ++ [Re.Greedy Re.Whitespace] ++ braces
                 ++ [Re.Greedy Re.Whitespace] ++ Re.lit "```") in *.
  rewrite findall_skip_prefix by done.
  change (fenced w1 inner w2 suffix)
    with (String "`" (String.append "``json"
            (String.append w1 (String.append (braced inner)
               (String.append w2 (String.append "```" suffix)))))) in *.
  cbn [String.length Re.findall_from]. rewrite Hm, Hg. by eexists.
Qed.

Lemma not_blank_with_backquote prefix rest :
  Py.is_blank (String.append prefix (String "`" rest)) = false.
Proof.
  unfold Py.is_blank.
  induction prefix as [|c prefix IH]; cbn [String.append Py.lstrip]; [done|].
  by destruct (Py.is_space c).
Qed.

(** C8, as amended. When the direct parse of the whole text fails and the
    first fence tagged [json], the one no backquote precedes, holds, between
    optional spaces, a braced body without backquotes that decodes to an
    object passing validation, the function returns the validated sections
    of that body, through the second stage. Whatever the text, the result of
    the repair stage is returned when it validates and the first three
    stages contribute nothing, and [None] is returned when no stage
    contributes anything; the text with a comma before the closing bracket
    is an instance of the former. *)
Theorem C8_extraction_stages prefix w1 inner w2 suffix c validated :
  let text := String.append prefix (fenced w1 inner w2 suffix) in
  all_chars not_backquote prefix = true ->
  all_chars Py.is_space w1 = true ->
  all_chars Py.is_space w2 = true ->
  all_chars not_backquote inner = true ->
  Json.loads text = None ->
  Json.loads (braced inner) = Some c ->
  _validate_schema c = Ret (Some validated) ->
  (_extract_from_code_blocks text = Some c
   /\ parse_json_response text = Ret (Some validated))
  /\ (forall t v,
        Py.is_blank t = false ->
        yields (_attempt_direct_parse t) = Ret None ->
        yields (_extract_from_code_blocks t) = Ret None ->
        yields (_extract_by_brackets t) = Ret None ->
        yields (_attempt_recovery t) = Ret (Some v) ->
        parse_json_response t = Ret (Some v))
  /\ (forall t,
        yields (_attempt_direct_parse t) = Ret None ->
        yields (_extract_from_code_blocks t) = Ret None ->
        yields (_extract_by_brackets t) = Ret None ->
        yields (_attempt_recovery t) = Ret None ->
        parse_json_response t = Ret None)
  /\ (let t := Py.dq "{'sections':[{'name':'A','startPage':1,'endPage':10},]}" in
      @yields Json.reference (@_attempt_direct_parse Json.reference t) = Ret None
      /\ @yields Json.reference (@_extract_from_code_blocks Json.reference t)
         = Ret None
      /\ @yields Json.reference (@_extract_by_brackets Json.reference t)
         = Ret None
      /\ @parse_json_response Json.reference t
         = Ret (Some [mkSection "A" 1 10])).
Proof.
  intros text Hp Hw1 Hw2 Hin Hdirect Hbody Hvalid.
  assert (Hblocks : _extract_from_code_blocks text = Some c).
  { unfold _extract_from_code_blocks.
    destruct (findall_first_fence prefix w1 inner w2 suffix Hp Hw1 Hw2 Hin)
      as (rest & Hfind).
    change fence_patterns
      with (nth 0 fence_patterns [] :: tail fence_patterns).
    cbn [first_in_patterns]. fold text in Hfind. rewrite Hfind.
    cbn [first_loadable]. by rewrite Hbody. }
  split; [|split; [|split]].
  - split; [done|]. unfold parse_json_response.
    unfold text at 1, fenced. cbn [String.append].
    rewrite not_blank_with_backquote.
    rewrite !stage_yields. unfold _attempt_direct_parse. fold text.
    rewrite Hdirect, Hblocks. cbn [yields].
    by rewrite (validate_schema_truthy _ _ Hvalid), Hvalid.
  - intros t v Hb H1 H2 H3 H4. unfold parse_json_response.
    by rewrite Hb, !stage_yields, H1, H2, H3, H4.
  - intros t H1 H2 H3 H4. unfold parse_json_response.
    rewrite !stage_yields, H1, H2, H3, H4. by destruct (Py.is_blank t).
  - by vm_compute.
Qed.

End ExtractorFacts.

Section ExtractorExamples.
Import APIClient.

Lemma C8_extraction_stages_witness :
  let inner := Py.dq "'sections':[{'name':'A','startPage':1,'endPage':10}]" in
  let text :=
    String.append (String.append "Here is the structure:" Py.newline)
                  (fenced Py.newline inner Py.newline "Done.") in
  _extract_from_code_blocks text
  = Some (Json.JObject
            [("sections",
              Json.JArray
                [Json.JObject [("name", Json.JString "A");
                               ("startPage", Json.JInt 1);
                               ("endPage", Json.JInt 10)]])])
  /\ parse_json_response text = Ret (Some [mkSection "A" 1 10]).
Proof.
  exact (proj1 (@C8_extraction_stages Json.reference
                  (String.append "Here is the structure:" Py.newline)
                  Py.newline
                  (Py.dq "'sections':[{'name':'A','startPage':1,'endPage':10}]")
                  Py.newline "Done." _ [mkSection "A" 1 10]
                  eq_refl eq_refl eq_refl eq_refl eq_refl eq_refl eq_refl)).
Defined.

(** Two fences, the first around an object without sections. *)
Definition two_fences : string :=
  fenced Py.newline (Py.dq "'a':1") Py.newline
    (String.append Py.newline
       (fenced Py.newline
          (Py.dq "'sections':[{'name':'A','startPage':1,'endPage':10}]")
          Py.newline "")).

(** A list with a comma before its closing bracket, a name that holds two
    slashes, and a line break before the closing brace. *)
Definition slashes_and_comma : string :=
  String.append
    (Py.dq "{'sections':[{'name':'a//b','startPage':1,'endPage':2},]")
    (String.append Py.newline "}").

Definition slashes_only : string :=
  String.append
    (Py.dq "{'sections':[{'name':'a//b','startPage':1,'endPage':2}]")
    (String.append Py.newline "}").

Definition infinite_page : string :=
  Py.dq "{'sections':[{'name':'A','startPage':Infinity,'endPage':10}]}".

(** C8, against the claim as stated. (1) In [two_fences] the direct parse
    fails and the second tagged fence holds an object that passes
    validation, yet the result is [None]: the second stage only looks at
    the first body that decodes, the object without sections. (2)
    [slashes_and_comma] is [slashes_only], which validates, with one comma
    before the closing bracket, yet no stage recovers it: the repair stage
    cuts the text from the two slashes to the end of the line. (3) On
    [infinite_page] no stage yields a validated object and the function
    raises [OverflowError]. *)
Lemma C8_counterexample :
  (Json.loads two_fences = None
   /\ In (braced (Py.dq "'sections':[{'name':'A','startPage':1,'endPage':10}]"))
         (Re.findall true (nth 0 fence_patterns []) two_fences)
   /\ yields (Json.loads
                (braced (Py.dq "'sections':[{'name':'A','startPage':1,'endPage':10}]")))
      = Ret (Some [mkSection "A" 1 10])
   /\ parse_json_response two_fences = Ret None)
  /\ (parse_json_response slashes_only = Ret (Some [mkSection "a//b" 1 2])
      /\ parse_json_response slashes_and_comma = Ret None)
  /\ parse_json_response infinite_page = Raise "OverflowError".
Proof.
  split; [|split].
  - split; [by vm_compute|]. split; [|split; by vm_compute].
    vm_compute. right. by left.
  - split; by vm_compute.
  - by vm_compute.
Qed.

End ExtractorExamples.
(** * Further properties of the response extractor *)

(** The dict [{"name": ..., "startPage": ..., "endPage": ...}] of a section
    and the dict [{"sections": [...]}] that [_validate_schema] returns. *)
Definition section_dict (s : section) : Json.value :=
  Json.JObject [("name", Json.JString (name s));
                ("startPage", Json.JInt (startPage s));
                ("endPage", Json.JInt (endPage s))].

Definition sections_dict (l : list section) : Json.value :=
  Json.JObject [("sections", Json.JArray (map section_dict l))].

Definition schema_validb (s : section) : bool :=
  (1 <=? startPage s) && (startPage s <=? endPage s).

(** A result that is either nothing or a non-empty list of schema-valid
    sections. *)
Definition well_formed (o : APIClient.outcome (option (list section))) : Prop :=
  match o with
  | APIClient.Ret (Some l) => l <> [] /\ Forall schema_valid l
  | _ => True
  end.

Section ValidationFacts.
Import APIClient.
Context `{Json.Runtime}.

Lemma schema_validb_spec s : schema_validb s = true <-> schema_valid s.
Proof. unfold schema_validb, schema_valid. lia. Qed.

Lemma validate_element_keep element s :
  validate_element element = Keep s -> schema_valid s.
Proof.
  unfold validate_element.
  destruct element as [| | | | | |entries]; try done.
  destruct (Json.get "name" entries) as [n|]; [|done].
  destruct (Json.get "startPage" entries) as [sp|]; [|done].
  destruct (Json.get "endPage" entries) as [ep|]; [|done].
  destruct (py_int sp) as [start_page| |]; [|done|done].
  destruct (py_int ep) as [end_page| |]; [|done|done].
  destruct (start_page <? 1) eqn:E1; [done|].
  destruct (end_page <? start_page) eqn:E2; [done|].
  intros [= <-]. unfold schema_valid. cbn. lia.
Qed.

Lemma validate_elements_valid elements : forall acc l,
  Forall schema_valid acc ->
  validate_elements elements acc = Ret l ->
  Forall schema_valid l.
Proof.
  induction elements as [|element rest IH]; intros acc l Hacc; cbn.
  - by intros [= <-].
  - destruct (validate_element element) as [s| |] eqn:E; [| |done].
    + apply IH. apply Forall_app. split; [done|].
      constructor; [|done]. by apply (validate_element_keep element).
    + by apply IH.
Qed.

Lemma validate_schema_well_formed data : well_formed (_validate_schema data).
Proof.
  unfold _validate_schema.
  destruct data as [| | | | | |entries]; try done.
  destruct (Json.get "sections" entries) as [[| | | | |sections|]|]; try done.
  destruct (validate_elements sections []) as [[|s l]|e] eqn:E; try done.
  split; [done|]. by apply (validate_elements_valid sections [] (s :: l)).
Qed.

Lemma stage_well_formed candidate next :
  well_formed next -> well_formed (stage candidate next).
Proof.
  intros Hn. unfold stage. destruct candidate as [c|]; [|done].
  destruct (Json.truthy c); [|done].
  pose proof (validate_schema_well_formed c) as Hv.
  by destruct (_validate_schema c) as [[l|]|e].
Qed.

Lemma parse_well_formed text : well_formed (parse_json_response text).
Proof.
  unfold parse_json_response. destruct (Py.is_blank text); [done|].
  by repeat apply stage_well_formed.
Qed.

Lemma section_dict_element s :
  validate_element (section_dict s) = if schema_validb s then Keep s else Skip.
Proof.
  destruct s as [n sp ep]. unfold validate_element, section_dict, schema_validb.
  cbn [Json.get String.eqb Ascii.eqb Bool.eqb name startPage endPage py_int
       py_str].
  cbn. destruct (sp <? 1) eqn:E1.
  - assert ((1 <=? sp) = false) as -> by lia. done.
  - assert ((1 <=? sp) = true) as -> by lia. cbn.
    destruct (ep <? sp) eqn:E2.
    + by assert ((sp <=? ep) = false) as -> by lia.
    + by assert ((sp <=? ep) = true) as -> by lia.
Qed.

Lemma validate_elements_dicts l : forall acc,
  validate_elements (map section_dict l) acc
  = Ret (acc ++ List.filter schema_validb l).
Proof.
  induction l as [|s l IH]; intros acc; cbn [map validate_elements List.filter].
  - by rewrite app_nil_r.
  - rewrite section_dict_element. destruct (schema_validb s).
    + rewrite IH, <- app_assoc. done.
    + apply IH.
Qed.

Lemma sections_dict_validated l :
  _validate_schema (sections_dict l)
  = Ret (match List.filter schema_validb l with
         | [] => None
         | validated => Some validated
         end).
Proof.
  unfold _validate_schema, sections_dict. cbn [Json.get String.eqb].
  cbn. rewrite validate_elements_dicts. cbn [app].
  by destruct (List.filter schema_validb l).
Qed.

Lemma filter_all_valid l :
  Forall schema_valid l -> List.filter schema_validb l = l.
Proof.
  induction 1 as [|s l Hs Hl IH]; [done|]. cbn.
  apply schema_validb_spec in Hs as ->. by rewrite IH.
Qed.

(** No element before the first one that overflows changes the outcome. *)
Lemma validate_elements_overflow before bad after : forall acc,
  Forall (fun e => validate_element e <> Overflow) before ->
  validate_element bad = Overflow ->
  validate_elements (before ++ bad :: after) acc = Raise "OverflowError".
Proof.
  induction before as [|e before IH]; intros acc Hb Hbad; cbn.
  - by rewrite Hbad.
  - apply Forall_cons in Hb as [He Hb].
    destruct (validate_element e); [by apply IH|by apply IH|done].
Qed.

(** A float that [json.loads] reads as an infinity. *)
Definition infinite (v : Json.value) : bool :=
  match v with
  | Json.JFloat (Json.Infinity _) => true
  | _ => false
  end.

Lemma validate_element_infinite entries n sp ep :
  Json.get "name" entries = Some n ->
  Json.get "startPage" entries = Some sp ->
  Json.get "endPage" entries = Some ep ->
  infinite sp = true
  \/ ((exists z, py_int sp = IntOk z) /\ infinite ep = true) ->
  validate_element (Json.JObject entries) = Overflow.
Proof.
  intros Hn Hs He Hinf. unfold validate_element. rewrite Hn, Hs, He.
  destruct Hinf as [Hsp|[[z Hz] Hep]].
  - by destruct sp as [| | |[| |]| | |].
  - rewrite Hz. by destruct ep as [| | |[| |]| | |].
Qed.

End ValidationFacts.

Section ValidationProperties.
Import APIClient.
Context `{Json.Runtime}.

(** X16. Whatever the text and whatever [json.loads] makes of it, a list
    returned by [parse_json_response] is not empty and each of its sections
    has [startPage >= 1] and [endPage >= startPage]. *)
Theorem parse_json_response_well_formed (response_text : string) :
  well_formed (parse_json_response response_text).
Proof.
  unfold parse_json_response. destruct (Py.is_blank response_text); [done|].
  by repeat apply stage_well_formed.
Qed.

(** X17. On a dict that holds a list of section dicts with string names and
    integer pages, validation keeps, in order, exactly the sections with
    [startPage >= 1] and [endPage >= startPage], and returns [None] when
    none is left; in particular the dict it returns passes validation
    unchanged. *)
Theorem validate_schema_keeps_valid (l : list section) :
  _validate_schema (sections_dict l)
  = Ret (match List.filter schema_validb l with
         | [] => None
         | validated => Some validated
         end)
  /\ (forall validated,
        _validate_schema (sections_dict l) = Ret (Some validated) ->
        _validate_schema (sections_dict validated) = Ret (Some validated)).
Proof.
  split; [apply sections_dict_validated|].
  intros validated Hv.
  pose proof (validate_schema_well_formed (sections_dict l)) as Hwf.
  rewrite Hv in Hwf. destruct Hwf as [Hne Hall].
  rewrite sections_dict_validated, filter_all_valid by done.
  by destruct validated.
Qed.

(** X18. A section dict whose [startPage] is an infinite float, or whose
    [startPage] converts and whose [endPage] is an infinite float, makes
    [int] raise [OverflowError], which no handler catches: when the text
    decodes to a dict whose list holds such an element, after elements that
    do not raise, [parse_json_response] raises instead of returning. *)
Theorem parse_json_response_overflow
    (response_text : string) entries before bad n sp ep after :
  Py.is_blank response_text = false ->
  Json.loads response_text = Some (Json.JObject entries) ->
  Json.get "sections" entries
  = Some (Json.JArray (before ++ Json.JObject bad :: after)) ->
  Forall (fun e => validate_element e <> Overflow) before ->
  Json.get "name" bad = Some n ->
  Json.get "startPage" bad = Some sp ->
  Json.get "endPage" bad = Some ep ->
  infinite sp = true
  \/ ((exists z, py_int sp = IntOk z) /\ infinite ep = true) ->
  parse_json_response response_text = Raise "OverflowError".
Proof.
  intros Hb Hl Hs Hbefore Hn Hsp Hep Hinf.
  pose proof (validate_element_infinite bad n sp ep Hn Hsp Hep Hinf) as Hbad.
  unfold parse_json_response, _attempt_direct_parse. rewrite Hb, Hl.
  unfold stage at 1.
  assert (Json.truthy (Json.JObject entries) = true) as ->.
  { by destruct entries. }
  unfold _validate_schema. rewrite Hs.
  by rewrite validate_elements_overflow.
Qed.

End ValidationProperties.

Section ValidationExamples.
Import APIClient.

Lemma parse_json_response_overflow_witness :
  parse_json_response
    (Py.dq "{'sections':[{'name':'A','startPage':1,'endPage':2},{'name':'B','startPage':3,'endPage':1e999}]}")
  = Raise "OverflowError".
Proof.
  apply (@parse_json_response_overflow Json.reference _
           [("sections",
             Json.JArray
               [section_dict (mkSection "A" 1 2);
                Json.JObject [("name", Json.JString "B");
                              ("startPage", Json.JInt 3);
                              ("endPage", Json.JFloat (Json.Infinity false))]])]
           [section_dict (mkSection "A" 1 2)]
           [("name", Json.JString "B");
            ("startPage", Json.JInt 3);
            ("endPage", Json.JFloat (Json.Infinity false))]
           (Json.JString "B") (Json.JInt 3)
           (Json.JFloat (Json.Infinity false))
           []).
  - reflexivity.
  - vm_compute. reflexivity.
  - reflexivity.
  - repeat constructor. vm_compute. discriminate.
  - reflexivity.
  - reflexivity.
  - reflexivity.
  - right. split; [by exists 3|reflexivity].
Defined.

End ValidationExamples.

(** ** Brace matching *)

Section BracketFacts.
Import APIClient.

(** A character that is neither a backslash, a double quote nor a brace. *)
Definition plain (c : ascii) : bool :=
  negb (Ascii.eqb c "\") && negb (Ascii.eqb c Py.dquote)
  && negb (Ascii.eqb c "{") && negb (Ascii.eqb c "}").

(** What follows the opening quote of a string literal, up to its closing
    quote: any character but a quote or a backslash, or a backslash and the
    character after it. *)
Inductive literal_tail : string -> Prop :=
| tail_close : literal_tail (String Py.dquote EmptyString)
| tail_char c s :
    Ascii.eqb c "\" = false -> Ascii.eqb c Py.dquote = false ->
    literal_tail s -> literal_tail (String c s)
| tail_escape c s :
    literal_tail s -> literal_tail (String "\" (String c s)).

(** A text whose braces outside string literals are balanced. *)
Inductive balanced : string -> Prop :=
| balanced_nil : balanced EmptyString
| balanced_plain c s :
    plain c = true -> balanced s -> balanced (String c s)
| balanced_literal t s :
    literal_tail t -> balanced s ->
    balanced (String Py.dquote (String.append t s))
| balanced_object inner s :
    balanced inner -> balanced s ->
    balanced (String "{" (String.append inner (String "}" s))).

Definition no_brace (c : ascii) : bool := negb (Ascii.eqb c "{").

Lemma scan_literal_tail t : literal_tail t ->
  forall rest taken n,
  bracket_scan (String.append t rest) taken n true false
  = bracket_scan rest (rev (list_ascii_of_string t) ++ taken) n false false.
Proof.
  induction 1 as [|c s Hb Hq Hs IH|c s Hs IH]; intros rest taken n.
  - cbn. done.
  - cbn [String.append bracket_scan]. rewrite Hb, Hq. cbn [negb].
    rewrite IH. cbn [list_ascii_of_string rev]. by rewrite <- app_assoc.
  - cbn [String.append bracket_scan]. cbn [Ascii.eqb Bool.eqb].
    rewrite IH. cbn [list_ascii_of_string rev]. by rewrite <- !app_assoc.
Qed.

Lemma list_ascii_of_string_app s1 s2 :
  list_ascii_of_string (String.append s1 s2)
  = list_ascii_of_string s1 ++ list_ascii_of_string s2.
Proof. induction s1 as [|c s1 IH]; cbn; [done|]. by rewrite IH. Qed.

Lemma scan_balanced s : balanced s ->
  forall rest taken n, 0 < n ->
  bracket_scan (String.append s rest) taken n false false
  = bracket_scan rest (rev (list_ascii_of_string s) ++ taken) n false false.
Proof.
  induction 1 as [|c s Hc Hs IH|t s Ht Hs IH|inner s Hi IHi Hs IHs];
    intros rest taken n Hn.
  - done.
  - cbn [String.append bracket_scan]. unfold plain in Hc.
    apply andb_prop in Hc as [Hc H4]. apply andb_prop in Hc as [Hc H3].
    apply andb_prop in Hc as [H1 H2].
    apply negb_true_iff in H1, H2, H3, H4. rewrite H1, H2, H3, H4. cbn [negb].
    rewrite IH by done. cbn [list_ascii_of_string rev]. by rewrite <- app_assoc.
  - cbn [String.append bracket_scan].
    change (Ascii.eqb Py.dquote "\") with false.
    rewrite Ascii.eqb_refl. cbn [negb].
    rewrite append_assoc, scan_literal_tail, IH by done.
    cbn [list_ascii_of_string rev].
    rewrite list_ascii_of_string_app, rev_app_distr, <- !app_assoc. done.
  - cbn [String.append bracket_scan]. cbn [Ascii.eqb Bool.eqb negb].
    change (Ascii.eqb "{" Py.dquote) with false. cbn iota.
    rewrite append_assoc, IHi by lia.
    cbn [String.append bracket_scan]. cbn [Ascii.eqb Bool.eqb negb].
    change (Ascii.eqb "}" Py.dquote) with false. cbn iota.
    assert ((n + 1 - 1 =? 0) = false) as -> by lia.
    replace (n + 1 - 1) with n by lia.
    rewrite IHs by done.
    cbn [list_ascii_of_string rev].
    rewrite list_ascii_of_string_app, rev_app_distr. cbn [list_ascii_of_string rev].
    rewrite <- !app_assoc. done.
Qed.

Lemma from_first_brace prefix rest :
  all_chars no_brace prefix = true ->
  Py.from_first "{" (String.append prefix (String "{" rest))
  = Some (String "{" rest).
Proof.
  induction prefix as [|c prefix IH]; intros Hp; [done|].
  cbn in Hp. apply andb_prop in Hp as [Hc Hp].
  cbn [String.append Py.from_first]. unfold no_brace in Hc.
  apply negb_true_iff in Hc. rewrite Hc. by apply IH.
Qed.

Lemma from_first_none prefix :
  all_chars no_brace prefix = true -> Py.from_first "{" prefix = None.
Proof.
  induction prefix as [|c prefix IH]; intros Hp; [done|].
  cbn in Hp. apply andb_prop in Hp as [Hc Hp].
  cbn [Py.from_first]. unfold no_brace in Hc.
  apply negb_true_iff in Hc. rewrite Hc. by apply IH.
Qed.

Lemma string_of_rev_braced inner :
  string_of_list_ascii
    (rev ("}"%char :: rev (list_ascii_of_string inner) ++ ["{"%char]))
  = braced inner.
Proof.
  cbn [rev]. rewrite rev_app_distr, rev_involutive. cbn [rev app].
  unfold braced. cbn [string_of_list_ascii]. f_equal.
  rewrite string_of_list_ascii_app, string_of_list_ascii_of_string. done.
Qed.

Lemma bracket_scan_object inner suffix :
  balanced inner ->
  bracket_scan (String.append (braced inner) suffix) [] 0 false false
  = Some (braced inner).
Proof.
  intros Hi. rewrite braced_append.
  cbn [bracket_scan]. cbn [Ascii.eqb Bool.eqb negb].
  change (Ascii.eqb "{" Py.dquote) with false. cbn iota.
  rewrite scan_balanced by (done || lia).
  cbn [bracket_scan]. cbn [Ascii.eqb Bool.eqb negb].
  change (Ascii.eqb "}" Py.dquote) with false. cbn iota.
  change (0 + 1 - 1 =? 0) with true. cbn iota.
  by rewrite string_of_rev_braced.
Qed.

Lemma bracket_scan_unclosed inner :
  balanced inner ->
  bracket_scan (String "{" inner) [] 0 false false = None.
Proof.
  intros Hi. cbn [bracket_scan]. cbn [Ascii.eqb Bool.eqb negb].
  change (Ascii.eqb "{" Py.dquote) with false. cbn iota.
  rewrite <- (append_nil_r inner), scan_balanced by (done || lia). done.
Qed.

End BracketFacts.

Section BracketProperties.
Import APIClient.
Context `{Json.Runtime}.

(** X19. Brace matching starts at the first opening brace and stops at the
    brace that closes it, not counting braces inside string literals or
    after a backslash: when that brace is preceded by text without braces
    and encloses a balanced text, the candidate is what [json.loads] makes
    of the enclosed object, whatever follows it. An object that is never
    closed, and a text without an opening brace, give no candidate. *)
Theorem extract_by_brackets_balanced (prefix inner suffix : string) :
  all_chars no_brace prefix = true ->
  balanced inner ->
  _extract_by_brackets
    (String.append prefix (String.append (braced inner) suffix))
  = Json.loads (braced inner)
  /\ _extract_by_brackets (String.append prefix (String "{" inner)) = None
  /\ _extract_by_brackets prefix = None.
Proof.
  intros Hp Hi. unfold _extract_by_brackets. split; [|split].
  - rewrite braced_append, from_first_brace by done.
    rewrite <- braced_append, bracket_scan_object by done. done.
  - rewrite from_first_brace by done.
    by rewrite bracket_scan_unclosed.
  - by rewrite from_first_none.
Qed.

End BracketProperties.

Section BracketExamples.
Import APIClient.

Lemma extract_by_brackets_balanced_witness :
  _extract_by_brackets (Py.dq "Result: {'k':'}','n':{'m':1}} and } more")
  = Some (Json.JObject
            [("k", Json.JString "}");
             ("n", Json.JObject [("m", Json.JInt 1)])])
  /\ _extract_by_brackets (Py.dq "Result: {'k':'}','n':{'m':1}") = None
  /\ _extract_by_brackets "Result: " = None.
Proof.
  apply (@extract_by_brackets_balanced Json.reference
           "Result: " (Py.dq "'k':'}','n':{'m':1}") " and } more").
  - reflexivity.
  - apply (balanced_literal (Py.dq "k'") (Py.dq ":'}','n':{'m':1}")).
    { apply tail_char; [reflexivity..|]. apply tail_close. }
    apply balanced_plain; [reflexivity|].
    apply (balanced_literal (Py.dq "}'") (Py.dq ",'n':{'m':1}")).
    { apply tail_char; [reflexivity..|]. apply tail_close. }
    apply balanced_plain; [reflexivity|].
    apply (balanced_literal (Py.dq "n'") (Py.dq ":{'m':1}")).
    { apply tail_char; [reflexivity..|]. apply tail_close. }
    apply balanced_plain; [reflexivity|].
    apply (balanced_object (Py.dq "'m':1") "").
    + apply (balanced_literal (Py.dq "m'") ":1").
      { apply tail_char; [reflexivity..|]. apply tail_close. }
      apply balanced_plain; [reflexivity|].
      apply balanced_plain; [reflexivity|]. apply balanced_nil.
    + apply balanced_nil.
Defined.

End BracketExamples.

(** ** Repairs and fences *)

Section RepairFacts.
Import APIClient.

(** A character that none of the five substitutions can start from. *)
Definition unrepaired (c : ascii) : bool :=
  negb (Ascii.eqb c ",") && negb (Ascii.eqb c "'") && negb (Ascii.eqb c "/").

Lemma sub_from_absent c p repl : forall fuel s,
  all_chars (fun x => negb (Ascii.eqb x c)) s = true ->
  Re.sub_from fuel (Re.One (Re.Char c) :: p) repl s = s.
Proof.
  induction fuel as [|fuel IH]; intros s Hs; [by destruct s|].
  destruct s as [|x r]; [done|]. cbn in Hs. apply andb_prop in Hs as [Hx Hr].
  cbn [Re.sub_from]. unfold Re.match_at. rewrite run_one.
  cbn [Re.accepts]. apply negb_true_iff in Hx. rewrite Hx.
  by rewrite IH.
Qed.

Lemma all_chars_impl (P Q : ascii -> bool) s :
  (forall c, P c = true -> Q c = true) ->
  all_chars P s = true -> all_chars Q s = true.
Proof.
  intros HPQ. induction s as [|c s IH]; [done|]. cbn.
  intros HP. apply andb_prop in HP as [Hc Hs].
  by rewrite (HPQ c Hc), IH.
Qed.

Lemma apply_fixes_unrepaired text :
  all_chars unrepaired text = true -> apply_fixes text = text.
Proof.
  intros Ht.
  assert (Hcomma : all_chars (fun x => negb (Ascii.eqb x ",")) text = true).
  { apply (all_chars_impl unrepaired); [|done]. intros c Hc.
    unfold unrepaired in Hc. rewrite !andb_true_iff in Hc. tauto. }
  assert (Hquote : all_chars (fun x => negb (Ascii.eqb x "'")) text = true).
  { apply (all_chars_impl unrepaired); [|done]. intros c Hc.
    unfold unrepaired in Hc. rewrite !andb_true_iff in Hc. tauto. }
  assert (Hslash : all_chars (fun x => negb (Ascii.eqb x "/")) text = true).
  { apply (all_chars_impl unrepaired); [|done]. intros c Hc.
    unfold unrepaired in Hc. rewrite !andb_true_iff in Hc. tauto. }
  unfold apply_fixes, fixes, Re.sub. cbn [fold_left fst snd Re.lit app].
  rewrite !(sub_from_absent "," _ _ _ text Hcomma).
  rewrite (sub_from_absent "'" _ _ _ text Hquote).
  by rewrite !(sub_from_absent "/" _ _ _ text Hslash).
Qed.

End RepairFacts.

Section RepairProperties.
Import APIClient.
Context `{Json.Runtime}.

(** X20. The five substitutions of the repair stage leave a text without
    comma, apostrophe and slash as it is, so the stage tries the direct
    parse and the brace matching a second time: on such a text the result is
    that of the first three stages alone. *)
Theorem attempt_recovery_unrepaired (response_text : string) :
  all_chars unrepaired response_text = true ->
  apply_fixes response_text = response_text
  /\ _attempt_recovery response_text
     = match Json.loads response_text with
       | Some v => Some v
       | None => _extract_by_brackets response_text
       end
  /\ parse_json_response response_text
     = if Py.is_blank response_text then Ret None
       else stage (_attempt_direct_parse response_text)
           (stage (_extract_from_code_blocks response_text)
           (stage (_extract_by_brackets response_text) (Ret None))).
Proof.
  intros Ht. pose proof (apply_fixes_unrepaired response_text Ht) as Hfix.
  assert (Hrec : _attempt_recovery response_text
                 = match Json.loads response_text with
                   | Some v => Some v
                   | None => _extract_by_brackets response_text
                   end).
  { unfold _attempt_recovery. cbv zeta. by rewrite Hfix. }
  split; [done|]. split; [done|].
  unfold parse_json_response. destruct (Py.is_blank response_text); [done|].
  rewrite Hrec. unfold _attempt_direct_parse.
  destruct (Json.loads response_text) as [v|].
  - rewrite !stage_yields. by destruct (yields (Some v)) as [[l|]|e].
  - rewrite !stage_yields. cbn [yields].
    destruct (yields (_extract_from_code_blocks response_text)) as [[l|]|e];
      try done.
    by destruct (yields (_extract_by_brackets response_text)) as [[l|]|e].
Qed.

(** X21. When no backquote precedes the first fence tagged [json] and the
    fence holds, between optional white space, a braced body without
    backquotes that [json.loads] accepts, the code-block stage returns that
    body decoded, whatever follows the fence: later fences are not looked
    at, whether or not the body passes validation afterwards. *)
Theorem extract_from_code_blocks_first_fence
    (prefix w1 inner w2 suffix : string) (c : Json.value) :
  all_chars not_backquote prefix = true ->
  all_chars Py.is_space w1 = true ->
  all_chars Py.is_space w2 = true ->
  all_chars not_backquote inner = true ->
  Json.loads (braced inner) = Some c ->
  _extract_from_code_blocks (String.append prefix (fenced w1 inner w2 suffix))
  = Some c.
Proof.
  intros Hp Hw1 Hw2 Hin Hbody. unfold _extract_from_code_blocks.
  destruct (findall_first_fence prefix w1 inner w2 suffix Hp Hw1 Hw2 Hin)
    as (rest & Hfind).
  change fence_patterns with (nth 0 fence_patterns [] :: tail fence_patterns).
  cbn [first_in_patterns]. rewrite Hfind.
  cbn [first_loadable]. by rewrite Hbody.
Qed.

End RepairProperties.

Section RepairExamples.
Import APIClient.

Lemma attempt_recovery_unrepaired_witness :
  let text := Py.dq "Found: {`sections`: 3}" in
  apply_fixes text = text
  /\ _attempt_recovery text
     = match Json.loads text with
       | Some v => Some v
       | None => _extract_by_brackets text
       end
  /\ parse_json_response text
     = if Py.is_blank text then Ret None
       else stage (_attempt_direct_parse text)
           (stage (_extract_from_code_blocks text)
           (stage (_extract_by_brackets text) (Ret None))).
Proof.
  apply (@attempt_recovery_unrepaired Json.reference
           (Py.dq "Found: {`sections`: 3}")).
  reflexivity.
Defined.

Lemma extract_from_code_blocks_first_fence_witness :
  _extract_from_code_blocks
    (String.append "Two answers: "
       (fenced Py.newline (Py.dq "'a':1") Py.newline
          (fenced " " (Py.dq "'sections':[]") " " "")))
  = Some (Json.JObject [("a", Json.JInt 1)]).
Proof.
  apply (@extract_from_code_blocks_first_fence Json.reference
           "Two answers: " Py.newline (Py.dq "'a':1") Py.newline
           (fenced " " (Py.dq "'sections':[]") " " "")).
  - reflexivity.
  - reflexivity.
  - reflexivity.
  - reflexivity.
  - reflexivity.
Defined.

End RepairExamples.
(** * Properties of the structure resolver *)


Section ResolverFacts.
Import APIClient TextBasedClassifier.
Context `{Json.Runtime}.
Variable call_text_api : list prompt -> prompt -> string.

(** The chunk size is the number of lines divided by the number of chunks,
    rounded up. *)
Lemma chunk_size_ceiling (total_lines num_chunks : nat) :
  (0 < num_chunks)%nat ->
  let chunk_size := ((total_lines + num_chunks - 1) / num_chunks)%nat in
  (total_lines <= chunk_size * num_chunks
   /\ chunk_size * num_chunks < total_lines + num_chunks)%nat.
Proof.
  intros Hn. cbv zeta.
  pose proof (Nat.div_mod_eq (total_lines + num_chunks - 1) num_chunks).
  pose proof (Nat.mod_upper_bound (total_lines + num_chunks - 1) num_chunks).
  nia.
Qed.

Definition chunk_lines (lines : list string) (chunk_size i : nat) : list string :=
  slice lines (i * chunk_size) (Nat.min ((i + 1) * chunk_size) (length lines)).

(** The first [k] chunks, put end to end, are the first [k * chunk_size]
    lines. *)
Lemma chunks_cover (lines : list string) chunk_size k :
  concat (map (chunk_lines lines chunk_size) (seq 0 k))
  = take (k * chunk_size) lines.
Proof.
  induction k as [|k IH]; [done|].
  rewrite seq_S, map_app, concat_app, IH. cbn [map concat plus].
  rewrite app_nil_r. unfold chunk_lines, slice.
  replace (S k * chunk_size)%nat with (k * chunk_size + chunk_size)%nat by lia.
  rewrite <- take_take_drop. f_equal.
  destruct (decide ((k + 1) * chunk_size <= length lines)%nat).
  - f_equal. lia.
  - rewrite !take_ge; [done| |]; rewrite length_drop; lia.
Qed.

Lemma blank_chunks_blank_text text num_chunks :
  (0 < num_chunks)%nat ->
  let lines := Py.splitlines text in
  let chunk_size := ((length lines + num_chunks - 1) / num_chunks)%nat in
  Forall (fun i => Py.is_blank (Py.join (chunk_lines lines chunk_size i)) = true)
         (seq 0 num_chunks) ->
  Py.is_blank text = true.
Proof.
  intros Hn lines chunk_size Hall.
  rewrite <- (join_splitlines text). fold lines.
  pose proof (chunk_size_ceiling (length lines) num_chunks Hn) as [Hc _].
  fold chunk_size in Hc.
  rewrite <- (take_ge lines (num_chunks * chunk_size)) by lia.
  rewrite <- chunks_cover.
  induction (seq 0 num_chunks) as [|i l IH]; [done|].
  apply Forall_cons in Hall as [Hi Hl]. cbn [map concat].
  rewrite join_app. apply is_blank_append; auto.
Qed.

(** What a pass over the chunks adds to the prompts sent: prompts of the
    strategy at hand, and at least one unless every chunk is blank. *)
Lemma chunk_loop_sent indices lines chunk_size num_chunks pages :
  forall current sent,
  exists more,
    snd (chunk_loop call_text_api indices lines chunk_size num_chunks pages
                    current sent) = sent ++ more
    /\ Forall (fun p => total_parts p = num_chunks) more
    /\ (more = [] ->
        Forall (fun i => Py.is_blank (Py.join (chunk_lines lines chunk_size i))
                         = true) indices).
Proof.
  induction indices as [|i rest IH]; intros current sent; cbn [chunk_loop].
  - exists []. by rewrite app_nil_r.
  - fold (chunk_lines lines chunk_size i).
    destruct (Py.is_blank (Py.join (chunk_lines lines chunk_size i))) eqn:Hb.
    + destruct (IH current sent) as (more & Hs & Hp & He).
      exists more. repeat split; auto.
    + set (p := mkPrompt _ _ _ _ _).
      destruct (parse_json_response (call_text_api sent p)) as [[sections|]|e].
      * destruct (IH sections (sent ++ [p])) as (more & Hs & Hp & _).
        exists (p :: more). rewrite Hs, <- app_assoc.
        repeat split; [by constructor | discriminate].
      * exists [p]. repeat split; [by repeat constructor | discriminate].
      * exists [p]. repeat split; [by repeat constructor | discriminate].
Qed.

Lemma strategy_loop_cons k rest text pages sent :
  strategy_loop call_text_api (k :: rest) text pages sent
  = match _extract_with_chunks call_text_api text k pages sent with
    | (Ret (Some identified_sections), sent') =>
        match identified_sections with
        | [] => strategy_loop call_text_api rest text pages sent'
        | _ => (Ret identified_sections, sent')
        end
    | (Ret None, sent') => strategy_loop call_text_api rest text pages sent'
    | (Raise e, sent') => (Raise e, sent')
    end.
Proof. done. Qed.

Lemma strategy_loop_sent strategies text pages : forall sent,
  exists more,
    snd (strategy_loop call_text_api strategies text pages sent) = sent ++ more.
Proof.
  induction strategies as [|k rest IH]; intros sent.
  - exists []. cbn. by rewrite app_nil_r.
  - rewrite strategy_loop_cons. unfold _extract_with_chunks.
    destruct (chunk_loop_sent (seq 0 k) (Py.splitlines text)
                ((length (Py.splitlines text) + k - 1) / k)%nat k pages [] sent)
      as (more & Hs & _).
    destruct (chunk_loop _ _ _ _ _ _ _ _) as [[[[|x l]|]|e] sent'];
      cbn [snd] in Hs; subst sent'.
    + destruct (IH (sent ++ more)) as (more' & ->).
      exists (more ++ more'). by rewrite app_assoc.
    + by exists more.
    + destruct (IH (sent ++ more)) as (more' & ->).
      exists (more ++ more'). by rewrite app_assoc.
    + by exists more.
Qed.

(** A strategy that returns a list returns a non-empty one. *)
Lemma chunk_loop_nonempty indices lines chunk_size num_chunks pages :
  forall current sent l sent',
  chunk_loop call_text_api indices lines chunk_size num_chunks pages
             current sent = (Ret (Some l), sent') -> l <> [].
Proof.
  induction indices as [|i rest IH]; intros current sent l sent';
    cbn [chunk_loop].
  - destruct (SectionProcessor.fix_section_boundaries current); [done|].
    intros [= <- _]. discriminate.
  - destruct (Py.is_blank _); [apply IH|].
    destruct (parse_json_response _) as [[sections|]|e]; [apply IH|done|done].
Qed.

Lemma extract_with_chunks_nonempty text num_chunks pages sent l sent' :
  _extract_with_chunks call_text_api text num_chunks pages sent
  = (Ret (Some l), sent') -> l <> [].
Proof. apply chunk_loop_nonempty. Qed.

(** The first strategy that returns a list ends the loop: the list is the
    result and no further prompt is sent. *)
Lemma strategy_loop_success k rest text pages sent l sent' :
  _extract_with_chunks call_text_api text k pages sent = (Ret (Some l), sent') ->
  l <> []
  /\ strategy_loop call_text_api (k :: rest) text pages sent = (Ret l, sent').
Proof.
  intros He. pose proof (extract_with_chunks_nonempty _ _ _ _ _ _ He) as Hl.
  split; [done|]. rewrite strategy_loop_cons, He. by destruct l.
Qed.

Lemma strategy_loop_failure k rest text pages sent sent' :
  _extract_with_chunks call_text_api text k pages sent = (Ret None, sent') ->
  strategy_loop call_text_api (k :: rest) text pages sent
  = strategy_loop call_text_api rest text pages sent'.
Proof. intros He. by rewrite strategy_loop_cons, He. Qed.

(** With one chunk, the chunk is the whole text. *)
Lemma extract_single_chunk text pages sent :
  Py.is_blank text = false ->
  let p1 := mkPrompt text [] 1 1 pages in
  _extract_with_chunks call_text_api text 1 pages sent
  = match parse_json_response (call_text_api sent p1) with
    | Ret (Some sections) =>
        let fixed := SectionProcessor.fix_section_boundaries sections in
        (Ret (match fixed with [] => None | _ => Some fixed end), sent ++ [p1])
    | Ret None => (Ret None, sent ++ [p1])
    | Raise e => (Raise e, sent ++ [p1])
    end.
Proof.
  intros Hb p1. unfold _extract_with_chunks.
  rewrite Nat.add_sub, Nat.div_1_r. cbn [seq chunk_loop].
  assert (slice (Py.splitlines text) (0 * length (Py.splitlines text))
            (Nat.min ((0 + 1) * length (Py.splitlines text))
                     (length (Py.splitlines text)))
          = Py.splitlines text) as ->.
  { unfold slice. cbn [Nat.mul Nat.add]. rewrite Nat.add_0_r, Nat.min_id, Nat.sub_0_r.
    cbn [drop]. by apply take_ge. }
  rewrite join_splitlines, Hb. change (0 + 1)%nat with 1%nat. fold p1.
  by destruct (parse_json_response (call_text_api sent p1)) as [[sections|]|e].
Qed.

(** C9. The strategies are tried in the order 1, 3, 5, each with chunks of
    ceiling(totalLines / chunkCount) lines. When the single call of the
    1-chunk strategy returns a text from which nothing validated is
    extracted, the resolver goes on with the strategies 3 and 5, and the
    next prompt it sends belongs to the 3-chunk strategy. A strategy that
    returns a list, which is then non-empty, ends the loop with that list
    and without a further prompt. When all three return nothing, the result
    is the empty list. *)
Theorem C9_strategy_escalation text pages sent :
  Py.is_blank text = false ->
  parse_json_response (call_text_api sent (mkPrompt text [] 1 1 pages))
  = Ret None ->
  let p1 := mkPrompt text [] 1 1 pages in
  chunk_strategies = [1; 3; 5]%nat
  /\ (forall total_lines num_chunks : nat,
        (0 < num_chunks)%nat ->
        let chunk_size := ((total_lines + num_chunks - 1) / num_chunks)%nat in
        (total_lines <= chunk_size * num_chunks
         /\ chunk_size * num_chunks < total_lines + num_chunks)%nat)
  /\ _identify_structure call_text_api text pages sent
     = strategy_loop call_text_api [3; 5]%nat text pages (sent ++ [p1])
  /\ (exists p3 more,
        snd (_identify_structure call_text_api text pages sent)
        = sent ++ p1 :: p3 :: more
        /\ total_parts p3 = 3%nat)
  /\ (forall k rest s l s',
        _extract_with_chunks call_text_api text k pages s
        = (Ret (Some l), s') ->
        l <> []
        /\ strategy_loop call_text_api (k :: rest) text pages s = (Ret l, s'))
  /\ (forall s1 s3 s5,
        _extract_with_chunks call_text_api text 1 pages sent = (Ret None, s1) ->
        _extract_with_chunks call_text_api text 3 pages s1 = (Ret None, s3) ->
        _extract_with_chunks call_text_api text 5 pages s3 = (Ret None, s5) ->
        _identify_structure call_text_api text pages sent = (Ret [], s5)).
Proof.
  intros Hb Hparse p1.
  assert (H1 : _extract_with_chunks call_text_api text 1 pages sent
               = (Ret None, sent ++ [p1])).
  { rewrite extract_single_chunk by done. cbv zeta. by rewrite Hparse. }
  assert (Hgo : _identify_structure call_text_api text pages sent
                = strategy_loop call_text_api [3; 5]%nat text pages
                                (sent ++ [p1])).
  { unfold _identify_structure, chunk_strategies.
    by rewrite (strategy_loop_failure _ _ _ _ _ _ H1). }
  split; [done|]. split; [apply chunk_size_ceiling|]. split; [done|].
  split; [|split].
  - rewrite Hgo, strategy_loop_cons. unfold _extract_with_chunks.
    set (lines := Py.splitlines text).
    set (chunk_size := ((length lines + 3 - 1) / 3)%nat).
    destruct (chunk_loop_sent (seq 0 3) lines chunk_size 3 pages []
                (sent ++ [p1])) as (more & Hs & Hp & He).
    destruct more as [|p3 more].
    { specialize (He eq_refl).
      apply (blank_chunks_blank_text text 3) in He; [congruence|lia]. }
    apply Forall_cons in Hp as [Hp3 _].
    destruct (chunk_loop _ _ _ _ _ _ _ _) as [[[[|x l]|]|e] sent'];
      cbn [snd] in Hs; subst sent'; cbn [snd].
    + destruct (strategy_loop_sent [5%nat] text pages
                  ((sent ++ [p1]) ++ p3 :: more)) as (more' & ->).
      exists p3, (more ++ more'). rewrite <- !app_assoc. done.
    + exists p3, more. rewrite <- !app_assoc. done.
    + destruct (strategy_loop_sent [5%nat] text pages
                  ((sent ++ [p1]) ++ p3 :: more)) as (more' & ->).
      exists p3, (more ++ more'). rewrite <- !app_assoc. done.
    + exists p3, more. rewrite <- !app_assoc. done.
  - intros k rest s l s'. apply strategy_loop_success.
  - intros s1 s3 s5 E1 E3 E5. unfold _identify_structure, chunk_strategies.
    rewrite (strategy_loop_failure _ _ _ _ _ _ E1).
    rewrite (strategy_loop_failure _ _ _ _ _ _ E3).
    by rewrite (strategy_loop_failure _ _ _ _ _ _ E5).
Qed.

End ResolverFacts.

Section ResolverExample.
Import APIClient TextBasedClassifier.

(** A backend that answers the single prompt of the 1-chunk strategy with
    prose and every other prompt with a section list. *)
Definition prose_then_json (sent : list prompt) (p : prompt) : string :=
  if (total_parts p =? 1)%nat then "I could not find any structure."
  else Py.dq "{'sections':[{'name':'Articles','startPage':1,'endPage':2}]}".

Lemma C9_strategy_escalation_witness :
  let text := "Page 1: Articles of Incorporation" in
  let p1 := mkPrompt text [] 1 1 2 in
  _identify_structure prose_then_json text 2 []
  = strategy_loop prose_then_json [3; 5]%nat text 2 [p1]
  /\ _identify_structure prose_then_json text 2 []
     = (Ret [mkSection "Articles" 1 2], [p1; mkPrompt text [] 1 3 2]).
Proof.
  pose proof (@C9_strategy_escalation Json.reference prose_then_json
                "Page 1: Articles of Incorporation" 2 []
                ltac:(vm_compute; reflexivity) ltac:(vm_compute; reflexivity))
    as (_ & _ & Hgo & _ & Hwin & _).
  split; [exact Hgo|].
  rewrite Hgo.
  apply (Hwin 3%nat [5%nat] _ _ _).
  with_strategy opaque [SectionProcessor.fix_section_boundaries] lazy.
  rewrite fix_section_boundaries_resolve. reflexivity.
Defined.

End ResolverExample.
(** * Further properties of the classifier *)

Section BlankFacts.

Lemma is_blank_append_inv s1 s2 :
  Py.is_blank (String.append s1 s2) = true ->
  Py.is_blank s1 = true /\ Py.is_blank s2 = true.
Proof.
  unfold Py.is_blank. induction s1 as [|c s1 IH]; cbn [String.append Py.lstrip].
  - done.
  - destruct (Py.is_space c); [done|discriminate].
Qed.

Lemma is_blank_join_inv parts :
  Py.is_blank (Py.join parts) = true ->
  Forall (fun s => Py.is_blank s = true) parts.
Proof.
  induction parts as [|s parts IH]; intros Hb; [done|].
  cbn in Hb. apply is_blank_append_inv in Hb as [Hs Hp].
  constructor; [done|]. by apply IH.
Qed.

Lemma blank_lines text :
  Py.is_blank text = true ->
  Forall (fun s => Py.is_blank s = true) (Py.splitlines text).
Proof. intros Hb. apply is_blank_join_inv. by rewrite join_splitlines. Qed.

End BlankFacts.

Section ResolverInvariants.
Import APIClient TextBasedClassifier.
Context `{Json.Runtime}.
Variable call_text_api : list prompt -> prompt -> string.

(** A pass over the chunks sends at most one prompt per chunk, each with the
    number of the strategy, the page count and the number of its chunk. *)
Lemma chunk_loop_count indices lines chunk_size num_chunks pages :
  forall current sent,
  exists more,
    snd (chunk_loop call_text_api indices lines chunk_size num_chunks pages
                    current sent) = sent ++ more
    /\ (length more <= length indices)%nat
    /\ Forall (fun p => total_parts p = num_chunks
                        /\ total_pages p = pages
                        /\ In (part_idx p) (map (fun i => (i + 1)%nat) indices))
              more.
Proof.
  induction indices as [|i rest IH]; intros current sent; cbn [chunk_loop].
  - exists []. rewrite app_nil_r. by repeat split.
  - assert (Hweak : forall more : list prompt,
              Forall (fun p => total_parts p = num_chunks
                               /\ total_pages p = pages
                               /\ In (part_idx p)
                                     (map (fun i => (i + 1)%nat) rest)) more ->
              Forall (fun p => total_parts p = num_chunks
                               /\ total_pages p = pages
                               /\ In (part_idx p)
                                     (map (fun i => (i + 1)%nat) (i :: rest)))
                     more).
    { intros more Hm. eapply Forall_impl; [done|]. intros p (? & ? & ?).
      repeat split; try done. by right. }
    destruct (Py.is_blank _).
    + destruct (IH current sent) as (more & Hs & Hl & Hp).
      exists more. split; [done|]. split; [cbn; lia|]. by apply Hweak.
    + set (p := mkPrompt _ _ _ _ _).
      assert (Hp0 : total_parts p = num_chunks /\ total_pages p = pages
                    /\ In (part_idx p)
                          (map (fun i => (i + 1)%nat) (i :: rest))).
      { repeat split. by left. }
      destruct (parse_json_response (call_text_api sent p)) as [[sections|]|e].
      * destruct (IH sections (sent ++ [p])) as (more & Hs & Hl & Hp).
        exists (p :: more). rewrite Hs, <- app_assoc.
        split; [done|]. split; [cbn; lia|].
        constructor; [done|]. by apply Hweak.
      * exists [p]. split; [done|]. split; [cbn; lia|]. by constructor.
      * exists [p]. split; [done|]. split; [cbn; lia|]. by constructor.
Qed.

(** Where the list returned by a pass over the chunks comes from: the last
    prompt sent and the sections validated in the reply to it. *)
Definition from_last_reply (sent : list prompt)
    (r : outcome (option (list section)) * list prompt) : Prop :=
  match r with
  | (Ret (Some l), sent') =>
      exists before p reply,
        sent' = before ++ [p]
        /\ (length sent <= length before)%nat
        /\ parse_json_response (call_text_api before p) = Ret (Some reply)
        /\ l = SectionProcessor.fix_section_boundaries reply
  | _ => True
  end.

Lemma chunk_loop_origin indices lines chunk_size num_chunks pages :
  forall current sent,
  match chunk_loop call_text_api indices lines chunk_size num_chunks pages
                   current sent with
  | (Ret (Some l), sent') =>
      (sent' = sent /\ l = SectionProcessor.fix_section_boundaries current)
      \/ from_last_reply sent (Ret (Some l), sent')
  | _ => True
  end.
Proof.
  induction indices as [|i rest IH]; intros current sent; cbn [chunk_loop].
  - destruct (SectionProcessor.fix_section_boundaries current) eqn:E; [done|].
    by left.
  - destruct (Py.is_blank _); [apply IH|].
    set (p := mkPrompt _ _ _ _ _).
    destruct (parse_json_response (call_text_api sent p)) as [[sections|]|e]
      eqn:Hparse; [|done|done].
    specialize (IH sections (sent ++ [p])).
    destruct (chunk_loop _ rest _ _ _ _ sections (sent ++ [p]))
      as [[[l|]|e] sent']; [|done|done].
    right. destruct IH as [[-> ->]|(before & q & reply & -> & Hlen & Hq & ->)].
    + exists sent, p, sections. repeat split; try done.
    + exists before, q, reply. rewrite length_app in Hlen. cbn in Hlen.
      repeat split; try done. lia.
Qed.

Lemma extract_with_chunks_origin text num_chunks pages sent :
  from_last_reply sent
    (_extract_with_chunks call_text_api text num_chunks pages sent).
Proof.
  unfold _extract_with_chunks.
  set (lines := Py.splitlines text).
  set (chunk_size := ((length lines + num_chunks - 1) / num_chunks)%nat).
  pose proof (chunk_loop_origin (seq 0 num_chunks) lines chunk_size
                num_chunks pages [] sent) as Ho.
  destruct (chunk_loop call_text_api (seq 0 num_chunks) lines chunk_size
              num_chunks pages [] sent) as [[[l|]|e] sent'] eqn:E; try done.
  destruct Ho as [[-> ->]|Ho]; [|done].
  by apply chunk_loop_nonempty in E.
Qed.

Lemma strategy_loop_count strategies text pages : forall sent,
  exists more,
    snd (strategy_loop call_text_api strategies text pages sent) = sent ++ more
    /\ (length more <= list_sum strategies)%nat
    /\ Forall (fun p => In (total_parts p) strategies
                        /\ total_pages p = pages
                        /\ (1 <= part_idx p <= total_parts p)%nat) more.
Proof.
  induction strategies as [|k rest IH]; intros sent.
  - exists []. cbn. rewrite app_nil_r. by repeat split.
  - rewrite strategy_loop_cons. unfold _extract_with_chunks.
    destruct (chunk_loop_count (seq 0 k) (Py.splitlines text)
                ((length (Py.splitlines text) + k - 1) / k)%nat k pages [] sent)
      as (more & Hs & Hl & Hp).
    rewrite length_seq in Hl.
    assert (Hp' : Forall (fun p => In (total_parts p) (k :: rest)
                                   /\ total_pages p = pages
                                   /\ (1 <= part_idx p <= total_parts p)%nat)
                         more).
    { eapply Forall_impl; [done|]. intros p (Hk & Hpg & Hin).
      split; [by left|]. split; [done|].
      apply in_map_iff in Hin as (i & Heq & Hi). apply in_seq in Hi.
      cbn beta in Heq. rewrite <- Heq, Hk. lia. }
    assert (Hrest : forall more' : list prompt,
              Forall (fun p => In (total_parts p) rest
                               /\ total_pages p = pages
                               /\ (1 <= part_idx p <= total_parts p)%nat)
                     more' ->
              Forall (fun p => In (total_parts p) (k :: rest)
                               /\ total_pages p = pages
                               /\ (1 <= part_idx p <= total_parts p)%nat)
                     more').
    { intros more' Hm. eapply Forall_impl; [done|]. intros p (? & ? & ?).
      split; [by right|done]. }
    destruct (chunk_loop _ _ _ _ _ _ _ _) as [[[[|x l]|]|e] sent'];
      cbn [snd] in Hs; subst sent'.
    + destruct (IH (sent ++ more)) as (more' & -> & Hl' & Hp'').
      exists (more ++ more'). rewrite app_assoc, length_app.
      unfold list_sum in *. cbn [fold_right].
      split; [done|]. split; [lia|]. apply Forall_app. split; [done|].
      by apply Hrest.
    + exists more. unfold list_sum. cbn [fold_right snd].
      split; [done|]. split; [lia|done].
    + destruct (IH (sent ++ more)) as (more' & -> & Hl' & Hp'').
      exists (more ++ more'). rewrite app_assoc, length_app.
      unfold list_sum in *. cbn [fold_right].
      split; [done|]. split; [lia|]. apply Forall_app. split; [done|].
      by apply Hrest.
    + exists more. unfold list_sum. cbn [fold_right snd].
      split; [done|]. split; [lia|done].
Qed.

(** A non-empty result of the strategies is the reconciled list of the
    sections validated in the reply to the last prompt sent. *)
Definition result_from_last_reply
    (r : outcome (list section) * list prompt) : Prop :=
  match r with
  | (Ret (x :: l), sent') =>
      exists before p reply,
        sent' = before ++ [p]
        /\ parse_json_response (call_text_api before p) = Ret (Some reply)
        /\ x :: l = SectionProcessor.fix_section_boundaries reply
  | _ => True
  end.

Lemma strategy_loop_origin strategies text pages : forall sent,
  result_from_last_reply
    (strategy_loop call_text_api strategies text pages sent).
Proof.
  induction strategies as [|k rest IH]; intros sent; [done|].
  rewrite strategy_loop_cons.
  pose proof (extract_with_chunks_origin text k pages sent) as Ho.
  destruct (_extract_with_chunks call_text_api text k pages sent)
    as [[[[|x l]|]|e] sent']; try apply IH; [|done].
  destruct Ho as (before & p & reply & -> & _ & Hp & Hl).
  by exists before, p, reply.
Qed.

(** On a text of white space no chunk is sent and no strategy finds
    anything. *)
Lemma chunk_loop_blank indices lines chunk_size num_chunks pages current sent :
  Forall (fun s => Py.is_blank s = true) lines ->
  chunk_loop call_text_api indices lines chunk_size num_chunks pages
             current sent
  = (Ret (match SectionProcessor.fix_section_boundaries current with
          | [] => None
          | sections => Some sections
          end), sent).
Proof.
  intros Hb. induction indices as [|i rest IH]; cbn [chunk_loop].
  - by destruct (SectionProcessor.fix_section_boundaries current).
  - assert (Py.is_blank
              (Py.join (slice lines (i * chunk_size)
                          (Nat.min ((i + 1) * chunk_size) (length lines))))
            = true) as ->; [|done].
    apply is_blank_join. unfold slice. by apply Forall_take, Forall_drop.
Qed.

Lemma strategy_loop_blank strategies text pages sent :
  Py.is_blank text = true ->
  strategy_loop call_text_api strategies text pages sent = (Ret [], sent).
Proof.
  intros Hb. induction strategies as [|k rest IH]; [done|].
  rewrite strategy_loop_cons. unfold _extract_with_chunks.
  by rewrite chunk_loop_blank by by apply blank_lines.
Qed.

End ResolverInvariants.

Section BatchFacts.
Import APIClient TextBasedClassifier.
Variable create_page_grid_b64 : list nat -> option string.

(** A batch of consecutive pages, at most [batch_size] of them and none
    beyond [total_pages], with a non-empty grid and no text yet. *)
Definition batch_shape (batch_size total_pages : nat) (b : batch) : Prop :=
  exists i,
    (i < total_pages)%nat
    /\ start_page b = (i + 1)%nat
    /\ end_page b = Nat.min (i + batch_size) total_pages
    /\ page_nums b = seq (start_page b) (end_page b + 1 - start_page b)
    /\ grid_image_b64 b <> ""
    /\ text_result b = None.


Lemma last_seq i n d : List.last (seq i (S n)) d = (i + n)%nat.
Proof.
  revert i. induction n as [|n IH]; intros i; [cbn; lia|].
  change (seq i (S (S n))) with (i :: seq (S i) (S n)).
  change (List.last (i :: seq (S i) (S n)) d) with (List.last (seq (S i) (S n)) d).
  rewrite IH. lia.
Qed.

Lemma map_succ_seq i n : map (fun p => (p + 1)%nat) (seq i n) = seq (i + 1) n.
Proof.
  revert i. induction n as [|n IH]; intros i; [done|]. cbn [seq map].
  f_equal. by rewrite IH.
Qed.

(** The batch made for the pages from index [i] on. *)
Lemma new_batch_shape i batch_size total_pages num grid :
  (i < total_pages)%nat -> (1 <= batch_size)%nat -> grid <> "" ->
  let indices := batch_indices i batch_size total_pages in
  batch_shape batch_size total_pages
    (mkBatch num (hd 0%nat indices + 1) (List.last indices 0%nat + 1)
             (map (fun p => (p + 1)%nat) indices) grid None)
  /\ map (fun p => (p + 1)%nat) indices
     = seq (i + 1) (Nat.min (i + batch_size) total_pages - i).
Proof.
  intros Hi Hb Hg indices. subst indices. unfold batch_indices.
  remember (Nat.min (i + batch_size) total_pages - i)%nat as n eqn:Hn.
  split; [|apply map_succ_seq].
  destruct n as [|m]; [lia|].
  exists i. cbn [start_page end_page page_nums grid_image_b64 text_result].
  rewrite last_seq, map_succ_seq. change (hd 0%nat (seq i (S m))) with i.
  split; [done|]. split; [done|]. split; [lia|].
  split; [|by split].
  replace (i + m + 1 + 1 - (i + 1))%nat with (S m) by lia. done.
Qed.


Lemma seq_batch_split i batch_size total_pages :
  seq (i + 1) (total_pages - i)
  = seq (i + 1) (Nat.min (i + batch_size) total_pages - i)
    ++ seq (i + batch_size + 1) (total_pages - (i + batch_size)).
Proof.
  replace (total_pages - i)%nat
    with ((Nat.min (i + batch_size) total_pages - i)
          + (total_pages - (i + batch_size)))%nat at 1 by lia.
  rewrite seq_app. apply (f_equal (app _)).
  destruct (Nat.le_gt_cases (i + batch_size) total_pages).
  - f_equal; lia.
  - replace (total_pages - (i + batch_size))%nat with 0%nat by lia. done.
Qed.


(** With a grid for every batch, no page is left out. *)
Lemma batch_loop_all_pages fuel batch_size total_pages : forall i batches,
  (1 <= batch_size)%nat ->
  (total_pages - i <= fuel)%nat ->
  (forall indices, indices <> [] ->
     exists grid, create_page_grid_b64 indices = Some grid /\ grid <> "") ->
  let out := batch_loop create_page_grid_b64
               (Py.range_from fuel i total_pages batch_size)
               batch_size total_pages batches in
  concat (map page_nums out)
  = concat (map page_nums batches) ++ seq (i + 1) (total_pages - i)
  /\ length out
     = (length batches + (total_pages - i + batch_size - 1) / batch_size)%nat.
Proof.
  induction fuel as [|fuel IH]; intros i batches Hb Hfuel Hgrid;
    cbn [Py.range_from].
  - replace (total_pages - i)%nat with 0%nat by lia. cbn.
    rewrite app_nil_r, Nat.div_small by lia. split; [done|lia].
  - destruct (i <? total_pages)%nat eqn:E.
    + apply Nat.ltb_lt in E. cbn [batch_loop].
      destruct (Hgrid (batch_indices i batch_size total_pages))
        as (grid & -> & Hg).
      { unfold batch_indices.
        replace (Nat.min (i + batch_size) total_pages - i)%nat
          with (S (pred (Nat.min (i + batch_size) total_pages - i))) by lia.
        done. }
      apply String.eqb_neq in Hg as Hg'. rewrite Hg'.
      destruct (IH (i + batch_size)%nat
                   (batches ++ [mkBatch (length batches + 1)
                      (hd 0%nat (batch_indices i batch_size total_pages) + 1)
                      (List.last (batch_indices i batch_size total_pages)
                                 0%nat + 1)
                      (map (fun p => (p + 1)%nat)
                           (batch_indices i batch_size total_pages))
                      grid None]) Hb ltac:(lia) Hgrid) as [Hc Hl].
      destruct (new_batch_shape i batch_size total_pages
                  (length batches + 1) grid E Hb Hg) as [_ Hpages].
      cbv zeta in Hc, Hl. split.
      * rewrite Hc, map_app, concat_app. cbn [map concat page_nums].
        rewrite app_nil_r, Hpages, <- app_assoc.
        by rewrite (seq_batch_split i batch_size total_pages).
      * rewrite Hl, length_app. cbn [length].
        destruct (Nat.le_gt_cases (i + batch_size) total_pages).
        -- replace (total_pages - i + batch_size - 1)%nat
             with ((total_pages - (i + batch_size) + batch_size - 1)
                   + 1 * batch_size)%nat by lia.
           rewrite Nat.div_add by lia. lia.
        -- replace (total_pages - (i + batch_size) + batch_size - 1)%nat
             with (batch_size - 1)%nat by lia.
           rewrite (Nat.div_small (batch_size - 1)) by lia.
           assert ((total_pages - i + batch_size - 1) / batch_size = 1)%nat
             as ->; [|lia].
           symmetry.
           apply Nat.div_unique with (r := (total_pages - i - 1)%nat); lia.
    + apply Nat.ltb_ge in E.
      replace (total_pages - i)%nat with 0%nat by lia. cbn.
      rewrite app_nil_r, Nat.div_small by lia. split; [done|lia].
Qed.

End BatchFacts.

Section AggregateFacts.
Import APIClient TextBasedClassifier.

(** The items of [text_parts] when every batch has its text. *)
Definition parts_of (batches : list batch) : list string :=
  concat (map (fun b => [header b; default "" (text_result b); separator])
              batches).

Lemma text_parts_all batches :
  Forall (fun b => text_result b <> None) batches ->
  mapM (fun x : option string => x) (text_parts batches)
  = Some (parts_of batches).
Proof.
  induction 1 as [|b rest Hb _ IH]; [done|].
  unfold text_parts, parts_of in *. cbn [map concat app].
  destruct (text_result b) as [t|]; [|done].
  cbn [mapM mbind option_bind mret option_ret]. by rewrite IH.
Qed.

Lemma text_parts_missing batches :
  Exists (fun b => text_result b = None) batches ->
  mapM (fun x : option string => x) (text_parts batches) = None.
Proof.
  induction 1 as [b rest Hb|b rest _ IH]; unfold text_parts in *;
    cbn [map concat app].
  - rewrite Hb. done.
  - destruct (text_result b) as [t|]; [|done].
    cbn [mapM mbind option_bind mret option_ret]. by rewrite IH.
Qed.

Lemma header_not_blank b rest :
  Py.is_blank (String.append (header b) rest) = false.
Proof. done. Qed.

Lemma aggregate_all batches :
  Forall (fun b => text_result b <> None) batches ->
  _aggregate_batch_results batches
  = Ret (Py.join_with Py.newline (parts_of batches)).
Proof.
  intros Hall. unfold _aggregate_batch_results. by rewrite text_parts_all.
Qed.

Lemma aggregate_not_blank b rest :
  Py.is_blank (Py.join_with Py.newline (parts_of (b :: rest))) = false.
Proof.
  unfold parts_of. cbn [map concat app Py.join_with].
  apply header_not_blank.
Qed.

Lemma join_join ls : Py.join (map Py.join ls) = Py.join (concat ls).
Proof.
  induction ls as [|l ls IH]; [done|]. cbn [map concat].
  rewrite join_app, <- IH. done.
Qed.

End AggregateFacts.

Section ClassifierProperties.
Import APIClient TextBasedClassifier.
Context `{Json.Runtime}.
Variable call_text_api : list prompt -> prompt -> string.
Variable create_page_grid_b64 : list nat -> option string.


(** X23. With a positive batch size and a non-empty grid for every batch,
    every page of the document is in exactly one batch: the page numbers of
    the batches, put end to end, are 1, 2, ..., [total_pages], and there are
    [total_pages / batch_size], rounded up, batches. *)
Theorem create_batches_partition (batch_size : Z) (total_pages : nat) :
  0 < batch_size ->
  (forall indices, indices <> [] ->
     exists grid, create_page_grid_b64 indices = Some grid /\ grid <> "") ->
  exists batches,
    _create_batches create_page_grid_b64 batch_size total_pages = Ret batches
    /\ concat (map page_nums batches) = seq 1 total_pages
    /\ Z.of_nat (length batches)
       = (Z.of_nat total_pages + batch_size - 1) / batch_size.
Proof.
  intros Hpos Hgrid. unfold _create_batches.
  assert ((batch_size =? 0) = false) as -> by lia.
  assert ((batch_size <? 0) = false) as -> by lia.
  eexists. split; [done|]. cbv zeta. unfold Py.range.
  destruct (batch_loop_all_pages create_page_grid_b64 total_pages
              (Z.to_nat batch_size) total_pages 0%nat [] ltac:(lia)
              ltac:(lia) Hgrid) as [Hc Hl].
  cbv zeta in Hc, Hl. cbn [map concat app length] in Hc, Hl.
  rewrite Nat.sub_0_r in Hc, Hl. cbn [Nat.add] in Hc, Hl.
  split; [done|]. rewrite Hl, Nat2Z.inj_div.
  f_equal; lia.
Qed.

(** X24. The aggregated text is the items header, text and separator of the
    batches in order, joined by line feeds: empty without batches, and
    otherwise never blank, since it starts with the header of the first
    batch. When a batch has no text, [str.join] raises [TypeError]. *)
Theorem aggregate_batch_results_text (batches : list batch) :
  match _aggregate_batch_results batches with
  | Ret text =>
      Forall (fun b => text_result b <> None) batches
      /\ text = Py.join_with Py.newline (parts_of batches)
      /\ (batches = [] -> text = "")
      /\ (batches <> [] -> Py.is_blank text = false)
  | Raise e => e = "TypeError"
               /\ Exists (fun b => text_result b = None) batches
  end.
Proof.
  destruct (decide (Forall (fun b => text_result b <> None) batches))
    as [Hall|Hmiss].
  - rewrite aggregate_all by done. split; [done|]. split; [done|].
    split; [by intros ->|]. destruct batches as [|b rest]; [done|].
    intros _. apply aggregate_not_blank.
  - apply not_Forall_Exists in Hmiss; [|intros b; apply _].
    assert (Hex : Exists (fun b => text_result b = None) batches).
    { eapply Exists_impl; [done|]. intros b Hb. cbn in Hb.
      destruct (text_result b) as [t|]; [|done]. by destruct Hb. }
    unfold _aggregate_batch_results. by rewrite text_parts_missing.
Qed.

(** X25. For a positive number of chunks, the chunks of a strategy, put end
    to end in order, are the whole text: no line is lost or sent twice. *)
Theorem chunks_cover_text (text : string) (num_chunks : nat) :
  (0 < num_chunks)%nat ->
  let lines := Py.splitlines text in
  let chunk_size := ((length lines + num_chunks - 1) / num_chunks)%nat in
  Py.join (map (fun i => Py.join (chunk_lines lines chunk_size i))
               (seq 0 num_chunks))
  = text.
Proof.
  intros Hn lines chunk_size.
  rewrite <- (map_map (chunk_lines lines chunk_size) Py.join), join_join.
  rewrite chunks_cover, take_ge.
  - apply join_splitlines.
  - pose proof (chunk_size_ceiling (length lines) num_chunks Hn) as [Hc _].
    fold chunk_size in Hc. lia.
Qed.

(** X26. Whatever the backend replies, the resolver sends at most nine
    prompts, each for one of the strategies 1, 3 and 5 with a part number
    between 1 and the number of parts, and each with the page count of the
    document. *)
Theorem identify_structure_prompts (text : string) (pages : Z)
    (sent : list prompt) :
  exists more,
    snd (_identify_structure call_text_api text pages sent) = sent ++ more
    /\ (length more <= 9)%nat
    /\ Forall (fun p => In (total_parts p) [1; 3; 5]%nat
                        /\ total_pages p = pages
                        /\ (1 <= part_idx p <= total_parts p)%nat) more.
Proof.
  unfold _identify_structure, chunk_strategies.
  destruct (strategy_loop_count call_text_api [1; 3; 5]%nat text pages sent)
    as (more & Hs & Hl & Hp).
  exists more. by repeat split.
Qed.

(** X27. A non-empty result of the resolver is the reconciled list of the
    sections validated in the reply to the last prompt sent, a non-empty
    list of schema-valid sections; replies to earlier prompts only serve as
    context. In the result each section ends before the next one starts,
    with no gap of one to five pages between them. *)
Theorem identify_structure_result (text : string) (pages : Z)
    (sent : list prompt) :
  match _identify_structure call_text_api text pages sent with
  | (Ret (x :: l), sent') =>
      exists before p reply,
        sent' = before ++ [p]
        /\ parse_json_response (call_text_api before p) = Ret (Some reply)
        /\ reply <> [] /\ Forall schema_valid reply
        /\ x :: l = SectionProcessor.fix_section_boundaries reply
        /\ adjacent (fun a b => ends_before a b /\ settled a b) (x :: l)
  | _ => True
  end.
Proof.
  unfold _identify_structure.
  pose proof (strategy_loop_origin call_text_api chunk_strategies text pages
                sent) as Ho.
  destruct (strategy_loop call_text_api chunk_strategies text pages sent)
    as [[[|x l]|e] sent']; try done.
  destruct Ho as (before & p & reply & -> & Hp & Hl).
  exists before, p, reply.
  pose proof (parse_well_formed (call_text_api before p)) as Hwf.
  rewrite Hp in Hwf. destruct Hwf as [Hne Hvalid].
  split; [done|]. split; [done|]. split; [done|]. split; [done|].
  split; [done|]. rewrite Hl. apply fix_adjacent.
Qed.

(** X28. On a text of white space only, and so without any batch, the
    resolver sends no prompt and returns the empty list. *)
Theorem identify_structure_blank (pages : Z) (sent : list prompt) :
  (forall text,
     Py.is_blank text = true ->
     _identify_structure call_text_api text pages sent = (Ret [], sent))
  /\ _identify_structure_of_batches call_text_api [] pages sent
     = (Ret [], sent).
Proof.
  split.
  - intros text Hb. by apply strategy_loop_blank.
  - unfold _identify_structure_of_batches.
    change (_aggregate_batch_results []) with (@Ret string "").
    by apply strategy_loop_blank.
Qed.

End ClassifierProperties.

Section ClassifierExamples.
Import APIClient TextBasedClassifier.

Lemma create_batches_partition_witness :
  exists batches,
    _create_batches (fun _ => Some "grid") 6 14 = Ret batches
    /\ concat (map page_nums batches) = seq 1 14
    /\ Z.of_nat (length batches) = (Z.of_nat 14 + 6 - 1) / 6.
Proof.
  apply (create_batches_partition (fun _ => Some "grid") 6 14).
  - lia.
  - intros indices _. by exists "grid".
Defined.

Lemma chunks_cover_text_witness :
  let text := String.append "Page 1: Articles"
                (String.append Py.newline "Page 2: By-laws") in
  let lines := Py.splitlines text in
  let chunk_size := ((length lines + 3 - 1) / 3)%nat in
  Py.join (map (fun i => Py.join (chunk_lines lines chunk_size i)) (seq 0 3))
  = text.
Proof.
  apply (chunks_cover_text
           (String.append "Page 1: Articles"
              (String.append Py.newline "Page 2: By-laws")) 3).
  lia.
Defined.

End ClassifierExamples.

(** ** The page grid *)

Section GridProperties.
Import ImageUtils.

(** X29. In a grid of [thumbnails] cells, the cell of an index below
    [thumbnails] lies inside the composite image, the white box of its label
    lies inside the cell, and the cells of two different indices share no
    pixel. *)
Theorem grid_cells_layout (thumbnails idx : Z) :
  0 <= idx < thumbnails ->
  let '(pos_x, pos_y) := cell_position idx in
  let '(grid_width, grid_height) := grid_size thumbnails in
  let '((x0, y0), (x1, y1)) := label_box idx in
  (0 <= pos_x /\ pos_x + 600 <= grid_width
   /\ 0 <= pos_y /\ pos_y + 800 <= grid_height)
  /\ (pos_x <= x0 /\ x0 < x1 /\ x1 < pos_x + 600
      /\ pos_y <= y0 /\ y0 < y1 /\ y1 < pos_y + 800)
  /\ (forall other,
        0 <= other -> other <> idx ->
        let '(other_x, other_y) := cell_position other in
        other_x + 600 <= pos_x \/ pos_x + 600 <= other_x
        \/ other_y + 800 <= pos_y \/ pos_y + 800 <= other_y).
Proof.
  intros Hidx. unfold label_box, cell_position, grid_size, grid_rows,
    grid_columns, thumbnail_dimensions. cbn [fst snd].
  pose proof (Z.div_mod idx 2 ltac:(lia)) as Hdm.
  pose proof (Z.mod_pos_bound idx 2 ltac:(lia)) as Hmod.
  pose proof (Z.div_mod (thumbnails + 2 - 1) 2 ltac:(lia)) as Hdm'.
  pose proof (Z.mod_pos_bound (thumbnails + 2 - 1) 2 ltac:(lia)) as Hmod'.
  split; [lia|]. split; [lia|].
  intros other Ho Hne.
  pose proof (Z.div_mod other 2 ltac:(lia)) as Hdo.
  pose proof (Z.mod_pos_bound other 2 ltac:(lia)) as Hmo.
  lia.
Qed.

Lemma grid_cells_layout_witness :
  let '(pos_x, pos_y) := cell_position 3 in
  let '(grid_width, grid_height) := grid_size 5 in
  let '((x0, y0), (x1, y1)) := label_box 3 in
  (0 <= pos_x /\ pos_x + 600 <= grid_width
   /\ 0 <= pos_y /\ pos_y + 800 <= grid_height)
  /\ (pos_x <= x0 /\ x0 < x1 /\ x1 < pos_x + 600
      /\ pos_y <= y0 /\ y0 < y1 /\ y1 < pos_y + 800)
  /\ (forall other,
        0 <= other -> other <> 3 ->
        let '(other_x, other_y) := cell_position other in
        other_x + 600 <= pos_x \/ pos_x + 600 <= other_x
        \/ other_y + 800 <= pos_y \/ pos_y + 800 <= other_y).
Proof.
  apply (grid_cells_layout 5 3). lia.
Defined.

End GridProperties.
